(** * Graph model and geometry engine of the node-and-port diagram editor

    A shallow embedding of [src/model.ts] (class [GraphModel]) and of the
    rotate operations of the context-menu listener, followed by the
    properties its specification states about them.  Further parts embed
    the other operations of the context menu, the resize command and the
    resize handle, the interactive edge creator and the alignment buttons,
    with properties that hold of them.

    JavaScript numbers are read through the interface [JsNumber]: the
    source's arithmetic and its [===] test.  Its instances:
    - [Q]: exact rational arithmetic, for statements that are equations or
      inequalities between formulas (rounding is left out of these).
    - [float]: IEEE 754 binary64 as the kernel implements it, which is the
      arithmetic the program runs on; [Math.cos] and [Math.sin] stay
      arbitrary functions there.
    - [R]: exact real arithmetic with the real cosine and sine, used for
      the rotations that have no effect and for quarter turns on load.
    No division of the source can meet a zero divisor (the divisors are 2,
    180, [total - 1] under [total !== 1] and the number of selected nodes
    when there is one), so the value a reading gives to a division by zero
    never matters.
    Array indices and array lengths are natural numbers.  The edge counter is
    a double that holds a non-negative integer: it is read through its value
    in [N], with the rounding of doubles written out ([Count]). *)

From Stdlib Require Import Reals Lra.
From Stdlib Require Import ZArith NArith QArith Qfield Floats List String Ascii Bool Lia Lqa.
From Stdlib Require Import DecimalString DecimalNat DecimalN Decimal.
Import ListNotations.

Set Implicit Arguments.
Close Scope R_scope.
Close Scope Q_scope.
Close Scope float_scope.
Local Open Scope string_scope.
Local Open Scope list_scope.

(** ** Numbers *)

Declare Scope js_scope.
Delimit Scope js_scope with js.

(** The operations [model.ts] applies to values of type [number]. *)
Class JsNumber (num : Type) : Type := {
  lit : Z -> num;                 (* an integer literal, an index or a length *)
  add : num -> num -> num;
  sub : num -> num -> num;
  mul : num -> num -> num;
  div : num -> num -> num;
  neg : num -> num;
  strictEq : num -> num -> bool   (* [===] between two numbers *)
}.

(** [Math.PI], [Math.cos] and [Math.sin]. *)
Class JsMath (num : Type) : Type := {
  Math_PI : num;
  Math_cos : num -> num;
  Math_sin : num -> num
}.

Infix "+" := add : js_scope.
Infix "-" := sub : js_scope.
Infix "*" := mul : js_scope.
Infix "/" := div : js_scope.
Notation "- a" := (neg a) : js_scope.
Infix "===" := strictEq (at level 70, no associativity) : js_scope.
Notation "a !== b" := (negb (strictEq a b)) (at level 70, no associativity) : js_scope.

(** Exact rationals. *)
#[export] Instance Q_JsNumber : JsNumber Q := {
  lit := inject_Z;
  add := Qplus;
  sub := Qminus;
  mul := Qmult;
  div := Qdiv;
  neg := Qopp;
  strictEq := Qeq_bool
}.

(** An integer of the source text as a double (exact below 2^53). *)
Definition float_of_Z (z : Z) : float :=
  match z with
  | Z0 => PrimFloat.zero
  | Zpos _ => PrimFloat.of_uint63 (Uint63.of_Z z)
  | Zneg p => PrimFloat.opp (PrimFloat.of_uint63 (Uint63.of_Z (Zpos p)))
  end.

(** IEEE 754 doubles. *)
#[export] Instance float_JsNumber : JsNumber float := {
  lit := float_of_Z;
  add := PrimFloat.add;
  sub := PrimFloat.sub;
  mul := PrimFloat.mul;
  div := PrimFloat.div;
  neg := PrimFloat.opp;
  strictEq := PrimFloat.eqb
}.

(** Exact reals, with the real [PI], [cos] and [sin]. *)
#[export] Instance R_JsNumber : JsNumber R := {
  lit := IZR;
  add := Rplus;
  sub := Rminus;
  mul := Rmult;
  div := Rdiv;
  neg := Ropp;
  strictEq := fun a b => if Req_dec_T a b then true else false
}.

#[export] Instance R_JsMath : JsMath R := {
  Math_PI := PI;
  Math_cos := cos;
  Math_sin := sin
}.

(** A number written by [JSON.stringify] and read back by [JSON.parse]: a
    finite number is read back as it was, but for -0, which is written as
    [0]; [NaN] and the infinities are written as [null] ([None]). *)
Class JsJson (num : Type) : Type := {
  JSON_number : num -> option num
}.

(** Every rational and every real is written as it is. *)
#[export] Instance Q_JsJson : JsJson Q := { JSON_number := @Some Q }.
#[export] Instance R_JsJson : JsJson R := { JSON_number := @Some R }.

#[export] Instance float_JsJson : JsJson float := {
  JSON_number := fun v =>
    if PrimFloat.is_nan v || PrimFloat.is_infinity v then None
    else if PrimFloat.is_zero v then Some PrimFloat.zero
    else Some v
}.

Section Numbers.
Context {num : Type} {JN : JsNumber num}.
Local Open Scope js_scope.

(** [ToBoolean] of a number: false for 0, -0 and NaN (the one value that
    is not [===] to itself). *)
Definition truthy (r : num) : bool := (r !== lit 0) && (r === r).

(** [r || d] for numbers. *)
Definition orElse (r d : num) : num := if truthy r then r else d.

(** [r || d] when [r] may be absent ([undefined] or [null]). *)
Definition optOrElse (r : option num) (d : num) : num :=
  match r with
  | Some v => orElse v d
  | None => d
  end.
End Numbers.

(** ** Strings *)

Definition isDigit (c : ascii) : bool :=
  let n := nat_of_ascii c in (48 <=? n)%nat && (n <=? 57)%nat.

(** [s.split(sep)[0]] for a one-character separator. *)
Fixpoint beforeFirst (sep : ascii) (s : string) : string :=
  match s with
  | EmptyString => EmptyString
  | String c rest => if Ascii.eqb c sep then EmptyString else String c (beforeFirst sep rest)
  end.

(** The longest run of decimal digits at the start of [s]: what [\d+] takes. *)
Fixpoint takeDigits (s : string) : string :=
  match s with
  | EmptyString => EmptyString
  | String c rest => if isDigit c then String c (takeDigits rest) else EmptyString
  end.

Fixpoint dropPrefix (p s : string) : option string :=
  match p, s with
  | EmptyString, _ => Some s
  | String a p', String b s' => if Ascii.eqb a b then dropPrefix p' s' else None
  | String _ _, EmptyString => None
  end.

(** [/edge-(\d+)/] tried at the start of [s]: the captured group. *)
Definition matchEdgeHere (s : string) : option string :=
  match dropPrefix "edge-" s with
  | Some rest =>
      match takeDigits rest with
      | EmptyString => None
      | ds => Some ds
      end
  | None => None
  end.

(** [id.match(/edge-(\d+)/)]: the leftmost match, group 1. *)
Fixpoint matchEdge (s : string) : option string :=
  match matchEdgeHere s with
  | Some ds => Some ds
  | None =>
      match s with
      | EmptyString => None
      | String _ rest => matchEdge rest
      end
  end.

(** A natural number in a template literal: an index or a time stamp. *)
Definition toString (n : nat) : string := NilEmpty.string_of_uint (Nat.to_uint n).

(** ** The edge counter, a double

    [edgeCounter] is a [number]: an IEEE 754 double.  What it holds is a
    non-negative integer or [Infinity]: it starts at 0, [loadFromJson] sets
    it to the largest of the [parseInt] results, and [addEdge] adds 1.  A
    finite value is given by the integer it is, in [N]; the integers below
    2^53 are all doubles, the larger ones are rounded to 53 significant
    bits. *)

Inductive Count : Type :=
| count (n : N)      (* a finite double, by its integer value *)
| Infinity.

Definition two53 : N := 9007199254740992.

(** The double nearest to the integer [n], ties to the even significand;
    [Infinity] from 2^1024 - 2^970 on. *)
Definition roundToDouble (n : N) : Count :=
  if (n <? two53)%N then count n
  else
    let e := (N.size n - 53)%N in
    let q := N.shiftr n e in
    let r := (n - N.shiftl q e)%N in
    let half := N.shiftl 1 (e - 1) in
    let q' := if (half <? r)%N || ((r =? half)%N && N.odd q) then (q + 1)%N else q in
    let rounded := N.shiftl q' e in
    if (1024 <? N.size rounded)%N then Infinity else count rounded.

(** [++c] on the counter. *)
Definition increment (c : Count) : Count :=
  match c with
  | count n => roundToDouble (n + 1)
  | Infinity => Infinity
  end.

(** [Math.max] of two such numbers. *)
Definition Math_max_Count (a b : Count) : Count :=
  match a, b with
  | count m, count n => count (N.max m n)
  | _, _ => Infinity
  end.

Definition Count_eqb (a b : Count) : bool :=
  match a, b with
  | count m, count n => (m =? n)%N
  | Infinity, Infinity => true
  | _, _ => false
  end.

(** The decimal digits of an integer, and the integer a string of decimal
    digits denotes. *)
Definition decimal (n : N) : string := NilEmpty.string_of_uint (N.to_uint n).

Definition decimalValue (ds : string) : N :=
  match NilEmpty.uint_of_string ds with
  | Some d => N.of_uint d
  | None => 0%N
  end.

(** [parseInt] on a string of decimal digits: the integer they denote, as
    a double.  (The language prescribes the nearest double up to 20
    significant digits and lets an implementation replace later digits by
    zeros first; this reading never does.) *)
Definition parseInt (ds : string) : Count := roundToDouble (decimalValue ds).

(** [Number::toString] looks for the least number of significant decimal
    digits that, followed by zeros, still denote a number that rounds to
    the double, and among the candidates of that length for the nearest
    (the even one on a tie).  [unit] is the power of ten the candidates
    are multiples of; it starts at the leading digit of [n]. *)
Fixpoint shortestDecimal (fuel : nat) (unit n : N) : N :=
  match fuel with
  | O => n
  | S fuel' =>
      let low := ((n / unit) * unit)%N in
      let high := (low + unit)%N in
      let okLow := Count_eqb (roundToDouble low) (count n) in
      let okHigh := Count_eqb (roundToDouble high) (count n) in
      if okLow && okHigh then
        if (n - low <? high - n)%N then low
        else if (high - n <? n - low)%N then high
        else if N.even (n / unit) then low else high
      else if okLow then low
      else if okHigh then high
      else shortestDecimal fuel' (unit / 10)%N n
  end.

Fixpoint dropZeros (reversed : list ascii) : list ascii :=
  match reversed with
  | "0"%char :: rest => dropZeros rest
  | _ => reversed
  end.

(** [d.ddde+x] for a number of more than 21 digits. *)
Definition exponential (digits : string) : string :=
  let significant :=
    string_of_list_ascii (List.rev (dropZeros (List.rev (list_ascii_of_string digits)))) in
  let exponent := decimal (N.of_nat (String.length digits - 1)) in
  match significant with
  | EmptyString => EmptyString
  | String d EmptyString => String d ("e+" ++ exponent)
  | String d rest => String d ("." ++ rest ++ "e+" ++ exponent)
  end.

(** The counter in a template literal.  Below 2^53 every integer is a
    double of its own and the string is its decimal digits. *)
Definition Number_toString (c : Count) : string :=
  match c with
  | Infinity => "Infinity"
  | count n =>
      if (n <? two53)%N then decimal n
      else
        let digits := String.length (decimal n) in
        let shortest :=
          decimal (shortestDecimal digits (10 ^ N.of_nat (digits - 1)) n) in
        if (String.length shortest <=? 21)%nat then shortest else exponential shortest
  end.

(** ** Data model ([types.ts]) *)

Inductive PortSide : Type := left | right | top | bottom.
Inductive PortType : Type := input | output.
Inductive PortShape : Type := circle | square | diamond | triangle.
Inductive NodeType : Type := node_process | node_svg.

Definition PortSide_eqb (a b : PortSide) : bool :=
  match a, b with
  | left, left | right, right | top, top | bottom, bottom => true
  | _, _ => false
  end.

Section DataModel.
Context {num : Type}.

Record Point : Type := mkPoint { x : num; y : num }.
Record NodeSize : Type := mkSize { width : num; height : num }.

(** [SprottyPort]; its [type] is always ['port:flow'].  [side] is read
    with a test for absence by [updateNodeSize], and [originalPosition]
    is the field the rotate operations add. *)
Record SprottyPort : Type := mkPort {
  port_id : string;
  port_position : Point;
  port_size : NodeSize;
  portType : PortType;
  shape : PortShape;
  side : option PortSide;
  label : option string;
  originalPosition : option Point
}.

(** [SprottyNode] and [SvgNode]: ['node:process'] or ['node:svg']. *)
Record SprottyNode : Type := mkNode {
  node_type : NodeType;
  node_id : string;
  node_position : Point;
  node_size : NodeSize;
  node_name : string;
  node_children : list SprottyPort;
  flipHorizontal : option num;        (* [None]: null or absent *)
  flipVertical : option num;
  enableFlipHorizontal : bool;        (* absent reads as false *)
  enableFlipVertical : bool;
  node_rotation : option num;
  svgContent : option string
}.

(** [SprottyEdge]; its [type] is always ['edge:flow']. *)
Record SprottyEdge : Type := mkEdge {
  edge_id : string;
  sourceId : string;
  targetId : string
}.

(** The fields of a [PackageNode] other than its children. *)
Record PackageInfo : Type := mkPackage {
  pkg_id : string;
  pkg_position : Point;
  pkg_size : NodeSize;
  pkg_name : string;
  pkg_rotation : option num
}.

(** An element of a [children] array, told apart by its [type] tag. *)
#[warnings="-register-all"] Inductive SModelElement : Type :=
| Node (n : SprottyNode)                                        (* node:process, node:svg *)
| Package (p : PackageInfo) (children : list SModelElement)     (* node:package *)
| Edge (e : SprottyEdge)                                        (* edge:flow *)
| Port (p : SprottyPort).                                       (* port:flow *)

Record SprottyGraph : Type := mkGraph {
  graph_id : string;
  graph_children : list SModelElement
}.

Definition elementId (e : SModelElement) : string :=
  match e with
  | Node n => node_id n
  | Package p _ => pkg_id p
  | Edge e => edge_id e
  | Port p => port_id p
  end.

(** The fields of [class GraphModel]. *)
Record GraphModel : Type := mkGraphModel {
  model : SprottyGraph;
  edgeCounter : Count
}.

(** What [svg.querySelectorAll('[data-attribute="port"]')] yields for one
    marker, as far as [extractPortInfo] reads it; the four numbers are the
    results of [parseFloat(rect.getAttribute(..) || '0')]. *)
Record PortMarker : Type := mkMarker {
  data_attribute_class : option string;
  data_attribute_id : option string;
  data_attribute_type : option string;
  marker_x : num;
  marker_y : num;
  marker_width : num;
  marker_height : num
}.

Record PortInfo : Type := mkPortInfo {
  portClass : string;
  portId : string;
  portAttributeType : string;
  info_x : num;
  info_y : num;
  info_width : num;
  info_height : num
}.

Record Validation : Type := mkValidation { valid : bool; reason : option string }.
Record AddEdgeResult : Type := mkResult { success : bool; message : string }.

Definition setPortPosition (p : SprottyPort) (pos : Point) : SprottyPort :=
  mkPort (port_id p) pos (port_size p) (portType p) (shape p) (side p) (label p)
         (originalPosition p).

Definition setOriginalPosition (p : SprottyPort) (o : option Point) : SprottyPort :=
  mkPort (port_id p) (port_position p) (port_size p) (portType p) (shape p) (side p)
         (label p) o.

Definition setNodeChildren (n : SprottyNode) (cs : list SprottyPort) : SprottyNode :=
  mkNode (node_type n) (node_id n) (node_position n) (node_size n) (node_name n) cs
         (flipHorizontal n) (flipVertical n) (enableFlipHorizontal n)
         (enableFlipVertical n) (node_rotation n) (svgContent n).

Definition setNodeSize (n : SprottyNode) (s : NodeSize) : SprottyNode :=
  mkNode (node_type n) (node_id n) (node_position n) s (node_name n) (node_children n)
         (flipHorizontal n) (flipVertical n) (enableFlipHorizontal n)
         (enableFlipVertical n) (node_rotation n) (svgContent n).

Definition setNodeRotation (n : SprottyNode) (r : option num) : SprottyNode :=
  mkNode (node_type n) (node_id n) (node_position n) (node_size n) (node_name n)
         (node_children n) (flipHorizontal n) (flipVertical n) (enableFlipHorizontal n)
         (enableFlipVertical n) r (svgContent n).

Definition setPackageSize (p : PackageInfo) (s : NodeSize) : PackageInfo :=
  mkPackage (pkg_id p) (pkg_position p) s (pkg_name p) (pkg_rotation p).
End DataModel.

Arguments Point : clear implicits.
Arguments NodeSize : clear implicits.
Arguments SprottyPort : clear implicits.
Arguments SprottyNode : clear implicits.
Arguments PackageInfo : clear implicits.
Arguments SModelElement : clear implicits.
Arguments SprottyGraph : clear implicits.
Arguments GraphModel : clear implicits.
Arguments PortMarker : clear implicits.
Arguments PortInfo : clear implicits.
Arguments SprottyEdge : clear implicits.

(** ** Geometry engine *)

Section Geometry.
Context {num : Type} {JN : JsNumber num}.
Local Open Scope js_scope.

Definition PORT_SIZE : num := lit 16.
Definition PORT_OFFSET : num := lit 8.
Definition DEFAULT_NODE_SIZE : NodeSize num := mkSize (lit 120) (lit 60).

(** Distribute items evenly along an axis. *)
Definition distributeAlongAxis (index total length : num) : num :=
  if total === lit 1 then (length - PORT_SIZE) / lit 2
  else
    let usableLength := length - PORT_SIZE in
    let spacing := usableLength / (total - lit 1) in
    spacing * index.

(** Port position from side and index. *)
Definition calculatePortPosition (side : PortSide) (index totalOnSide : num)
    (nodeSize : NodeSize num) : Point num :=
  let portOffset := PORT_OFFSET in
  match side with
  | left =>
      mkPoint (- portOffset) (distributeAlongAxis index totalOnSide (height nodeSize))
  | right =>
      mkPoint (width nodeSize - portOffset)
              (distributeAlongAxis index totalOnSide (height nodeSize))
  | top =>
      mkPoint (distributeAlongAxis index totalOnSide (width nodeSize)) (- portOffset)
  | bottom =>
      mkPoint (distributeAlongAxis index totalOnSide (width nodeSize))
              (height nodeSize - portOffset)
  end.

Context {JM : JsMath num}.

(** Rotate a point around a center by an angle in degrees. *)
Definition rotatePoint (x y centerX centerY angleDegrees : num) : Point num :=
  let angleRad := (angleDegrees * Math_PI) / lit 180 in
  let translatedX := x - centerX in
  let translatedY := y - centerY in
  let rotatedX := translatedX * Math_cos angleRad - translatedY * Math_sin angleRad in
  let rotatedY := translatedX * Math_sin angleRad + translatedY * Math_cos angleRad in
  mkPoint (rotatedX + centerX) (rotatedY + centerY).

(** Port position with rotation applied. *)
Definition calculatePortPositionWithRotation
    (x y width height rotation centerX centerY : num) : Point num :=
  if (rotation !== lit 0) && (rotation !== - lit 360) && (rotation !== lit 360) then
    let portCenterX := x + width / lit 2 in
    let portCenterY := y + height / lit 2 in
    let 'mkPoint rotated_x rotated_y :=
      rotatePoint portCenterX portCenterY centerX centerY rotation in
    mkPoint (rotated_x - width / lit 2) (rotated_y - height / lit 2)
  else mkPoint x y.
End Geometry.

(** ** Graph model ([class GraphModel]) *)

(** [s || d] on strings that may be absent. *)
Definition strOrElse (s : option string) (d : string) : string :=
  match s with
  | Some EmptyString | None => d
  | Some v => v
  end.

(** Truthiness of an attribute or field holding a string. *)
Definition strTruthy (s : option string) : bool :=
  match s with
  | Some EmptyString | None => false
  | Some _ => true
  end.

(** [`Edge created: ${s} -> ${t}`]; the arrow is U+2192, here in UTF-8. *)
Definition arrow : string :=
  String (ascii_of_nat 226) (String (ascii_of_nat 134) (String (ascii_of_nat 146) "")).

Section Model.
Context {num : Type} {JN : JsNumber num} {JM : JsMath num}.
Local Open Scope js_scope.

(** [new DOMParser().parseFromString(svgContent, 'image/svg+xml')] followed
    by [doc.querySelector('svg')] and
    [svg.querySelectorAll('[data-attribute="port"]')]: [None] when the
    document has no [svg] element. *)
Variable portElements : string -> option (list (PortMarker num)).

Definition createInitialModel : SprottyGraph num := mkGraph "root" [].

(** The state after the constructor. *)
Definition newGraphModel : GraphModel num := mkGraphModel createInitialModel (count 0).

Definition getModel (this : GraphModel num) : SprottyGraph num := model this.

(** Port information from a marker of the vector payload. *)
Definition extractPortInfo (element : PortMarker num) (nodeId : string) (index : nat)
    : PortInfo num :=
  let portClass := strOrElse (data_attribute_class element) "" in
  let portId :=
    if strTruthy (data_attribute_id element)
    then (nodeId ++ "-" ++ portClass)%string
    else (nodeId ++ "-port-" ++ toString index)%string in
  let portAttributeType := strOrElse (data_attribute_type element) "" in
  mkPortInfo portClass portId portAttributeType
             (marker_x element) (marker_y element)
             (marker_width element) (marker_height element).

(** [children.find(p => p.id === id)] followed by an assignment to the
    position of the port found: the first port with that id, if any. *)
Fixpoint setPositionOfFirst (id : string) (pos : Point num)
    (children : list (SprottyPort num)) : list (SprottyPort num) :=
  match children with
  | [] => []
  | p :: rest =>
      if (port_id p =? id)%string then setPortPosition p pos :: rest
      else p :: setPositionOfFirst id pos rest
  end.

(** One round of the [portElements.forEach] of [updatePortPositionsFromSvg],
    from marker number [index] on. *)
Fixpoint updatePortPositionsFromSvg_loop (nodeId : string) (rotation centerX centerY : num)
    (elements : list (PortMarker num)) (index : nat)
    (children : list (SprottyPort num)) : list (SprottyPort num) :=
  match elements with
  | [] => children
  | element :: rest =>
      let portInfo := extractPortInfo element nodeId index in
      let position :=
        calculatePortPositionWithRotation (info_x portInfo) (info_y portInfo)
          (info_width portInfo) (info_height portInfo) rotation centerX centerY in
      updatePortPositionsFromSvg_loop nodeId rotation centerX centerY rest (S index)
        (setPositionOfFirst (portId portInfo) position children)
  end.

(** Port positions from the markers of the vector payload [content]. *)
Definition updatePortPositionsFromSvg (node : SprottyNode num) (content : string)
    (rotation centerX centerY : num) : SprottyNode num :=
  match portElements content with
  | None => node
  | Some elements =>
      setNodeChildren node
        (updatePortPositionsFromSvg_loop (node_id node) rotation centerX centerY
           elements 0 (node_children node))
  end.

(** Rotate the stored port positions in place. *)
Definition rotateExistingPortPositions (node : SprottyNode num)
    (rotation centerX centerY : num) : SprottyNode num :=
  setNodeChildren node
    (map (fun port =>
            let portCenterX := x (port_position port) + width (port_size port) / lit 2 in
            let portCenterY := y (port_position port) + height (port_size port) / lit 2 in
            let rotated := rotatePoint portCenterX portCenterY centerX centerY rotation in
            setPortPosition port
              (mkPoint (x rotated - width (port_size port) / lit 2)
                       (y rotated - height (port_size port) / lit 2)))
         (node_children node)).

(** The body of the [nodes.forEach] of
    [recalculatePortPositionsForRotatedNodes]. *)
Definition recalculateNode (node : SprottyNode num) : SprottyNode num :=
  match node_rotation node with
  | None => node
  | Some rotation =>
      if negb (truthy rotation) || (rotation === lit 0) || (rotation === - lit 360)
         || (rotation === lit 360)
      then node
      else
        let svgNodeWidth := orElse (width (node_size node)) (lit 0) in
        let svgNodeHeight := orElse (height (node_size node)) (lit 0) in
        let centerX := svgNodeWidth / lit 2 in
        let centerY := svgNodeHeight / lit 2 in
        if strTruthy (svgContent node)
        then updatePortPositionsFromSvg node (strOrElse (svgContent node) "")
               rotation centerX centerY
        else rotateExistingPortPositions node rotation centerX centerY
  end.

(** The top-level process and vector nodes are repaired where they stand. *)
Definition recalculatePortPositionsForRotatedNodes (g : SprottyGraph num)
    : SprottyGraph num :=
  mkGraph (graph_id g)
    (map (fun child =>
            match child with
            | Node node => Node (recalculateNode node)
            | other => other
            end)
         (graph_children g)).

Definition isEdge (child : SModelElement num) : bool :=
  match child with
  | Edge _ => true
  | _ => false
  end.

(** Load model from JSON: replaces the current model. *)
Definition loadFromJson (this : GraphModel num) (jsonModel : SprottyGraph num)
    : GraphModel num :=
  let edges := filter isEdge (graph_children jsonModel) in
  let maxEdgeId :=
    fold_left (fun max edge =>
                 match matchEdge (elementId edge) with
                 | Some group1 => Math_max_Count max (parseInt group1)
                 | None => max
                 end)
              edges (count 0) in
  mkGraphModel (recalculatePortPositionsForRotatedNodes jsonModel) maxEdgeId.

(** *** [updateNodeSize] *)

(** The test of [findNode] on the [type] tag. *)
Definition isNodeElement (child : SModelElement num) : bool :=
  match child with
  | Node _ | Package _ _ => true
  | _ => false
  end.

(** The first [Some] that [f] gives along [l]: the shape of the [for] loop
    of [findNode], which returns from inside the loop. *)
Fixpoint firstSome {A B : Type} (f : A -> option B) (l : list A) : option B :=
  match l with
  | [] => None
  | a :: rest =>
      match f a with
      | Some b => Some b
      | None => firstSome f rest
      end
  end.

(** One round of the loop of [findNode], on [child]. *)
Fixpoint findNodeAt (nodeId : string) (child : SModelElement num)
    : option (SModelElement num) :=
  if isNodeElement child && (elementId child =? nodeId)%string then Some child
  else
    match child with
    | Package _ children => firstSome (findNodeAt nodeId) children
    | _ => None
    end.

(** The helper [findNode] of [updateNodeSize] and [updateNodePosition]. *)
Definition findNode (nodeId : string) (children : list (SModelElement num))
    : option (SModelElement num) :=
  firstSome (findNodeAt nodeId) children.

(** Assignments through the reference [findNode] returned: [upd] is applied
    to the element found, where it stands in the tree.  [None]: not found. *)
Fixpoint updateFirst {A : Type} (f : A -> option A) (l : list A) : option (list A) :=
  match l with
  | [] => None
  | a :: rest =>
      match f a with
      | Some a' => Some (a' :: rest)
      | None => option_map (cons a) (updateFirst f rest)
      end
  end.

Fixpoint updateFoundAt (nodeId : string) (upd : SModelElement num -> SModelElement num)
    (child : SModelElement num) : option (SModelElement num) :=
  if isNodeElement child && (elementId child =? nodeId)%string then Some (upd child)
  else
    match child with
    | Package p children =>
        option_map (Package p) (updateFirst (updateFoundAt nodeId upd) children)
    | _ => None
    end.

Definition updateFound (nodeId : string) (upd : SModelElement num -> SModelElement num)
    (children : list (SModelElement num)) : option (list (SModelElement num)) :=
  updateFirst (updateFoundAt nodeId upd) children.

Section PortsOfChildren.
(** The children of a process or vector node are ports; those of a
    package are elements of which some are ports. *)
Variable A : Type.
Variable asPort : A -> option (SprottyPort num).   (* [child.type === 'port:flow'] *)
Variable ofPort : SprottyPort num -> A.

Definition onSide (s : PortSide) (child : A) : bool :=
  match asPort child with
  | Some port =>
      match side port with
      | Some s' => PortSide_eqb s' s
      | None => false
      end
  | None => false
  end.

(** [portsPerSide[s]] after the first [forEach]: the ports pushed for side
    [s], each named by its index in [children], the first having index [i]. *)
Fixpoint portsPerSide (s : PortSide) (i : nat) (children : list A) : list nat :=
  match children with
  | [] => []
  | child :: rest =>
      if onSide s child then i :: portsPerSide s (S i) rest
      else portsPerSide s (S i) rest
  end.

(** [port.position.x = ..; port.position.y = ..] on the child of index [ref]. *)
Fixpoint assignPosition (ref : nat) (pos : Point num) (children : list A) : list A :=
  match children, ref with
  | [], _ => []
  | child :: rest, O =>
      match asPort child with
      | Some port => ofPort (setPortPosition port pos) :: rest
      | None => child :: rest
      end
  | child :: rest, S ref' => child :: assignPosition ref' pos rest
  end.

(** [ports.forEach((port, index) => ..)] for one side, from [index] on. *)
Fixpoint repositionSide (s : PortSide) (ports : list nat) (index total : nat)
    (size : NodeSize num) (children : list A) : list A :=
  match ports with
  | [] => children
  | port :: rest =>
      let newPosition :=
        calculatePortPosition s (lit (Z.of_nat index)) (lit (Z.of_nat total)) size in
      repositionSide s rest (S index) total size (assignPosition port newPosition children)
  end.

(** The two [forEach] passes of [updateNodeSize] over [node.children];
    [Object.entries] lists the sides in the order they were written. *)
Definition repositionPorts (size : NodeSize num) (children : list A) : list A :=
  fold_left (fun cs s =>
               let ports := portsPerSide s 0 children in
               repositionSide s ports 0 (List.length ports) size cs)
            [left; right; top; bottom] children.
End PortsOfChildren.

Definition elementAsPort (child : SModelElement num) : option (SprottyPort num) :=
  match child with
  | Port p => Some p
  | _ => None
  end.

(** The body of [if (node && node.children)] on the element found. *)
Definition resize (width height : num) (node : SModelElement num) : SModelElement num :=
  match node with
  | Node n =>
      Node (setNodeChildren (setNodeSize n (mkSize width height))
              (repositionPorts Some (fun p => p) (mkSize width height) (node_children n)))
  | Package p children =>
      Package (setPackageSize p (mkSize width height))
              (repositionPorts elementAsPort (@Port num) (mkSize width height) children)
  | other => other
  end.

Definition updateNodeSize (this : GraphModel num) (nodeId : string) (width height : num)
    : GraphModel num :=
  match updateFound nodeId (resize width height) (graph_children (model this)) with
  | Some children' =>
      mkGraphModel (mkGraph (graph_id (model this)) children') (edgeCounter this)
  | None => this
  end.

(** *** [addEdge] *)

(** The [for] loop of [extractNodeId]: the id of the first top-level
    process or vector node that has a port with this id. *)
Fixpoint extractNodeId_loop (children : list (SModelElement num)) (portId : string)
    : option string :=
  match children with
  | [] => None
  | Node node :: rest =>
      if existsb (fun port => (port_id port =? portId)%string) (node_children node)
      then Some (node_id node)
      else extractNodeId_loop rest portId
  | _ :: rest => extractNodeId_loop rest portId
  end.

Definition extractNodeId (this : GraphModel num) (portId : string) : string :=
  match extractNodeId_loop (graph_children (model this)) portId with
  | Some nodeId => nodeId
  | None =>
      (* Fallback: [portId.split('-')[0]] *)
      beforeFirst "-"%char portId
  end.

Definition validateEdge (this : GraphModel num) (sourcePortId targetPortId : string)
    : Validation :=
  let sourceNodeId := extractNodeId this sourcePortId in
  let targetNodeId := extractNodeId this targetPortId in
  if (sourceNodeId =? targetNodeId)%string then
    mkValidation false (Some "Cannot connect a node to itself")
  else
    let exists_ :=
      existsb (fun child =>
                 match child with
                 | Edge e =>
                     (sourceId e =? sourcePortId)%string
                     && (targetId e =? targetPortId)%string
                 | _ => false
                 end)
              (graph_children (model this)) in
    if exists_ then mkValidation false (Some "Edge already exists")
    else mkValidation true None.

(** The new state and the result returned; nothing in it throws. *)
Definition addEdge (this : GraphModel num) (sourcePortId targetPortId : string)
    : GraphModel num * AddEdgeResult :=
  let validation := validateEdge this sourcePortId targetPortId in
  if negb (valid validation) then
    (this, mkResult false (strOrElse (reason validation) "Invalid edge"))
  else
    let edgeCounter' := increment (edgeCounter this) in
    let edgeId := ("edge-" ++ Number_toString edgeCounter')%string in
    let newEdge := mkEdge edgeId sourcePortId targetPortId in
    (mkGraphModel
       (mkGraph (graph_id (model this)) (graph_children (model this) ++ [Edge newEdge]))
       edgeCounter',
     mkResult true
       ("Edge created: " ++ sourcePortId ++ " " ++ arrow ++ " " ++ targetPortId)%string).

(** *** [createNodeWithPorts] *)

Record PortConfig : Type := mkPortConfig {
  cfg_id : option string;
  cfg_type : PortType;
  cfg_side : PortSide;
  cfg_index : option num;
  cfg_shape : option PortShape;
  cfg_label : option string
}.

Definition sideName (s : PortSide) : string :=
  match s with
  | left => "left"
  | right => "right"
  | top => "top"
  | bottom => "bottom"
  end.

Definition portTypeName (t : PortType) : string :=
  match t with
  | input => "input"
  | output => "output"
  end.

(** [sidePorts.forEach((port, index) => ..)] of [createNodeWithPorts], from
    [index] on; [total] is [sidePorts.length]. *)
Fixpoint createSidePorts (id : string) (s : PortSide) (sidePorts : list PortConfig)
    (index total : nat) (size : NodeSize num) : list (SprottyPort num) :=
  match sidePorts with
  | [] => []
  | port :: rest =>
      let position :=
        calculatePortPosition s
          (match cfg_index port with
           | Some i => i
           | None => lit (Z.of_nat index)
           end)
          (lit (Z.of_nat total)) size in
      let portId :=
        if strTruthy (cfg_id port)
        then (id ++ "-" ++ strOrElse (cfg_id port) "")%string
        else (id ++ "-" ++ sideName s ++ "-" ++ portTypeName (cfg_type port) ++ "-"
                ++ toString index)%string in
      mkPort portId position (mkSize PORT_SIZE PORT_SIZE) (cfg_type port)
             (match cfg_shape port with
              | Some sh => sh
              | None => circle
              end)
             (Some s) (cfg_label port) None
      :: createSidePorts id s rest (S index) total size
  end.

(** A process node with its ports placed side by side. *)
Definition createNodeWithPorts (id : string) (x y : num) (name : string)
    (ports : list PortConfig) (size : NodeSize num)
    (flipHorizontal flipVertical rotation : option num) : SprottyNode num :=
  let portsPerSide := fun s => filter (fun port => PortSide_eqb (cfg_side port) s) ports in
  let children :=
    flat_map (fun s =>
                let sidePorts := portsPerSide s in
                createSidePorts id s sidePorts 0 (List.length sidePorts) size)
             [left; right; top; bottom] in
  mkNode node_process id (mkPoint x y) (mkSize (width size) (height size)) name children
         flipHorizontal flipVertical false false
         (Some (match rotation with
                | Some r => r
                | None => lit 0
                end))
         None.

(** *** Rotation from the context menu ([rotateLeftNode], [rotateRightNode]) *)

(** [updateSvgNodePortPositions], the [portElements.forEach] from marker
    number [index] on. *)
Fixpoint updateSvgNodePortPositions_loop (node : SprottyNode num)
    (rotation centerX centerY : num) (elements : list (PortMarker num)) (index : nat)
    (children : list (SprottyPort num)) : list (SprottyPort num) :=
  match elements with
  | [] => children
  | element :: rest =>
      let portInfo := extractPortInfo element (node_id node) index in
      let x0 := info_x portInfo in
      let y0 := info_y portInfo in
      let x1 :=
        if enableFlipHorizontal node
        then width (node_size node) - x0 - info_width portInfo
             + optOrElse (flipHorizontal node) (lit 0)
        else x0 in
      let y1 :=
        if enableFlipVertical node
        then height (node_size node) - y0 - info_height portInfo
             + optOrElse (flipVertical node) (lit 0)
        else y0 in
      let position :=
        calculatePortPositionWithRotation x1 y1 (info_width portInfo)
          (info_height portInfo) rotation centerX centerY in
      updateSvgNodePortPositions_loop node rotation centerX centerY rest (S index)
        (setPositionOfFirst (portId portInfo) position children)
  end.

Definition updateSvgNodePortPositions (node : SprottyNode num) : SprottyNode num :=
  if negb (strTruthy (svgContent node)) then node
  else
    match portElements (strOrElse (svgContent node) "") with
    | None => node
    | Some elements =>
        let centerX := width (node_size node) / lit 2 in
        let centerY := height (node_size node) / lit 2 in
        let rotation := optOrElse (node_rotation node) (lit 0) in
        setNodeChildren node
          (updateSvgNodePortPositions_loop node rotation centerX centerY elements 0
             (node_children node))
    end.

Definition updateProcessNodePortPositions (node : SprottyNode num) : SprottyNode num :=
  let centerX := width (node_size node) / lit 2 in
  let centerY := height (node_size node) / lit 2 in
  let rotation := optOrElse (node_rotation node) (lit 0) in
  setNodeChildren node
    (map (fun port =>
            let original :=
              match originalPosition port with
              | Some o => o
              | None => port_position port
              end in
            let portWidth := orElse (width (port_size port)) (lit 16) in
            let portHeight := orElse (height (port_size port)) (lit 16) in
            let x1 :=
              if enableFlipHorizontal node
              then width (node_size node) - x original - portWidth
                   + optOrElse (flipHorizontal node) (lit 0)
              else x original in
            let y1 :=
              if enableFlipVertical node
              then height (node_size node) - y original - portHeight
                   + optOrElse (flipVertical node) (lit 0)
              else y original in
            setPortPosition (setOriginalPosition port (Some original))
              (calculatePortPositionWithRotation x1 y1 portWidth portHeight rotation
                 centerX centerY))
         (node_children node)).

(** Port positions after a change of rotation or flip. *)
Definition updateNodePortPositions (node : SprottyNode num) : SprottyNode num :=
  match svgContent node with
  | Some _ => updateSvgNodePortPositions node
  | None => updateProcessNodePortPositions node
  end.

(** The rotation [rotateRightNode] stores: +90, and 90 again after 360. *)
Definition rotateRight_newRotation (rotation : option num) : num :=
  let currentRotation := optOrElse rotation (lit 0) in
  if currentRotation === lit 360 then lit 90 else currentRotation + lit 90.

(** The rotation [rotateLeftNode] stores: -90, and -90 again after -360. *)
Definition rotateLeft_newRotation (rotation : option num) : num :=
  let currentRotation := optOrElse rotation (lit 0) in
  if currentRotation === - lit 360 then - lit 90 else currentRotation - lit 90.

(** What a rotate operation does to the model.  [NoSuchChild]: no top-level
    child has the id and the source throws on [undefined].  [NotANode]: the
    child found is a package, an edge or a port, which this embedding of
    the rotate operations does not cover. *)
Inductive RotateOutcome : Type :=
| Rotated (this : GraphModel num)
| NoSuchChild
| NotANode.

(** [children.find(child => child.id === id)] and an assignment through
    the reference found. *)
Fixpoint replaceFirstById (id : string) (new : SModelElement num)
    (children : list (SModelElement num)) : list (SModelElement num) :=
  match children with
  | [] => []
  | child :: rest =>
      if (elementId child =? id)%string then new :: rest
      else child :: replaceFirstById id new rest
  end.

Definition rotateNode (newRotation : option num -> num) (this : GraphModel num)
    (id : string) : RotateOutcome :=
  match find (fun child => (elementId child =? id)%string) (graph_children (model this)) with
  | None => NoSuchChild
  | Some (Node modelNode) =>
      let rotated :=
        updateNodePortPositions
          (setNodeRotation modelNode (Some (newRotation (node_rotation modelNode)))) in
      Rotated
        (mkGraphModel
           (mkGraph (graph_id (model this))
              (replaceFirstById id (Node rotated) (graph_children (model this))))
           (edgeCounter this))
  | Some _ => NotANode
  end.

Definition rotateRightNode : GraphModel num -> string -> RotateOutcome :=
  rotateNode rotateRight_newRotation.

Definition rotateLeftNode : GraphModel num -> string -> RotateOutcome :=
  rotateNode rotateLeft_newRotation.
End Model.

Arguments RotateOutcome : clear implicits.
Arguments PortConfig : clear implicits.

(** ** Notions used in the statements *)

Section Observations.
Context {num : Type} {JN : JsNumber num}.
Local Open Scope js_scope.

(** A rotation that is absent or in the neutral band 0, 360, -360. *)
Definition neutralRotation (rotation : option num) : bool :=
  match rotation with
  | None => true
  | Some r => (r === lit 0) || (r === lit 360) || (r === - lit 360)
  end.

(** No node of the subtree, package or not, carries another rotation. *)
Fixpoint unrotated (child : SModelElement num) : bool :=
  match child with
  | Node n => neutralRotation (node_rotation n)
  | Package p children => neutralRotation (pkg_rotation p) && forallb unrotated children
  | Edge _ | Port _ => true
  end.

(** The edge children of the graph. *)
Definition edgesOf (this : GraphModel num) : list (SModelElement num) :=
  filter isEdge (graph_children (model this)).

(** An edge from [s] to [t] is among the children of the graph. *)
Definition hasEdge (this : GraphModel num) (s t : string) : Prop :=
  exists e, In (Edge e) (graph_children (model this)) /\ sourceId e = s /\ targetId e = t.

(** Owning-node resolution in the words of the specification: the first
    top-level process or vector node with a child port of that id, else
    the text before the first hyphen. *)
Definition ownsPort (portId : string) (child : SModelElement num) : bool :=
  match child with
  | Node n => existsb (fun port => (port_id port =? portId)%string) (node_children n)
  | _ => false
  end.

Definition owningNodeId (this : GraphModel num) (portId : string) : string :=
  match find (ownsPort portId) (graph_children (model this)) with
  | Some owner => elementId owner
  | None => beforeFirst "-"%char portId
  end.

(** An element is present in a list of children, at the top or inside
    package containers. *)
Inductive occursIn (e : SModelElement num) : list (SModelElement num) -> Prop :=
| occurs_here rest : occursIn e (e :: rest)
| occurs_later child rest : occursIn e rest -> occursIn e (child :: rest)
| occurs_inside p children rest :
    occursIn e children -> occursIn e (Package p children :: rest).

(** The invariant of the data model on ids, for nodes and packages. *)
Definition uniqueNodeIds (children : list (SModelElement num)) : Prop :=
  forall e1 e2,
    occursIn e1 children -> occursIn e2 children ->
    isNodeElement e1 = true -> isNodeElement e2 = true ->
    elementId e1 = elementId e2 -> e1 = e2.

(** The rotation stored in the top-level node with this id. *)
Definition storedRotation (this : GraphModel num) (id : string) : option num :=
  match find (fun child => (elementId child =? id)%string) (graph_children (model this)) with
  | Some (Node n) => node_rotation n
  | _ => None
  end.

(** A sequence of [addEdge] calls, the results dropped. *)
Definition addEdges (this : GraphModel num) (calls : list (string * string))
    : GraphModel num :=
  fold_left (fun st call => fst (addEdge st (fst call) (snd call))) calls this.

(** The number that [loadFromJson] finds written in an edge id, if any:
    the integer itself, before [parseInt] makes a double of it. *)
Definition edgeNumber (id : string) : option N := option_map decimalValue (matchEdge id).

(** The largest of a list of numbers, 0 for none. *)
Definition maxNumber (numbers : list N) : N := fold_right N.max 0%N numbers.

(** The numbers written in the ids of the edge children of a tree. *)
Definition edgeNumbers (tree : SprottyGraph num) : list N :=
  flat_map (fun child =>
              match child with
              | Edge e =>
                  match edgeNumber (edge_id e) with
                  | Some n => [n]
                  | None => []
                  end
              | _ => []
              end)
           (graph_children tree).
End Observations.

Section RepeatedRotation.
Context {num : Type} {JN : JsNumber num} {JM : JsMath num}.
Variable portElements : string -> option (list (PortMarker num)).

(** A rotate operation on the same node, [times] times in a row. *)
Fixpoint rotateTimes (rotate : GraphModel num -> string -> RotateOutcome num)
    (times : nat) (this : GraphModel num) (id : string) : RotateOutcome num :=
  match times with
  | O => Rotated this
  | S times' =>
      match rotate this id with
      | Rotated this' => rotateTimes rotate times' this' id
      | other => other
      end
  end.

Definition rotateRightTimes : nat -> GraphModel num -> string -> RotateOutcome num :=
  rotateTimes (rotateRightNode portElements).

Definition rotateLeftTimes : nat -> GraphModel num -> string -> RotateOutcome num :=
  rotateTimes (rotateLeftNode portElements).
End RepeatedRotation.

(** ** Sample data for the scenarios *)

Definition samplePort (id : string) (s : option PortSide) (t : PortType) : SprottyPort Q :=
  mkPort id (mkPoint 0%Q 0%Q) (mkSize 16%Q 16%Q) t circle s None None.

Definition sampleNode (id : string) (ports : list (SprottyPort Q)) (rotation : option Q)
    : SprottyNode Q :=
  mkNode node_process id (mkPoint 100%Q 100%Q) (mkSize 120%Q 60%Q) id ports None None
         false false rotation None.

Definition sampleModel (children : list (SModelElement Q)) (counter : N) : GraphModel Q :=
  mkGraphModel (mkGraph "root" children) (count counter).

(** A port whose width is so large that adding its half to [x] absorbs [x]:
    its centre is computed as 1e20, the centre of rotation. *)
Definition absorbed_x : float := 1%float.
Definition absorbed_width : float := 2e20%float.
Definition absorbed_center : float := 1e20%float.

(** No marker is found in any payload. *)
Definition noPortElements : string -> option (list (PortMarker Q)) := fun _ => None.

(** A stand-in for [Math] in scenarios without a rotated node, where it is
    never consulted. *)
Definition sampleMath : JsMath Q :=
  {| Math_PI := (355 # 113)%Q; Math_cos := fun _ => 1%Q; Math_sin := fun _ => 0%Q |}.

Definition sampleTree : SprottyGraph Q :=
  mkGraph "root"
    [Node (sampleNode "a" [samplePort "a-out" (Some right) output] (Some 360%Q));
     Edge (mkEdge "edge-3" "x-out" "y-in");
     Package (mkPackage "pkg" (mkPoint 0%Q 0%Q) (mkSize 400%Q 300%Q) "pkg" None)
       [Node (sampleNode "c" [samplePort "c-in" (Some left) input] None)];
     Node (sampleNode "b" [samplePort "b-in" (Some left) input] None);
     Edge (mkEdge "edge-7" "x-out" "z-in");
     Edge (mkEdge "edge-demo-1" "y-out" "z-in")].

(** ** Induction over a tree of elements *)

Section TreeInduction.
Context {num : Type}.
Variable P : SModelElement num -> Prop.
Hypothesis P_Node : forall n, P (Node n).
Hypothesis P_Package : forall p children, Forall P children -> P (Package p children).
Hypothesis P_Edge : forall e, P (Edge e).
Hypothesis P_Port : forall p, P (Port p).

Fixpoint SModelElement_tree_ind (child : SModelElement num) : P child :=
  match child with
  | Node n => P_Node n
  | Package p children =>
      P_Package p
        ((fix all (l : list (SModelElement num)) : Forall P l :=
            match l with
            | [] => Forall_nil P
            | c :: rest => Forall_cons c (SModelElement_tree_ind c) (all rest)
            end) children)
  | Edge e => P_Edge e
  | Port p => P_Port p
  end.
End TreeInduction.

(** ** Further operations of [GraphModel] *)

Section DataModelSetters.
Context {num : Type}.

Definition setNodePosition (n : SprottyNode num) (pos : Point num) : SprottyNode num :=
  mkNode (node_type n) (node_id n) pos (node_size n) (node_name n) (node_children n)
         (flipHorizontal n) (flipVertical n) (enableFlipHorizontal n)
         (enableFlipVertical n) (node_rotation n) (svgContent n).

Definition setNodeId (n : SprottyNode num) (id : string) : SprottyNode num :=
  mkNode (node_type n) id (node_position n) (node_size n) (node_name n) (node_children n)
         (flipHorizontal n) (flipVertical n) (enableFlipHorizontal n)
         (enableFlipVertical n) (node_rotation n) (svgContent n).

Definition setEnableFlipHorizontal (n : SprottyNode num) (b : bool) : SprottyNode num :=
  mkNode (node_type n) (node_id n) (node_position n) (node_size n) (node_name n)
         (node_children n) (flipHorizontal n) (flipVertical n) b
         (enableFlipVertical n) (node_rotation n) (svgContent n).

Definition setEnableFlipVertical (n : SprottyNode num) (b : bool) : SprottyNode num :=
  mkNode (node_type n) (node_id n) (node_position n) (node_size n) (node_name n)
         (node_children n) (flipHorizontal n) (flipVertical n) (enableFlipHorizontal n)
         b (node_rotation n) (svgContent n).

Definition setPackagePosition (p : PackageInfo num) (pos : Point num) : PackageInfo num :=
  mkPackage (pkg_id p) pos (pkg_size p) (pkg_name p) (pkg_rotation p).

Definition setPackageId (p : PackageInfo num) (id : string) : PackageInfo num :=
  mkPackage id (pkg_position p) (pkg_size p) (pkg_name p) (pkg_rotation p).

Definition setPortId (p : SprottyPort num) (id : string) : SprottyPort num :=
  mkPort id (port_position p) (port_size p) (portType p) (shape p) (side p) (label p)
         (originalPosition p).
End DataModelSetters.

Inductive LegacyPort : Type := legacy_in | legacy_out.

Definition LegacyPort_eqb (a b : LegacyPort) : bool :=
  match a, b with
  | legacy_in, legacy_in | legacy_out, legacy_out => true
  | _, _ => false
  end.

Section FurtherModel.
Context {num : Type} {JN : JsNumber num} {JM : JsMath num}.
Variable portElements : string -> option (list (PortMarker num)).
Local Open Scope js_scope.

(** Legacy creation with simple in/out ports; [size], the flips and
    [rotation] are optional. *)
Definition createNode (id : string) (x y : num) (name : string) (ports : list LegacyPort)
    (size : option (NodeSize num)) (flipHorizontal flipVertical rotation : option num)
    : SprottyNode num :=
  let portConfigs :=
    (if existsb (LegacyPort_eqb legacy_in) ports
     then [mkPortConfig (Some "in") input left None None None]
     else [])
    ++ (if existsb (LegacyPort_eqb legacy_out) ports
        then [mkPortConfig (Some "out") output right None None None]
        else []) in
  createNodeWithPorts id x y name portConfigs
    (match size with
     | Some s => s
     | None => DEFAULT_NODE_SIZE
     end)
    flipHorizontal flipVertical
    (Some (match rotation with
           | Some r => r
           | None => lit 0
           end)).

(** A package node around child nodes, which keep their own positions. *)
Definition createPackageNode (id : string) (x y : num) (name : string)
    (size : option (NodeSize num)) (children : list (SprottyNode num))
    (rotation : option num) : SModelElement num :=
  let relativeChildren :=
    map (fun child =>
           let 'mkPoint child_x child_y := node_position child in
           setNodePosition child (mkPoint child_x child_y))
        children in
  Package
    (mkPackage id (mkPoint x y)
       (match size with
        | Some s => s
        | None => mkSize (lit 400) (lit 300)
        end)
       name
       (Some (match rotation with
              | Some r => r
              | None => lit 0
              end)))
    (map (@Node num) relativeChildren).

(** [this.model.children.push(child)]. *)
Definition pushChild (this : GraphModel num) (child : SModelElement num) : GraphModel num :=
  mkGraphModel
    (mkGraph (graph_id (model this)) (graph_children (model this) ++ [child]))
    (edgeCounter this).

(** Create a node with ports and add it to the model; the node is returned. *)
Definition addNodeWithPorts (this : GraphModel num) (id : string) (x y : num)
    (name : string) (ports : list (PortConfig num)) (size : NodeSize num)
    (flipHorizontal flipVertical rotation : option num)
    : GraphModel num * SprottyNode num :=
  let newNode :=
    createNodeWithPorts id x y name ports size flipHorizontal flipVertical rotation in
  (pushChild this (Node newNode), newNode).

(** [lastNode.position] in [addPackageNode]; only nodes and packages pass
    the filter before it. *)
Definition elementPosition (child : SModelElement num) : Point num :=
  match child with
  | Node n => node_position n
  | Package p _ => pkg_position p
  | Edge _ | Port _ => mkPoint (lit 0) (lit 0)
  end.

(** Add a package node with two sample child nodes; [timestamp] is
    [Date.now()]. *)
Definition addPackageNode (this : GraphModel num) (timestamp : nat) : GraphModel num :=
  let packageId := ("package-" ++ toString timestamp)%string in
  let existingNodes := filter isNodeElement (graph_children (model this)) in
  let position :=
    match List.rev existingNodes with
    | lastNode :: _ =>
        mkPoint (x (elementPosition lastNode) + lit 250) (y (elementPosition lastNode))
    | [] => mkPoint (lit 100) (lit 100)
    end in
  let newPackage :=
    createPackageNode packageId (x position) (y position) "New Package"
      (Some (mkSize (lit 400) (lit 200)))
      [createNodeWithPorts "child-node1" (lit 50) (lit 50) "Process A"
         [mkPortConfig (Some "in") input left None (Some circle) None;
          mkPortConfig (Some "out") output right None (Some circle) None]
         (mkSize (lit 120) (lit 60)) None None None;
       createNodeWithPorts "child-node2" (lit 250) (lit 50) "Process B"
         [mkPortConfig (Some "in") input left None (Some circle) None;
          mkPortConfig (Some "out") output right None (Some circle) None]
         (mkSize (lit 120) (lit 60)) None None None]
      None in
  pushChild this newPackage.

(** The assignment of [updateNodePosition] to the element found. *)
Definition moveTo (x y : num) (node : SModelElement num) : SModelElement num :=
  match node with
  | Node n => Node (setNodePosition n (mkPoint x y))
  | Package p children => Package (setPackagePosition p (mkPoint x y)) children
  | other => other
  end.

Definition updateNodePosition (this : GraphModel num) (nodeId : string) (x y : num)
    : GraphModel num :=
  match updateFound nodeId (moveTo x y) (graph_children (model this)) with
  | Some children' =>
      mkGraphModel (mkGraph (graph_id (model this)) children') (edgeCounter this)
  | None => this
  end.

(** The ports of a vector payload: one per marker, from marker number
    [index] on. *)
Fixpoint parsePortsFromSvg_loop (id : string) (rotation centerX centerY : num)
    (elements : list (PortMarker num)) (index : nat) : list (SprottyPort num) :=
  match elements with
  | [] => []
  | element :: rest =>
      let portInfo := extractPortInfo element id index in
      let position :=
        calculatePortPositionWithRotation (info_x portInfo) (info_y portInfo)
          (info_width portInfo) (info_height portInfo) rotation centerX centerY in
      let isIn := (portAttributeType portInfo =? "in")%string in
      mkPort (portId portInfo) position
             (mkSize (info_width portInfo) (info_height portInfo))
             (if isIn then input else output) square
             (Some (if isIn then left else right))
             (Some (portClass portInfo)) None
      :: parsePortsFromSvg_loop id rotation centerX centerY rest (S index)
  end.

Definition parsePortsFromSvg (svgContent : string) (id : string)
    (rotation : option num) (centerX centerY : num) : list (SprottyPort num) :=
  if negb (strTruthy (Some svgContent)) then []
  else
    match portElements svgContent with
    | None => []
    | Some elements =>
        parsePortsFromSvg_loop id
          (match rotation with
           | Some r => r
           | None => lit 0
           end)
          centerX centerY elements 0
    end.
End FurtherModel.

(** ** The serialized form

    The editor exports [JSON.stringify(model)] and imports [JSON.parse] of
    such a text.  What [JSON.parse(JSON.stringify(v))] gives for a value [v]
    of the data model is [v] again with every number replaced by what is
    read back for it: strings, booleans, absent fields and the shape of the
    tree are kept.  Where a number that the data model requires is read back
    as [null], the value is no value of the data model: [None]. *)

Section Serialized.
Context {num : Type} {JJ : JsJson num}.

Definition JSON_copy_point (p : Point num) : option (Point num) :=
  match JSON_number (x p), JSON_number (y p) with
  | Some x', Some y' => Some (mkPoint x' y')
  | _, _ => None
  end.

Definition JSON_copy_size (s : NodeSize num) : option (NodeSize num) :=
  match JSON_number (width s), JSON_number (height s) with
  | Some width', Some height' => Some (mkSize width' height')
  | _, _ => None
  end.

(** A field that may be absent or [null]: a number written as [null] is
    read back as [null]. *)
Definition JSON_copy_optional (field : option num) : option num :=
  match field with
  | Some v => JSON_number v
  | None => None
  end.

Definition JSON_copy_port (p : SprottyPort num) : option (SprottyPort num) :=
  match JSON_copy_point (port_position p), JSON_copy_size (port_size p),
        match originalPosition p with
        | Some o => option_map (@Some (Point num)) (JSON_copy_point o)
        | None => Some None
        end with
  | Some position', Some size', Some original' =>
      Some (mkPort (port_id p) position' size' (portType p) (shape p) (side p) (label p)
              original')
  | _, _, _ => None
  end.

(** The copies of the items of an array, when each has one. *)
Fixpoint JSON_copy_array {A : Type} (copy : A -> option A) (items : list A)
    : option (list A) :=
  match items with
  | [] => Some []
  | item :: rest =>
      match copy item, JSON_copy_array copy rest with
      | Some item', Some rest' => Some (item' :: rest')
      | _, _ => None
      end
  end.

Definition JSON_copy_node (n : SprottyNode num) : option (SprottyNode num) :=
  match JSON_copy_point (node_position n), JSON_copy_size (node_size n),
        JSON_copy_array JSON_copy_port (node_children n) with
  | Some position', Some size', Some children' =>
      Some (mkNode (node_type n) (node_id n) position' size' (node_name n) children'
              (JSON_copy_optional (flipHorizontal n)) (JSON_copy_optional (flipVertical n))
              (enableFlipHorizontal n) (enableFlipVertical n)
              (JSON_copy_optional (node_rotation n)) (svgContent n))
  | _, _, _ => None
  end.

Definition JSON_copy_package (p : PackageInfo num) : option (PackageInfo num) :=
  match JSON_copy_point (pkg_position p), JSON_copy_size (pkg_size p) with
  | Some position', Some size' =>
      Some (mkPackage (pkg_id p) position' size' (pkg_name p)
              (JSON_copy_optional (pkg_rotation p)))
  | _, _ => None
  end.

Fixpoint JSON_copy_element (child : SModelElement num) : option (SModelElement num) :=
  match child with
  | Node n => option_map (@Node num) (JSON_copy_node n)
  | Package p children =>
      match JSON_copy_package p,
            (fix copies (items : list (SModelElement num)) :=
               match items with
               | [] => Some []
               | item :: rest =>
                   match JSON_copy_element item, copies rest with
                   | Some item', Some rest' => Some (item' :: rest')
                   | _, _ => None
                   end
               end) children with
      | Some p', Some children' => Some (Package p' children')
      | _, _ => None
      end
  | Edge e => Some (Edge e)
  | Port p => option_map (@Port num) (JSON_copy_port p)
  end.

(** [JSON.parse(JSON.stringify(tree))]. *)
Definition JSON_copy_graph (tree : SprottyGraph num) : option (SprottyGraph num) :=
  option_map (mkGraph (graph_id tree))
    (JSON_copy_array JSON_copy_element (graph_children tree)).

(** The numbers a value of the data model holds. *)
Definition pointNumbers (p : Point num) : list num := [x p; y p].
Definition sizeNumbers (s : NodeSize num) : list num := [width s; height s].

Definition optionalNumbers (field : option num) : list num :=
  match field with
  | Some v => [v]
  | None => []
  end.

Definition portNumbers (p : SprottyPort num) : list num :=
  pointNumbers (port_position p) ++ sizeNumbers (port_size p)
  ++ match originalPosition p with
     | Some o => pointNumbers o
     | None => []
     end.

Definition nodeNumbers (n : SprottyNode num) : list num :=
  pointNumbers (node_position n) ++ sizeNumbers (node_size n)
  ++ flat_map portNumbers (node_children n)
  ++ optionalNumbers (flipHorizontal n) ++ optionalNumbers (flipVertical n)
  ++ optionalNumbers (node_rotation n).

Fixpoint elementNumbers (child : SModelElement num) : list num :=
  match child with
  | Node n => nodeNumbers n
  | Package p children =>
      pointNumbers (pkg_position p) ++ sizeNumbers (pkg_size p)
      ++ optionalNumbers (pkg_rotation p) ++ flat_map elementNumbers children
  | Edge _ => []
  | Port p => portNumbers p
  end.

Definition graphNumbers (tree : SprottyGraph num) : list num :=
  flat_map elementNumbers (graph_children tree).

(** The number is written and read back as it is: finite, and not -0. *)
Definition writtenAsItIs (v : num) : Prop := JSON_number v = Some v.
End Serialized.

(** ** Operations of the context menu ([CustomMouseListener]) *)

Section ContextMenu.
Context {num : Type} {JN : JsNumber num} {JM : JsMath num} {JJ : JsJson num}.
Variable portElements : string -> option (list (PortMarker num)).
Local Open Scope js_scope.

(** How a handler ends.  [NotCovered]: the element found is of a kind whose
    treatment by the source this embedding does not represent. *)
Inductive Outcome : Type :=
| Returns (this : GraphModel num)
| Throws
| NotCovered.

(** Removes the top-level process nodes, vector nodes and edges with this
    id; packages are kept whatever their id. *)
Definition deleteItem (this : GraphModel num) (id : string) : GraphModel num :=
  let newChildren :=
    filter (fun child =>
              match child with
              | Node _ | Edge _ => negb (elementId child =? id)%string
              | _ => true
              end)
           (graph_children (model this)) in
  mkGraphModel (mkGraph (graph_id (model this)) newChildren) (edgeCounter this).

(** The [children.forEach((child, index) => ..)] of [duplicateItem] on the
    ports of a node, from [index] on: every port has a [portType]. *)
Fixpoint renamePorts (newId : string) (index : nat) (children : list (SprottyPort num))
    : list (SprottyPort num) :=
  match children with
  | [] => []
  | child :: rest =>
      let type :=
        match portType child with
        | input => "in"
        | output => "out"
        end in
      setPortId child (newId ++ "-" ++ type ++ toString (index + 1))%string
      :: renamePorts newId (S index) rest
  end.

(** The same on the children of a package, of which only the ports have a
    [portType]. *)
Fixpoint renamePortElements (newId : string) (index : nat)
    (children : list (SModelElement num)) : list (SModelElement num) :=
  match children with
  | [] => []
  | Port child :: rest =>
      let type :=
        match portType child with
        | input => "in"
        | output => "out"
        end in
      Port (setPortId child (newId ++ "-" ++ type ++ toString (index + 1))%string)
      :: renamePortElements newId (S index) rest
  | other :: rest => other :: renamePortElements newId (S index) rest
  end.

(** A copy of the first top-level child with this id, made by
    [JSON.parse(JSON.stringify(originalNode))], 20 to the right and 20 down,
    under the id [node-<timestamp>].  An edge or a port has no [children]
    to go through, and the source throws on it.  When the copy holds [null]
    for a number of the original ([NaN] or an infinity), the source goes on
    with it: that is [NotCovered]. *)
Definition duplicateItem (this : GraphModel num) (id : string) (timestamp : nat)
    : Outcome :=
  match find (fun child => (elementId child =? id)%string) (graph_children (model this)) with
  | None => Returns this
  | Some originalNode =>
      let newId := ("node-" ++ toString timestamp)%string in
      match originalNode with
      | Edge _ | Port _ => Throws
      | _ =>
          match JSON_copy_element originalNode with
          | Some (Node duplicatedNode) =>
              let moved :=
                setNodePosition (setNodeId duplicatedNode newId)
                  (mkPoint (x (node_position duplicatedNode) + lit 20)
                           (y (node_position duplicatedNode) + lit 20)) in
              Returns
                (pushChild this
                   (Node (setNodeChildren moved
                            (renamePorts newId 0 (node_children duplicatedNode)))))
          | Some (Package duplicatedNode children) =>
              let moved :=
                setPackagePosition (setPackageId duplicatedNode newId)
                  (mkPoint (x (pkg_position duplicatedNode) + lit 20)
                           (y (pkg_position duplicatedNode) + lit 20)) in
              Returns
                (pushChild this (Package moved (renamePortElements newId 0 children)))
          | _ => NotCovered
          end
      end
  end.

(** Toggle of a flip flag followed by [updateNodePortPositions], on the
    first top-level child with this id.  A vector node without flip offset
    is [NotCovered] (the source tells [null] from an absent field there),
    and so is a package, whose children the source repositions as if they
    were ports. *)
Definition flipNode (toggle : SprottyNode num -> SprottyNode num)
    (offset : SprottyNode num -> option num) (missing : GraphModel num -> Outcome)
    (this : GraphModel num) (id : string) : Outcome :=
  match find (fun child => (elementId child =? id)%string) (graph_children (model this)) with
  | None => missing this
  | Some (Node modelNode) =>
      match node_type modelNode, offset modelNode with
      | node_svg, None => NotCovered
      | _, _ =>
          Returns
            (mkGraphModel
               (mkGraph (graph_id (model this))
                  (replaceFirstById id
                     (Node (updateNodePortPositions portElements (toggle modelNode)))
                     (graph_children (model this))))
               (edgeCounter this))
      end
  | Some (Package _ _) => NotCovered
  | Some (Edge _) | Some (Port _) => Returns this
  end.

(** [flipHorizontalNode]: on a missing child the source reads a field of
    [undefined] and throws. *)
Definition flipHorizontalNode : GraphModel num -> string -> Outcome :=
  flipNode (fun n => setEnableFlipHorizontal n (negb (enableFlipHorizontal n)))
           (@flipHorizontal num) (fun _ => Throws).

(** [flipVerticalNode]: a missing child is reported and the handler returns. *)
Definition flipVerticalNode : GraphModel num -> string -> Outcome :=
  flipNode (fun n => setEnableFlipVertical n (negb (enableFlipVertical n)))
           (@flipVertical num) (fun this => Returns this).
End ContextMenu.

Arguments Outcome : clear implicits.

(** ** [ResizeCommand], on the rendered model

    The command works on the elements the rendering library builds from the
    tree.  Such an element carries the fields of the tree element, and its
    [bounds] are its position and size taken together: reading [bounds]
    gives [{x, y, width, height}] and assigning to it sets both. *)

Section ResizeCommand.
Context {num : Type} {JN : JsNumber num}.
Local Open Scope js_scope.

Record Bounds : Type := mkBounds {
  bounds_x : num;
  bounds_y : num;
  bounds_width : num;
  bounds_height : num
}.

Record ResizeCommand : Type := mkResizeCommand {
  rc_nodeId : string;
  rc_newBounds : Bounds;
  rc_oldBounds : option Bounds
}.

Definition nodeBounds (node : SprottyNode num) : Bounds :=
  mkBounds (x (node_position node)) (y (node_position node))
           (width (node_size node)) (height (node_size node)).

Definition setNodeBounds (node : SprottyNode num) (b : Bounds) : SprottyNode num :=
  setNodeSize (setNodePosition node (mkPoint (bounds_x b) (bounds_y b)))
    (mkSize (bounds_width b) (bounds_height b)).

(** [ResizeCommand.distributeAlongAxis], the command's own copy. *)
Definition ResizeCommand_distributeAlongAxis (index total length : num) : num :=
  let PORT_SIZE := lit 16 in
  if total === lit 1 then (length - PORT_SIZE) / lit 2
  else
    let usableLength := length - PORT_SIZE in
    let spacing := usableLength / (total - lit 1) in
    spacing * index.

(** [child.side || 'left']. *)
Definition sideOrLeft (child : SprottyPort num) : PortSide :=
  match side child with
  | Some s => s
  | None => left
  end.

(** The ports pushed for side [s] by [updatePortPositions], by index. *)
Fixpoint ResizeCommand_portsPerSide (s : PortSide) (i : nat)
    (children : list (SprottyPort num)) : list nat :=
  match children with
  | [] => []
  | child :: rest =>
      if PortSide_eqb (sideOrLeft child) s then i :: ResizeCommand_portsPerSide s (S i) rest
      else ResizeCommand_portsPerSide s (S i) rest
  end.

(** [port.bounds = {x, y, width: port.bounds.width, height: port.bounds.height}]
    on the child of index [ref]. *)
Fixpoint assignBounds (ref : nat) (pos : Point num) (children : list (SprottyPort num))
    : list (SprottyPort num) :=
  match children, ref with
  | [], _ => []
  | child :: rest, O => setPortPosition child pos :: rest
  | child :: rest, S ref' => child :: assignBounds ref' pos rest
  end.

(** [ports.forEach((port, index) => ..)] of [updatePortPositions] for one
    side, from [index] on. *)
Fixpoint ResizeCommand_side (s : PortSide) (ports : list nat) (index totalOnSide : nat)
    (width height : num) (children : list (SprottyPort num)) : list (SprottyPort num) :=
  match ports with
  | [] => children
  | port :: rest =>
      let PORT_OFFSET := lit 8 in
      let index' := lit (Z.of_nat index) in
      let total := lit (Z.of_nat totalOnSide) in
      let pos :=
        match s with
        | left =>
            mkPoint (- PORT_OFFSET) (ResizeCommand_distributeAlongAxis index' total height)
        | right =>
            mkPoint (width - PORT_OFFSET)
                    (ResizeCommand_distributeAlongAxis index' total height)
        | top =>
            mkPoint (ResizeCommand_distributeAlongAxis index' total width) (- PORT_OFFSET)
        | bottom =>
            mkPoint (ResizeCommand_distributeAlongAxis index' total width)
                    (height - PORT_OFFSET)
        end in
      ResizeCommand_side s rest (S index) totalOnSide width height
        (assignBounds port pos children)
  end.

Definition ResizeCommand_updatePortPositions (width height : num)
    (children : list (SprottyPort num)) : list (SprottyPort num) :=
  fold_left (fun cs s =>
               let ports := ResizeCommand_portsPerSide s 0 children in
               ResizeCommand_side s ports 0 (List.length ports) width height cs)
            [left; right; top; bottom] children.

(** [execute] on the element [context.root.index.getById(nodeId)] gives,
    if any. *)
Definition ResizeCommand_execute (this : ResizeCommand) (node : option (SprottyNode num))
    : ResizeCommand * option (SprottyNode num) :=
  match node with
  | Some node =>
      let resized := setNodeBounds node (rc_newBounds this) in
      (mkResizeCommand (rc_nodeId this) (rc_newBounds this) (Some (nodeBounds node)),
       Some (setNodeChildren resized
               (ResizeCommand_updatePortPositions (bounds_width (rc_newBounds this))
                  (bounds_height (rc_newBounds this)) (node_children node))))
  | None => (this, None)
  end.

Definition ResizeCommand_undo (this : ResizeCommand) (node : option (SprottyNode num))
    : ResizeCommand * option (SprottyNode num) :=
  match node, rc_oldBounds this with
  | Some node, Some oldBounds =>
      let restored := setNodeBounds node oldBounds in
      (this,
       Some (setNodeChildren restored
               (ResizeCommand_updatePortPositions (bounds_width oldBounds)
                  (bounds_height oldBounds) (node_children node))))
  | _, _ => (this, node)
  end.

Definition ResizeCommand_redo : ResizeCommand -> option (SprottyNode num)
    -> ResizeCommand * option (SprottyNode num) :=
  ResizeCommand_execute.
End ResizeCommand.

Arguments Bounds : clear implicits.
Arguments ResizeCommand : clear implicits.

(** ** Interactive edge creation ([EdgeCreator])

    What a handler asks of the document comes with the event: the port
    information [findPortInfo] finds for the element under the pointer, the
    positions [getPortPosition] and [getSvgMousePosition] compute, and
    whether the drawing layer exists. *)

Section EdgeCreator.
Context {num : Type} {JN : JsNumber num}.
Local Open Scope js_scope.

(** The [id] and [type] of a [PortInfo] of [types.ts]. *)
Record DomPortInfo : Type := mkDomPortInfo {
  info_id : string;
  info_type : PortType
}.

Record EdgeCreationState : Type := mkEdgeCreationState {
  isCreating : bool;
  sourcePortId : option string;
  sourcePosition : option (Point num)
}.

(** A command of the [d] attribute of the feedback path. *)
Inductive PathCommand : Type :=
| MoveTo (p : Point num)      (* [M x y] *)
| LineTo (p : Point num).     (* [L x y] *)

Record EdgeCreator : Type := mkEdgeCreator {
  graphModel : GraphModel num;
  state : EdgeCreationState;
  feedbackLine : option (list PathCommand)
}.

(** The callback the creator is given for successful edges. *)
Variable onModelUpdate : GraphModel num -> GraphModel num.

(** The creator after its constructor. *)
Definition newEdgeCreator (graphModel : GraphModel num) : EdgeCreator :=
  mkEdgeCreator graphModel (mkEdgeCreationState false None None) None.

Definition cleanup (this : EdgeCreator) : EdgeCreator :=
  mkEdgeCreator (graphModel this) (mkEdgeCreationState false None None) None.

(** [portInfo]: [findPortInfo(e.target)]; [portPosition]:
    [getPortPosition(portInfo.element)]; [layer]: whether
    [querySelector('svg > g')] finds the drawing layer. *)
Definition handleMouseDown (this : EdgeCreator) (portInfo : option DomPortInfo)
    (portPosition : Point num) (layer : bool) : EdgeCreator :=
  match portInfo with
  | Some portInfo =>
      match info_type portInfo with
      | output =>
          mkEdgeCreator (graphModel this)
            (mkEdgeCreationState true (Some (info_id portInfo)) (Some portPosition))
            (if layer then Some [MoveTo portPosition; LineTo portPosition]
             else feedbackLine this)
      | input => this
      end
  | None => this
  end.

(** [svg]: whether [querySelector('svg')] finds the drawing;
    [mousePos]: [getSvgMousePosition(e, svg)]. *)
Definition handleMouseMove (this : EdgeCreator) (svg : bool) (mousePos : Point num)
    : EdgeCreator :=
  match isCreating (state this), feedbackLine this, sourcePosition (state this) with
  | true, Some _, Some source =>
      if svg then
        let sx := x source in
        let sy := y source in
        let midX := sx + (x mousePos - sx) / lit 2 in
        mkEdgeCreator (graphModel this) (state this)
          (Some [MoveTo (mkPoint sx sy); LineTo (mkPoint midX sy);
                 LineTo (mkPoint midX (y mousePos));
                 LineTo (mkPoint (x mousePos) (y mousePos))])
      else this
  | _, _, _ => this
  end.

(** [target]: [None] when [document.elementFromPoint] finds no element,
    else what [findPortInfo] finds for it. *)
Definition handleMouseUp (this : EdgeCreator) (target : option (option DomPortInfo))
    : EdgeCreator :=
  if negb (isCreating (state this)) then this
  else
    let graphModel' :=
      match target with
      | Some (Some targetPortInfo) =>
          match info_type targetPortInfo, strTruthy (sourcePortId (state this)) with
          | input, true =>
              let (graphModel', result) :=
                addEdge (graphModel this) (strOrElse (sourcePortId (state this)) "")
                  (info_id targetPortInfo) in
              if success result then onModelUpdate graphModel' else graphModel'
          | _, _ => graphModel this
          end
      | _ => graphModel this
      end in
    cleanup (mkEdgeCreator graphModel' (state this) (feedbackLine this)).

Definition handleKeyDown (this : EdgeCreator) (key : string) : EdgeCreator :=
  if (key =? "Escape")%string && isCreating (state this) then cleanup this else this.

Inductive MouseEvent : Type :=
| MouseDown (portInfo : option DomPortInfo) (portPosition : Point num) (layer : bool)
| MouseMove (svg : bool) (mousePos : Point num)
| MouseUp (target : option (option DomPortInfo))
| KeyDown (key : string).

Definition handle (this : EdgeCreator) (e : MouseEvent) : EdgeCreator :=
  match e with
  | MouseDown portInfo portPosition layer => handleMouseDown this portInfo portPosition layer
  | MouseMove svg mousePos => handleMouseMove this svg mousePos
  | MouseUp target => handleMouseUp this target
  | KeyDown key => handleKeyDown this key
  end.

(** The listeners of [setup] over a sequence of events. *)
Definition handleAll (this : EdgeCreator) (events : list MouseEvent) : EdgeCreator :=
  fold_left handle events this.
End EdgeCreator.

Arguments DomPortInfo : clear implicits.
Arguments EdgeCreationState : clear implicits.
Arguments PathCommand : clear implicits.
Arguments EdgeCreator : clear implicits.
Arguments MouseEvent : clear implicits.

(** ** The resize handle ([ProcessNodeView.startResize])

    The mouse-move listener of a resize drag, on exact numbers.  What it
    dispatches is a resize action, from which the command above is
    constructed with the action's node id and new bounds. *)

Section ResizeHandle.
Local Open Scope Q_scope.

(** [this.resizing]. *)
Record Resizing : Type := mkResizing {
  resizing_nodeId : string;
  startX : Q;
  startY : Q;
  startWidth : Q;
  startHeight : Q;
  startBoundsX : Q;
  startBoundsY : Q
}.

(** [Math.max] of two numbers. *)
Definition Math_max (a b : Q) : Q := if Qle_bool a b then b else a.

(** [handleMouseMove] of [startResize] for a pointer at
    ([clientX], [clientY]): the command of the action dispatched, if any. *)
Definition startResize_handleMouseMove (resizing : option Resizing) (clientX clientY : Q)
    : option (ResizeCommand Q) :=
  match resizing with
  | None => None
  | Some resizing =>
      let deltaX := clientX - startX resizing in
      let deltaY := clientY - startY resizing in
      let newWidth := Math_max 50 (startWidth resizing + deltaX) in
      let newHeight := Math_max 30 (startHeight resizing + deltaY) in
      Some (mkResizeCommand (resizing_nodeId resizing)
              (mkBounds (startBoundsX resizing) (startBoundsY resizing) newWidth newHeight)
              None)
  end.
End ResizeHandle.

(** ** Alignment of the selected nodes ([SprottyApp.setupAlignNode])

    The four click handlers, on exact numbers.  [selectedNodeIds] is what
    [getSelectedNodes] collects from the selected node elements of the
    document.  The selected nodes are children of the graph, which the
    handlers read again after each [updateNodePosition]: a selected node is
    named here by its index among the children, which no update changes.
    The model source is taken to be set; without it a handler returns at
    once. *)

Section Alignment.
Local Open Scope Q_scope.

(** [selectedNodeIds.includes(child.id)]. *)
Definition isSelected (selectedNodeIds : list string) (child : SModelElement Q) : bool :=
  existsb (fun id => (id =? elementId child)%string) selectedNodeIds.

(** [getSelectedNodes]: the children of the graph with a selected id, each
    by its index; the first child has index [i]. *)
Fixpoint getSelectedNodes (selectedNodeIds : list string) (i : nat)
    (children : list (SModelElement Q)) : list nat :=
  match children with
  | [] => []
  | child :: rest =>
      if isSelected selectedNodeIds child
      then i :: getSelectedNodes selectedNodeIds (S i) rest
      else getSelectedNodes selectedNodeIds (S i) rest
  end.

(** [node.position] when [node.position && typeof node.position.x ===
    'number'] holds: an edge has no position. *)
Definition positionOf (node : SModelElement Q) : option (Point Q) :=
  match node with
  | Node n => Some (node_position n)
  | Package p _ => Some (pkg_position p)
  | Port p => Some (port_position p)
  | Edge _ => None
  end.

Definition Math_min (a b : Q) : Q := if Qle_bool a b then a else b.

(** The first [forEach] of the handlers for left, right and top: the least
    or greatest coordinate of the selected nodes.  [None] stands for the
    [Infinity] or [-Infinity] the loop starts from. *)
Definition extremeOf (pick : Q -> Q -> Q) (coordinate : Point Q -> Q)
    (nodes : list (SModelElement Q)) : option Q :=
  fold_left (fun acc node =>
               match positionOf node with
               | Some pos =>
                   Some match acc with
                        | Some m => pick m (coordinate pos)
                        | None => coordinate pos
                        end
               | None => acc
               end)
            nodes None.

(** [sumX / selectedNodes.length] of the handler for the vertical centre. *)
Definition centerOf (nodes : list (SModelElement Q)) : Q :=
  fold_left (fun sumX node =>
               match positionOf node with
               | Some pos => sumX + x pos
               | None => sumX
               end)
            nodes 0
  / inject_Z (Z.of_nat (List.length nodes)).

(** One round of the second [forEach]: the node of index [i] is read as it
    is now, and moved through [updateNodePosition] by its id. *)
Definition alignNode (place : Point Q -> Point Q) (this : GraphModel Q) (i : nat)
    : GraphModel Q :=
  match nth_error (graph_children (model this)) i with
  | Some node =>
      match positionOf node with
      | Some pos => updateNodePosition this (elementId node) (x (place pos)) (y (place pos))
      | None => this
      end
  | None => this
  end.

(** A handler from the click to the end of the second [forEach]; [target]
    computes the coordinate all selected nodes get, [place] puts it into a
    position. *)
Definition alignSelected
    (target : list (SModelElement Q) -> option Q) (place : Q -> Point Q -> Point Q)
    (this : GraphModel Q) (selectedNodeIds : list string) : GraphModel Q :=
  let children := graph_children (model this) in
  let selectedNodes := getSelectedNodes selectedNodeIds 0 children in
  if (List.length selectedNodes =? 0)%nat then this
  else
    match target (filter (isSelected selectedNodeIds) children) with
    | Some coordinate => fold_left (alignNode (place coordinate)) selectedNodes this
    | None => this
    end.

Definition alignLeft : GraphModel Q -> list string -> GraphModel Q :=
  alignSelected (extremeOf Math_min (@x Q)) (fun minX pos => mkPoint minX (y pos)).

Definition alignCenterVertical : GraphModel Q -> list string -> GraphModel Q :=
  alignSelected (fun nodes => Some (centerOf nodes)) (fun centerX pos => mkPoint centerX (y pos)).

Definition alignRight : GraphModel Q -> list string -> GraphModel Q :=
  alignSelected (extremeOf Math_max (@x Q)) (fun maxX pos => mkPoint maxX (y pos)).

Definition alignTop : GraphModel Q -> list string -> GraphModel Q :=
  alignSelected (extremeOf Math_min (@y Q)) (fun minY pos => mkPoint (x pos) minY).

(** The ids of the nodes and packages of a subtree, in the order [findNode]
    meets them. *)
Fixpoint nodeIdsOf (child : SModelElement Q) : list string :=
  match child with
  | Node n => [node_id n]
  | Package p children => pkg_id p :: flat_map nodeIdsOf children
  | Edge _ | Port _ => []
  end.
End Alignment.

(** ** Further notions used in the statements *)

Section PlacementByOrdinal.
Context {num : Type} {JN : JsNumber num}.
Variable A : Type.
Variable asPort : A -> option (SprottyPort num).
Variable ofPort : SprottyPort num -> A.

(** The side of a child, if it is a port with a side. *)
Definition sideOf (child : A) : option PortSide :=
  match asPort child with
  | Some port => side port
  | None => None
  end.

(** One more port seen on side [s]. *)
Definition bump (seen : PortSide -> nat) (s : PortSide) : PortSide -> nat :=
  fun s' => if PortSide_eqb s' s then S (seen s') else seen s'.

(** The children walked once: a port with a side goes where
    [calculatePortPosition] puts the port number [seen side] of [total side]
    on that side; any other child stays as it is. *)
Fixpoint placeFrom (size : NodeSize num) (total seen : PortSide -> nat) (children : list A)
    : list A :=
  match children with
  | [] => []
  | child :: rest =>
      match asPort child with
      | Some port =>
          match side port with
          | Some s =>
              ofPort (setPortPosition port
                        (calculatePortPosition s (lit (Z.of_nat (seen s)))
                           (lit (Z.of_nat (total s))) size))
              :: placeFrom size total (bump seen s) rest
          | None => child :: placeFrom size total seen rest
          end
      | None => child :: placeFrom size total seen rest
      end
  end.

(** The same for the ports of one side [s] only, numbered from [index]. *)
Fixpoint placeSide (s : PortSide) (size : NodeSize num) (total index : nat)
    (children : list A) : list A :=
  match children with
  | [] => []
  | child :: rest =>
      if onSide asPort s child then
        match asPort child with
        | Some port =>
            ofPort (setPortPosition port
                      (calculatePortPosition s (lit (Z.of_nat index))
                         (lit (Z.of_nat total)) size))
            :: placeSide s size total (S index) rest
        | None => child :: placeSide s size total index rest
        end
      else child :: placeSide s size total index rest
  end.

(** The number of ports of [children] on side [s]. *)
Definition countOnSide (children : list A) (s : PortSide) : nat :=
  List.length (filter (onSide asPort s) children).

(** Every port with a side placed by its ordinal among the ports of that
    side. *)
Definition placeByOrdinal (size : NodeSize num) (children : list A) : list A :=
  placeFrom size (countOnSide children) (fun _ => O) children.
End PlacementByOrdinal.

Section FirstPorts.
Context {num : Type} {JN : JsNumber num} {JM : JsMath num}.
Local Open Scope js_scope.

(** The children walked once, each port that is the first with its id put
    where [f] says, if it says so; [seen] are the ids met before. *)
Fixpoint applyFirst (f : string -> option (Point num)) (seen : list string)
    (children : list (SprottyPort num)) : list (SprottyPort num) :=
  match children with
  | [] => []
  | p :: rest =>
      (if existsb (String.eqb (port_id p)) seen then p
       else
         match f (port_id p) with
         | Some pos => setPortPosition p pos
         | None => p
         end)
      :: applyFirst f (port_id p :: seen) rest
  end.

(** Where the markers of a vector payload, from marker number [index] on,
    put the port with a given id under [updateSvgNodePortPositions]: the
    position computed for the last marker with that id. *)
Fixpoint svgTargets (node : SprottyNode num) (rotation centerX centerY : num)
    (elements : list (PortMarker num)) (index : nat) (id : string) : option (Point num) :=
  match elements with
  | [] => None
  | element :: rest =>
      match svgTargets node rotation centerX centerY rest (S index) id with
      | Some pos => Some pos
      | None =>
          let portInfo := extractPortInfo element (node_id node) index in
          if (id =? portId portInfo)%string
          then
            let x0 := info_x portInfo in
            let y0 := info_y portInfo in
            let x1 :=
              if enableFlipHorizontal node
              then width (node_size node) - x0 - info_width portInfo
                   + optOrElse (flipHorizontal node) (lit 0)
              else x0 in
            let y1 :=
              if enableFlipVertical node
              then height (node_size node) - y0 - info_height portInfo
                   + optOrElse (flipVertical node) (lit 0)
              else y0 in
            Some (calculatePortPositionWithRotation x1 y1 (info_width portInfo)
                    (info_height portInfo) rotation centerX centerY)
          else None
      end
  end.
End FirstPorts.

Section Reachability.
Context {num : Type} {JN : JsNumber num} {JM : JsMath num} {JJ : JsJson num}.
Variable portElements : string -> option (list (PortMarker num)).

(** The ids of the edge children of the graph. *)
Definition edgeIds (this : GraphModel num) : list string :=
  flat_map (fun child =>
              match child with
              | Edge e => [edge_id e]
              | _ => []
              end)
           (graph_children (model this)).

(** The states the operations of the editor lead to from a new model, when
    the trees loaded have edge children with distinct ids.  The rotate and
    flip steps are those of process and vector nodes; [reach_other] stands
    for every step that leaves the ids of the edge children and the counter
    as they are, which is what the rest of the editor does: a rotation or a
    flip chosen on a package, an edge or a port (a field is set on the
    element, and the children of a package are placed again), the creation
    of vector nodes, the alignment of nodes. *)
Inductive reachable : GraphModel num -> Prop :=
| reach_new : reachable newGraphModel
| reach_loadFromJson this tree :
    reachable this ->
    NoDup (edgeIds (mkGraphModel tree (count 0))) ->
    reachable (loadFromJson portElements this tree)
| reach_addEdge this s t : reachable this -> reachable (fst (addEdge this s t))
| reach_updateNodeSize this nodeId width height :
    reachable this -> reachable (updateNodeSize this nodeId width height)
| reach_updateNodePosition this nodeId x y :
    reachable this -> reachable (updateNodePosition this nodeId x y)
| reach_addNodeWithPorts this id x y name ports size flipHorizontal flipVertical rotation :
    reachable this ->
    reachable (fst (addNodeWithPorts this id x y name ports size flipHorizontal
                      flipVertical rotation))
| reach_addPackageNode this timestamp :
    reachable this -> reachable (addPackageNode this timestamp)
| reach_deleteItem this id : reachable this -> reachable (deleteItem this id)
| reach_duplicateItem this id timestamp this' :
    reachable this -> duplicateItem this id timestamp = Returns this' -> reachable this'
| reach_rotateRightNode this id this' :
    reachable this -> rotateRightNode portElements this id = Rotated this' -> reachable this'
| reach_rotateLeftNode this id this' :
    reachable this -> rotateLeftNode portElements this id = Rotated this' -> reachable this'
| reach_flipHorizontalNode this id this' :
    reachable this -> flipHorizontalNode portElements this id = Returns this' ->
    reachable this'
| reach_flipVerticalNode this id this' :
    reachable this -> flipVerticalNode portElements this id = Returns this' ->
    reachable this'
| reach_other this this' :
    reachable this ->
    edgeIds this' = edgeIds this -> edgeCounter this' = edgeCounter this ->
    reachable this'.
(** What the states of the editor keep, as long as the counter is below
    2^53: distinct edge ids, none with a number above the counter. *)
Definition edge_ids_in_order (this : GraphModel num) : Prop :=
  forall c : N,
    edgeCounter this = count c -> (c < two53)%N ->
    NoDup (edgeIds this)
    /\ (forall id n, In id (edgeIds this) -> edgeNumber id = Some n -> (n <= c)%N).

End Reachability.

(** * Properties *)

(** ** Port distribution, in exact arithmetic *)

Section DistributionExact.
Local Open Scope Q_scope.

Lemma distributeAlongAxis_single (i L : Q) :
  distributeAlongAxis i 1 L == (L - 16) / 2.
Proof. reflexivity. Qed.

Lemma distributeAlongAxis_spaced (i t L : Q) :
  ~ t == 1 -> distributeAlongAxis i t L == (L - 16) / (t - 1) * i.
Proof.
  intros Ht. unfold distributeAlongAxis. cbn.
  destruct (Qeq_bool t (inject_Z 1)) eqn:E.
  - apply Qeq_bool_iff in E. contradiction.
  - reflexivity.
Qed.

Lemma inject_Z_eq_1 (t : Z) : inject_Z t == 1 <-> t = 1%Z.
Proof.
  unfold Qeq. cbn. rewrite Z.mul_1_r. reflexivity.
Qed.

(** C1. For a side of length [L], [t >= 1] ports and an index
    [0 <= i < t], [distributeAlongAxis] returns [(L - 16) / 2] when
    [t = 1] and [i * (L - 16) / (t - 1)] otherwise; on a node of height 60
    three left ports get the y offsets 0, 22 and 44, also when the node is
    built by [createNodeWithPorts]. *)
Theorem C1_distributeAlongAxis_contract (L : Q) (t i : Z) :
  (1 <= t)%Z -> (0 <= i < t)%Z ->
  (t = 1%Z -> distributeAlongAxis (inject_Z i) (inject_Z t) L == (L - 16) / 2)
  /\ (t <> 1%Z ->
      distributeAlongAxis (inject_Z i) (inject_Z t) L
      == inject_Z i * (L - 16) / inject_Z (t - 1))
  /\ (forall w : Q,
        y (calculatePortPosition left 0 3 (mkSize w 60)) == 0
        /\ y (calculatePortPosition left 1 3 (mkSize w 60)) == (60 - 16) / 2
        /\ y (calculatePortPosition left 1 3 (mkSize w 60)) == 22
        /\ y (calculatePortPosition left 2 3 (mkSize w 60)) == 60 - 16
        /\ y (calculatePortPosition left 2 3 (mkSize w 60)) == 44)
  /\ (forall (id name : string) (px py w : Q) (a b c : PortConfig Q),
        cfg_side a = left -> cfg_side b = left -> cfg_side c = left ->
        cfg_index a = None -> cfg_index b = None -> cfg_index c = None ->
        Forall2 Qeq
          (map (fun p => y (port_position p))
             (node_children
                (createNodeWithPorts id px py name [a; b; c] (mkSize w 60)
                   None None None)))
          [0; 22; 44]).
Proof.
  intros Ht Hi. split; [| split; [| split]].
  - intros ->. apply distributeAlongAxis_single.
  - intros Hne. rewrite distributeAlongAxis_spaced.
    + assert (E : inject_Z (t - 1) == inject_Z t - 1)
        by (unfold Z.sub; rewrite inject_Z_plus; reflexivity).
      rewrite E. unfold Qdiv. ring.
    + rewrite inject_Z_eq_1. exact Hne.
  - intros w. repeat split; reflexivity.
  - intros id name px py w a b c Ha Hb Hc Ia Ib Ic.
    unfold createNodeWithPorts. cbn [flat_map filter node_children].
    rewrite Ha, Hb, Hc. cbn [PortSide_eqb filter app List.length createSidePorts].
    rewrite Ia, Ib, Ic. cbn [map port_position app].
    repeat constructor; reflexivity.
Qed.

Lemma C1_distributeAlongAxis_contract_witness :
  (2 <> 1)%Z /\ distributeAlongAxis (inject_Z 1) (inject_Z 2) 60 == inject_Z 1 * (60 - 16) / inject_Z (2 - 1).
Proof.
  split; [lia |].
  destruct (C1_distributeAlongAxis_contract 60 (t := 2) (i := 1)) as [_ [H _]];
    [lia | lia |].
  apply H. lia.
Defined.

(** A side shorter than a port: without a lower bound on the side length
    the monotonicity of C9 fails, at length 10 with two ports. *)
Lemma C9_counterexample_short_side :
  (1 <= 2)%Z /\ (0 <= 0 <= 1)%Z /\ (1 < 2)%Z
  /\ ~ distributeAlongAxis (inject_Z 0) (inject_Z 2) 10
       <= distributeAlongAxis (inject_Z 1) (inject_Z 2) 10.
Proof.
  repeat split; try lia. intros H. vm_compute in H. apply H. reflexivity.
Qed.

Lemma spacing_nonneg (L : Q) (t : Z) :
  16 <= L -> (1 < t)%Z -> 0 <= (L - 16) / (inject_Z t - 1).
Proof.
  intros HL Ht. apply Qle_shift_div_l.
  - assert (H : inject_Z 1 < inject_Z t) by (rewrite <- Zlt_Qlt; exact Ht).
    change (inject_Z 1) with 1 in H. lra.
  - lra.
Qed.

(** C9, amended. For a side at least as long as a port ([16 <= L]),
    [t >= 1] ports and indices [0 <= i <= j < t], the offset at [i] is at
    most the offset at [j]; and for [t = 1] the offset is the centering
    value [(L - 16) / 2] (this part for every [L]). *)
Theorem C9_distributeAlongAxis_monotone (L : Q) (t i j : Z) :
  16 <= L -> (1 <= t)%Z -> (0 <= i <= j)%Z -> (j < t)%Z ->
  distributeAlongAxis (inject_Z i) (inject_Z t) L
  <= distributeAlongAxis (inject_Z j) (inject_Z t) L
  /\ (forall L' : Q, t = 1%Z ->
        distributeAlongAxis (inject_Z i) (inject_Z t) L' == (L' - 16) / 2).
Proof.
  intros HL Ht Hij Hj. split.
  - destruct (Z.eq_dec t 1) as [-> | Hne].
    + rewrite !distributeAlongAxis_single. apply Qle_refl.
    + rewrite !distributeAlongAxis_spaced by (rewrite inject_Z_eq_1; exact Hne).
      rewrite !(Qmult_comm ((L - 16) / (inject_Z t - 1))).
      apply Qmult_le_compat_r.
      * rewrite <- Zle_Qle. lia.
      * apply spacing_nonneg; [exact HL | lia].
  - intros L' ->. apply distributeAlongAxis_single.
Qed.

Lemma C9_distributeAlongAxis_monotone_witness :
  distributeAlongAxis (inject_Z 0) (inject_Z 3) 60
  <= distributeAlongAxis (inject_Z 2) (inject_Z 3) 60.
Proof.
  apply (C9_distributeAlongAxis_monotone (L := 60) (t := 3) (i := 0) (j := 2));
    [ discriminate | lia | lia | lia ].
Defined.
End DistributionExact.

(** ** Edge creation *)

Section EdgeCreation.
Context {num : Type}.
Implicit Types (this : GraphModel num) (s t : string).

Lemma extractNodeId_loop_app_edge (children : list (SModelElement num)) (e : SprottyEdge)
    (portId : string) :
  extractNodeId_loop (children ++ [Edge e]) portId = extractNodeId_loop children portId.
Proof.
  induction children as [| child rest IH]; cbn; [reflexivity |].
  destruct child; try exact IH.
  destruct (existsb _ _); [reflexivity | exact IH].
Qed.

Lemma validateEdge_same_node this s t :
  extractNodeId this s = extractNodeId this t ->
  validateEdge this s t = mkValidation false (Some "Cannot connect a node to itself").
Proof.
  intros H. unfold validateEdge. rewrite H, String.eqb_refl. reflexivity.
Qed.

Lemma existsb_hasEdge this s t :
  existsb (fun child : SModelElement num =>
             match child with
             | Edge e => (sourceId e =? s)%string && (targetId e =? t)%string
             | _ => false
             end)
          (graph_children (model this)) = true
  <-> hasEdge this s t.
Proof.
  rewrite existsb_exists. split.
  - intros [child [Hin Hc]]. destruct child; try discriminate.
    apply andb_true_iff in Hc. destruct Hc as [Hs Ht].
    apply String.eqb_eq in Hs, Ht. exists e. auto.
  - intros [e [Hin [Hs Ht]]]. exists (Edge e). split; [exact Hin |].
    subst. rewrite !String.eqb_refl. reflexivity.
Qed.

Lemma validateEdge_duplicate this s t :
  extractNodeId this s <> extractNodeId this t -> hasEdge this s t ->
  validateEdge this s t = mkValidation false (Some "Edge already exists").
Proof.
  intros Hne Hex. unfold validateEdge.
  apply String.eqb_neq in Hne. rewrite Hne.
  apply existsb_hasEdge in Hex. rewrite Hex. reflexivity.
Qed.

(** Validation passes exactly when the two ports resolve to different
    nodes and no edge joins them yet. *)
Lemma validateEdge_valid_iff this s t :
  valid (validateEdge this s t) = true
  <-> extractNodeId this s <> extractNodeId this t /\ ~ hasEdge this s t.
Proof.
  unfold validateEdge.
  destruct (extractNodeId this s =? extractNodeId this t)%string eqn:E.
  - apply String.eqb_eq in E. cbn. split; [discriminate | tauto].
  - apply String.eqb_neq in E.
    destruct (existsb _ _) eqn:X; cbn.
    + apply existsb_hasEdge in X. split; [discriminate | tauto].
    + split; [| reflexivity]. intros _. split; [exact E |].
      intros H. apply existsb_hasEdge in H. congruence.
Qed.

Lemma addEdge_valid this s t :
  valid (validateEdge this s t) = true ->
  addEdge this s t =
    (mkGraphModel
       (mkGraph (graph_id (model this))
          (graph_children (model this)
           ++ [Edge (mkEdge ("edge-" ++ Number_toString (increment (edgeCounter this)))
                        s t)]))
       (increment (edgeCounter this)),
     mkResult true ("Edge created: " ++ s ++ " " ++ arrow ++ " " ++ t)).
Proof.
  intros H. unfold addEdge. rewrite H. reflexivity.
Qed.

Lemma addEdge_invalid this s t :
  valid (validateEdge this s t) = false ->
  addEdge this s t =
    (this, mkResult false (strOrElse (reason (validateEdge this s t)) "Invalid edge")).
Proof.
  intros H. unfold addEdge. rewrite H. reflexivity.
Qed.

(** The state after a successful call: the same owners, and the edge. *)
Lemma extractNodeId_after_addEdge this s t portId :
  valid (validateEdge this s t) = true ->
  extractNodeId (fst (addEdge this s t)) portId = extractNodeId this portId.
Proof.
  intros H. rewrite (addEdge_valid _ _ _ H). unfold extractNodeId. cbn.
  rewrite extractNodeId_loop_app_edge. reflexivity.
Qed.

Lemma hasEdge_after_addEdge this s t :
  valid (validateEdge this s t) = true -> hasEdge (fst (addEdge this s t)) s t.
Proof.
  intros H. rewrite (addEdge_valid _ _ _ H).
  eexists. cbn. split; [apply in_or_app; right; left; reflexivity |].
  split; reflexivity.
Qed.

Lemma addEdge_failed_iff this s t :
  success (snd (addEdge this s t)) = false <-> valid (validateEdge this s t) = false.
Proof.
  unfold addEdge. destruct (valid (validateEdge this s t)); cbn; split; congruence.
Qed.

(** Calls that fail, in any number, leave the state where it was. *)
Lemma addEdges_failed this (calls : list (string * string)) :
  Forall (fun call => success (snd (addEdge this (fst call) (snd call))) = false) calls ->
  addEdges this calls = this.
Proof.
  intros H. induction H as [| call calls Hc _ IH]; [reflexivity |].
  unfold addEdges in *. cbn [fold_left].
  apply addEdge_failed_iff in Hc. rewrite (addEdge_invalid _ _ _ Hc). exact IH.
Qed.
End EdgeCreation.

Section EdgeValidation.
Context {num : Type}.
Implicit Types (this : GraphModel num) (s t : string).

(** [extractNodeId] is the owning-node resolution the specification
    describes. *)
Lemma extractNodeId_owningNodeId this portId :
  extractNodeId this portId = owningNodeId this portId.
Proof.
  unfold extractNodeId, owningNodeId.
  induction (graph_children (model this)) as [| child rest IH]; [reflexivity |].
  destruct child; cbn; try exact IH.
  destruct (existsb _ _); [reflexivity | exact IH].
Qed.

(** C3. When the two port ids resolve to the same owning node, [addEdge]
    returns [{success: false}] with the reason that a node cannot be
    connected to itself, and changes nothing; the directions of the ports
    play no part. *)
Theorem C3_addEdge_rejects_same_node this s t :
  owningNodeId this s = owningNodeId this t ->
  addEdge this s t = (this, mkResult false "Cannot connect a node to itself").
Proof.
  intros H. rewrite <- !extractNodeId_owningNodeId in H.
  unfold addEdge. rewrite (validateEdge_same_node _ _ _ H). reflexivity.
Qed.

(** C2, amended. When the pair passes validation (the two ports resolve to
    different nodes and no edge joins them yet), the first of two
    successive [addEdge] calls succeeds, the second returns
    [{success: false}] with the duplicate-edge message and leaves the
    state as the first call left it, and the graph has exactly one more
    edge child than before. *)
Theorem C2_addEdge_twice this s t :
  owningNodeId this s <> owningNodeId this t -> ~ hasEdge this s t ->
  let first := addEdge this s t in
  let second := addEdge (fst first) s t in
  success (snd first) = true
  /\ snd second = mkResult false "Edge already exists"
  /\ fst second = fst first
  /\ List.length (edgesOf (fst second)) = S (List.length (edgesOf this)).
Proof.
  intros Hne Hno. rewrite <- !extractNodeId_owningNodeId in Hne.
  assert (Hv : valid (validateEdge this s t) = true)
    by (apply validateEdge_valid_iff; auto).
  cbv zeta.
  assert (Hdup : validateEdge (fst (addEdge this s t)) s t
                 = mkValidation false (Some "Edge already exists")).
  { apply validateEdge_duplicate.
    - rewrite !extractNodeId_after_addEdge by exact Hv. exact Hne.
    - apply hasEdge_after_addEdge. exact Hv. }
  rewrite (addEdge_invalid (fst (addEdge this s t)) s t) by (rewrite Hdup; reflexivity).
  rewrite Hdup. cbn [fst snd reason strOrElse].
  rewrite (addEdge_valid _ _ _ Hv). cbn [fst snd success model graph_children].
  repeat split.
  unfold edgesOf. cbn [model graph_children].
  rewrite filter_app, length_app. cbn. lia.
Qed.

(** C10. When validation fails (same owning node, or the edge is already
    there), [addEdge] returns [{success: false}] and the state is the one
    before the call, children and edge counter alike; after any number of
    such calls a further [addEdge] behaves as it would have at once. *)
Theorem C10_failed_addEdge_keeps_state this s t :
  owningNodeId this s = owningNodeId this t \/ hasEdge this s t ->
  success (snd (addEdge this s t)) = false
  /\ fst (addEdge this s t) = this
  /\ graph_children (model (fst (addEdge this s t))) = graph_children (model this)
  /\ edgeCounter (fst (addEdge this s t)) = edgeCounter this
  /\ (forall calls : list (string * string),
        Forall (fun call => owningNodeId this (fst call) = owningNodeId this (snd call)
                            \/ hasEdge this (fst call) (snd call)) calls ->
        addEdges this calls = this
        /\ forall s' t', addEdge (addEdges this calls) s' t' = addEdge this s' t').
Proof.
  assert (Hfail : forall s0 t0,
             owningNodeId this s0 = owningNodeId this t0 \/ hasEdge this s0 t0 ->
             valid (validateEdge this s0 t0) = false).
  { intros s0 t0 H. destruct (valid (validateEdge this s0 t0)) eqn:E; [| reflexivity].
    apply validateEdge_valid_iff in E. rewrite !extractNodeId_owningNodeId in E.
    tauto. }
  intros H. rewrite (addEdge_invalid _ _ _ (Hfail _ _ H)). cbn [fst snd success].
  assert (Hcalls : forall calls : list (string * string),
             Forall (fun call => owningNodeId this (fst call) = owningNodeId this (snd call)
                                 \/ hasEdge this (fst call) (snd call)) calls ->
             addEdges this calls = this).
  { intros calls Hall. apply addEdges_failed.
    apply Forall_impl with (2 := Hall). intros call Hc.
    apply addEdge_failed_iff. apply Hfail. exact Hc. }
  repeat split.
  - apply Hcalls. assumption.
  - intros s' t'. rewrite Hcalls by assumption. reflexivity.
Qed.
End EdgeValidation.

(** A model with nodes [a] (ports [a-in], [a-out]) and [b] (port [b-in]). *)
Lemma C3_addEdge_rejects_same_node_witness :
  let this := sampleModel [Node (sampleNode "a" [samplePort "a-in" (Some left) input;
                                                 samplePort "a-out" (Some right) output] None);
                           Node (sampleNode "b" [samplePort "b-in" (Some left) input] None)] 0 in
  addEdge this "a-out" "a-in" = (this, mkResult false "Cannot connect a node to itself").
Proof.
  apply C3_addEdge_rejects_same_node. reflexivity.
Defined.

Lemma C2_addEdge_twice_witness :
  let this := sampleModel [Node (sampleNode "a" [samplePort "a-out" (Some right) output] None);
                           Node (sampleNode "b" [samplePort "b-in" (Some left) input] None)] 0 in
  snd (addEdge (fst (addEdge this "a-out" "b-in")) "a-out" "b-in")
  = mkResult false "Edge already exists".
Proof.
  intros this.
  apply (@C2_addEdge_twice Q this "a-out" "b-in").
  - vm_compute. discriminate.
  - intros [e [Hin _]]. cbn in Hin. destruct Hin as [H | [H | []]]; discriminate.
Defined.

(** The first call fails on a pair that resolves to one node: C2 does not
    hold for every state and every pair. *)
Lemma C2_counterexample_first_call_fails :
  snd (addEdge (sampleModel [] 0) "a-out" "a-in")
  = mkResult false "Cannot connect a node to itself".
Proof. reflexivity. Qed.

Lemma C10_failed_addEdge_keeps_state_witness :
  let this := sampleModel [Edge (mkEdge "edge-1" "a-out" "b-in")] 1 in
  fst (addEdge this "a-out" "b-in") = this.
Proof.
  intros this.
  apply (@C10_failed_addEdge_keeps_state Q this "a-out" "b-in").
  right. exists (mkEdge "edge-1" "a-out" "b-in"). cbn. auto.
Defined.

(** ** Edge ids after a bulk load *)

Section DecimalIds.
Lemma takeDigits_string_of_uint (d : uint) :
  takeDigits (NilEmpty.string_of_uint d) = NilEmpty.string_of_uint d.
Proof.
  induction d; cbn [NilEmpty.string_of_uint takeDigits]; try reflexivity;
    match goal with
    | |- (if isDigit ?c then _ else _) = _ =>
        change (isDigit c) with true; cbv iota; f_equal; assumption
    end.
Qed.

Lemma decimalValue_decimal (n : N) : decimalValue (decimal n) = n.
Proof.
  unfold decimalValue, decimal. rewrite NilEmpty.usu. apply DecimalN.Unsigned.of_to.
Qed.

Lemma decimal_not_empty (n : N) : decimal n <> "".
Proof.
  intros E. assert (H := decimalValue_decimal n). rewrite E in H. cbn in H. subst n.
  discriminate E.
Qed.

(** The number written in an id of the form [edge-<n>] is [n]. *)
Lemma edgeNumber_edge_id (n : N) : edgeNumber ("edge-" ++ decimal n) = Some n.
Proof.
  unfold edgeNumber.
  assert (E : matchEdge ("edge-" ++ decimal n) = Some (decimal n)).
  { cbn [append matchEdge]. unfold matchEdgeHere. cbn [dropPrefix Ascii.eqb Bool.eqb].
    unfold decimal at 1. rewrite takeDigits_string_of_uint. fold (decimal n).
    destruct (decimal n) eqn:T; [| reflexivity].
    exfalso. exact (@decimal_not_empty n T). }
  rewrite E. cbn. rewrite decimalValue_decimal. reflexivity.
Qed.

(** Up to 2^53 the integers are doubles, written with their own digits. *)
Lemma roundToDouble_exact (n : N) : (n <= two53)%N -> roundToDouble n = count n.
Proof.
  intros H. unfold roundToDouble. destruct (n <? two53)%N eqn:E; [reflexivity |].
  apply N.ltb_ge in E. assert (n = two53) by lia. subst n. vm_compute. reflexivity.
Qed.

Lemma Number_toString_decimal (n : N) :
  (n <= two53)%N -> Number_toString (count n) = decimal n.
Proof.
  intros H. unfold Number_toString. destruct (n <? two53)%N eqn:E; [reflexivity |].
  apply N.ltb_ge in E. assert (n = two53) by lia. subst n. vm_compute. reflexivity.
Qed.

Lemma increment_exact (n : N) : (n < two53)%N -> increment (count n) = count (n + 1).
Proof. intros H. cbn [increment]. apply roundToDouble_exact. lia. Qed.

Lemma maxNumber_bound (numbers : list N) (bound : N) :
  (maxNumber numbers <= bound)%N -> Forall (fun n => (n <= bound)%N) numbers.
Proof.
  induction numbers as [| n rest IH]; [constructor |].
  cbn [maxNumber fold_right]. fold (maxNumber rest). intros H.
  constructor; [lia | apply IH; lia].
Qed.
End DecimalIds.

Section BulkLoad.
Context {num : Type} {JN : JsNumber num} {JM : JsMath num}.
Variable portElements : string -> option (list (PortMarker num)).

Lemma reduce_max_edges (children : list (SModelElement num)) (start : N) :
  Forall (fun n => (n <= two53)%N) (edgeNumbers (mkGraph "" children)) ->
  fold_left (fun max edge =>
               match matchEdge (elementId edge) with
               | Some group1 => Math_max_Count max (parseInt group1)
               | None => max
               end)
            (filter isEdge children) (count start)
  = count (N.max start (maxNumber (edgeNumbers (mkGraph "" children)))).
Proof.
  unfold edgeNumbers. cbn [graph_children].
  revert start. induction children as [| child rest IH]; intros start Hall.
  - cbn. f_equal. lia.
  - destruct child; cbn [filter isEdge flat_map List.app] in *;
      try (rewrite (IH _ Hall); reflexivity).
    cbn [fold_left elementId]. unfold edgeNumber in *.
    destruct (matchEdge (edge_id e)) as [group1 |]; cbn [option_map List.app] in *.
    + inversion Hall as [| n ns Hn Hrest]; subst.
      unfold parseInt. rewrite (roundToDouble_exact Hn). cbn [Math_max_Count].
      rewrite (IH _ Hrest). unfold maxNumber. cbn [fold_right]. f_equal. lia.
    + rewrite (IH _ Hall). reflexivity.
Qed.

(** The counter after a load is the largest number written in an edge id,
    0 when there is none, as long as that number is a double. *)
Lemma loadFromJson_edgeCounter (this : GraphModel num) (tree : SprottyGraph num) :
  (maxNumber (edgeNumbers tree) <= two53)%N ->
  edgeCounter (loadFromJson portElements this tree)
  = count (maxNumber (edgeNumbers tree)).
Proof.
  intros H. unfold loadFromJson. cbn [edgeCounter].
  rewrite reduce_max_edges by (apply maxNumber_bound; destruct tree; exact H).
  destruct tree. cbn [graph_children]. f_equal. unfold edgeNumbers. cbn [graph_children].
  lia.
Qed.

Lemma addEdge_success_valid (this : GraphModel num) (s t : string) :
  success (snd (addEdge this s t)) = true -> valid (validateEdge this s t) = true.
Proof.
  unfold addEdge. destruct (valid (validateEdge this s t)); [reflexivity |].
  cbn. discriminate.
Qed.

(** C4, amended. Let the largest number written in the id of an edge child
    of the tree be below 2^53 (an id of the form [edge-<n>] has [n] written
    in it, and is read as [n] up to 2^53).
    After [loadFromJson] the edge counter is that number; the next
    [addEdge] that succeeds, after failed calls in any number, appends an
    edge whose id is [edge-] followed by that number plus one; and when the
    number is 7 that id is [edge-8]. *)
Theorem C4_edge_id_after_load (this : GraphModel num) (tree : SprottyGraph num)
    (calls : list (string * string)) (s t : string) :
  (maxNumber (edgeNumbers tree) < two53)%N ->
  let loaded := loadFromJson portElements this tree in
  let before := addEdges loaded calls in
  edgeCounter loaded = count (maxNumber (edgeNumbers tree))
  /\ (forall n : N,
        edgeNumber ("edge-" ++ decimal n) = Some n
        /\ ((n <= two53)%N ->
            option_map parseInt (matchEdge ("edge-" ++ decimal n)) = Some (count n)))
  /\ (Forall (fun call => success (snd (addEdge loaded (fst call) (snd call))) = false)
             calls ->
      success (snd (addEdge before s t)) = true ->
      graph_children (model (fst (addEdge before s t)))
      = graph_children (model loaded)
        ++ [Edge (mkEdge ("edge-" ++ decimal (maxNumber (edgeNumbers tree) + 1)) s t)])
  /\ (maxNumber (edgeNumbers tree) = 7%N ->
      Forall (fun call => success (snd (addEdge loaded (fst call) (snd call))) = false)
             calls ->
      success (snd (addEdge before s t)) = true ->
      graph_children (model (fst (addEdge before s t)))
      = graph_children (model loaded) ++ [Edge (mkEdge "edge-8" s t)]).
Proof.
  intros Hmax loaded before.
  assert (Hc : edgeCounter loaded = count (maxNumber (edgeNumbers tree)))
    by (apply loadFromJson_edgeCounter; lia).
  assert (Hnext :
      Forall (fun call => success (snd (addEdge loaded (fst call) (snd call))) = false)
             calls ->
      success (snd (addEdge before s t)) = true ->
      graph_children (model (fst (addEdge before s t)))
      = graph_children (model loaded)
        ++ [Edge (mkEdge ("edge-" ++ decimal (maxNumber (edgeNumbers tree) + 1)) s t)]).
  { intros Hcalls. unfold before. rewrite (addEdges_failed _ Hcalls).
    intros Hs. apply addEdge_success_valid in Hs.
    rewrite (addEdge_valid _ _ _ Hs). cbn [fst model graph_children].
    rewrite Hc, (increment_exact Hmax), Number_toString_decimal by lia. reflexivity. }
  split; [exact Hc |]. split; [| split; [exact Hnext |]].
  - intros n. split; [apply edgeNumber_edge_id |]. intros Hn.
    assert (E := edgeNumber_edge_id n). unfold edgeNumber in E.
    destruct (matchEdge ("edge-" ++ decimal n)) as [digits |]; [| discriminate].
    cbn [option_map] in *. injection E as E. unfold parseInt.
    rewrite E, (roundToDouble_exact Hn). reflexivity.
  - intros H7 Hcalls Hs. rewrite (Hnext Hcalls Hs), H7. reflexivity.
Qed.
End BulkLoad.

(** After loading the sample tree, whose highest edge is [edge-7], two
    pairs that each resolve to one node are refused, and the next edge is
    [edge-8]. *)
Lemma C4_edge_id_after_load_witness :
  let loaded := loadFromJson (JM := sampleMath) noPortElements newGraphModel sampleTree in
  let before := addEdges loaded [("a-out", "a-in"); ("q-1", "q-2")] in
  graph_children (model (fst (addEdge before "a-out" "b-in")))
  = graph_children (model loaded) ++ [Edge (mkEdge "edge-8" "a-out" "b-in")].
Proof.
  intros loaded before.
  apply (@C4_edge_id_after_load Q _ sampleMath noPortElements newGraphModel sampleTree
           [("a-out", "a-in"); ("q-1", "q-2")] "a-out" "b-in").
  - reflexivity.
  - reflexivity.
  - repeat constructor.
  - reflexivity.
Defined.

(** From 2^53 on the maximum plus one need not be a double.  A tree whose
    highest edge is [edge-9007199254740992] is loaded with the counter at
    2^53, where [++] leaves it: the next edge is given the id of the edge
    that is there, not [edge-9007199254740993]. *)
Lemma C4_counterexample_counter_stuck :
  let tree : SprottyGraph Q :=
    mkGraph "root" [Node (sampleNode "a" [samplePort "a-out" (Some right) output] None);
                    Node (sampleNode "b" [samplePort "b-in" (Some left) input] None);
                    Node (sampleNode "c" [samplePort "c-in" (Some left) input] None);
                    Edge (mkEdge "edge-9007199254740992" "a-out" "b-in")] in
  let loaded := loadFromJson (JM := sampleMath) noPortElements newGraphModel tree in
  maxNumber (edgeNumbers tree) = 9007199254740992%N
  /\ edgeCounter loaded = count 9007199254740992
  /\ addEdge loaded "a-out" "c-in"
     = (mkGraphModel
          (mkGraph "root"
             (graph_children tree
              ++ [Edge (mkEdge "edge-9007199254740992" "a-out" "c-in")]))
          (count 9007199254740992),
        mkResult true ("Edge created: a-out " ++ arrow ++ " c-in")%string)
  /\ "edge-9007199254740992" <> ("edge-" ++ decimal (9007199254740992 + 1))%string.
Proof.
  cbv zeta. split; [vm_compute; reflexivity |]. split; [vm_compute; reflexivity |].
  split; [vm_compute; reflexivity |]. vm_compute. discriminate.
Qed.

(** The same step on the doubles of the kernel. *)
Example counter_step_on_doubles :
  PrimFloat.add 9007199254740991%float 1%float = 9007199254740992%float
  /\ PrimFloat.add 9007199254740992%float 1%float = 9007199254740992%float.
Proof. split; vm_compute; reflexivity. Qed.

(** ** Round trip through the serialized form *)

Section RoundTrip.
Context {num : Type} {JN : JsNumber num} {JM : JsMath num}.
Variable portElements : string -> option (list (PortMarker num)).
Local Open Scope js_scope.

Lemma recalculateNode_neutral (node : SprottyNode num) :
  neutralRotation (node_rotation node) = true ->
  recalculateNode portElements node = node.
Proof.
  unfold recalculateNode, neutralRotation.
  destruct (node_rotation node) as [r |]; [| reflexivity].
  intros H.
  destruct (r === lit 0), (r === lit 360), (r === - lit 360);
    try discriminate; rewrite ?orb_true_r; reflexivity.
Qed.

(** Only the top-level process and vector nodes matter to the load. *)
Lemma recalculate_unrotated (children : list (SModelElement num)) :
  forallb unrotated children = true ->
  map (fun child =>
         match child with
         | Node node => Node (recalculateNode portElements node)
         | other => other
         end) children
  = children.
Proof.
  induction children as [| child rest IH]; [reflexivity |].
  cbn [forallb map]. intros H. apply andb_true_iff in H. destruct H as [Hc Hr].
  rewrite (IH Hr). f_equal.
  destruct child; try reflexivity.
  cbn in Hc. rewrite (recalculateNode_neutral _ Hc). reflexivity.
Qed.

(** Loading an unrotated tree stores the tree itself. *)
Lemma load_unrotated (this : GraphModel num) (tree : SprottyGraph num) :
  forallb unrotated (graph_children tree) = true ->
  getModel (loadFromJson portElements this tree) = tree.
Proof.
  intros H. unfold getModel, loadFromJson, recalculatePortPositionsForRotatedNodes.
  cbn [model]. rewrite (recalculate_unrotated _ H). destruct tree; reflexivity.
Qed.
End RoundTrip.

Section SerializedExactly.
Context {num : Type} {JJ : JsJson num}.

Lemma JSON_copy_point_exact (p : Point num) :
  Forall writtenAsItIs (pointNumbers p) -> JSON_copy_point p = Some p.
Proof.
  intros H. inversion H as [| a l Hx H']; subst. inversion H' as [| b l' Hy _]; subst.
  unfold JSON_copy_point. unfold writtenAsItIs in Hx, Hy. rewrite Hx, Hy.
  destruct p; reflexivity.
Qed.

Lemma JSON_copy_size_exact (s : NodeSize num) :
  Forall writtenAsItIs (sizeNumbers s) -> JSON_copy_size s = Some s.
Proof.
  intros H. inversion H as [| a l Hw H']; subst. inversion H' as [| b l' Hh _]; subst.
  unfold JSON_copy_size. unfold writtenAsItIs in Hw, Hh. rewrite Hw, Hh.
  destruct s; reflexivity.
Qed.

Lemma JSON_copy_optional_exact (field : option num) :
  Forall writtenAsItIs (optionalNumbers field) -> JSON_copy_optional field = field.
Proof.
  destruct field as [v |]; [| reflexivity].
  intros H. inversion H as [| a l Hv _]; subst. exact Hv.
Qed.

Lemma JSON_copy_array_exact (A : Type) (copy : A -> option A) (items : list A) :
  Forall (fun item => copy item = Some item) items ->
  JSON_copy_array copy items = Some items.
Proof.
  intros H. induction H as [| item rest Hitem _ IH]; [reflexivity |].
  cbn [JSON_copy_array]. rewrite Hitem, IH. reflexivity.
Qed.

Lemma Forall_flat_map (A B : Type) (P : B -> Prop) (f : A -> list B) (items : list A) :
  Forall P (flat_map f items) -> Forall (fun item => Forall P (f item)) items.
Proof.
  induction items as [| item rest IH]; [constructor |].
  cbn [flat_map]. intros H. apply Forall_app in H. destruct H as [H1 H2].
  constructor; [exact H1 | exact (IH H2)].
Qed.

Lemma JSON_copy_port_exact (p : SprottyPort num) :
  Forall writtenAsItIs (portNumbers p) -> JSON_copy_port p = Some p.
Proof.
  unfold portNumbers. intros H.
  apply Forall_app in H. destruct H as [Hp H].
  apply Forall_app in H. destruct H as [Hs Ho].
  unfold JSON_copy_port.
  rewrite (JSON_copy_point_exact Hp), (JSON_copy_size_exact Hs).
  destruct p as [id pos size ty sh sd lb [o |]]; cbn [originalPosition] in *.
  - rewrite (JSON_copy_point_exact Ho). reflexivity.
  - reflexivity.
Qed.

Lemma JSON_copy_node_exact (n : SprottyNode num) :
  Forall writtenAsItIs (nodeNumbers n) -> JSON_copy_node n = Some n.
Proof.
  unfold nodeNumbers. intros H.
  apply Forall_app in H. destruct H as [Hp H].
  apply Forall_app in H. destruct H as [Hs H].
  apply Forall_app in H. destruct H as [Hc H].
  apply Forall_app in H. destruct H as [Hfh H].
  apply Forall_app in H. destruct H as [Hfv Hr].
  unfold JSON_copy_node.
  rewrite (JSON_copy_point_exact Hp), (JSON_copy_size_exact Hs).
  rewrite JSON_copy_array_exact.
  - rewrite (JSON_copy_optional_exact _ Hfh), (JSON_copy_optional_exact _ Hfv),
      (JSON_copy_optional_exact _ Hr).
    destruct n; reflexivity.
  - apply Forall_flat_map in Hc. apply Forall_impl with (2 := Hc).
    exact JSON_copy_port_exact.
Qed.

Lemma JSON_copy_package_exact (p : PackageInfo num) :
  Forall writtenAsItIs (pointNumbers (pkg_position p)) ->
  Forall writtenAsItIs (sizeNumbers (pkg_size p)) ->
  Forall writtenAsItIs (optionalNumbers (pkg_rotation p)) ->
  JSON_copy_package p = Some p.
Proof.
  intros Hp Hs Hr. unfold JSON_copy_package.
  rewrite (JSON_copy_point_exact Hp), (JSON_copy_size_exact Hs),
    (JSON_copy_optional_exact _ Hr).
  destruct p; reflexivity.
Qed.

(** A value whose numbers are all written as they are is read back as it
    was. *)
Lemma JSON_copy_element_exact (child : SModelElement num) :
  Forall writtenAsItIs (elementNumbers child) -> JSON_copy_element child = Some child.
Proof.
  induction child as [n | p children IH | e | p] using SModelElement_tree_ind;
    cbn [elementNumbers JSON_copy_element]; intros H.
  - rewrite (JSON_copy_node_exact H). reflexivity.
  - apply Forall_app in H. destruct H as [Hp H].
    apply Forall_app in H. destruct H as [Hs H].
    apply Forall_app in H. destruct H as [Hr Hc].
    rewrite (JSON_copy_package_exact _ Hp Hs Hr).
    apply Forall_flat_map in Hc.
    assert (E : (fix copies (items : list (SModelElement num)) :=
                   match items with
                   | [] => Some []
                   | item :: rest =>
                       match JSON_copy_element item, copies rest with
                       | Some item', Some rest' => Some (item' :: rest')
                       | _, _ => None
                       end
                   end) children = Some children).
    { induction children as [| c rest IHrest]; [reflexivity |].
      inversion IH as [| c' rest' IHc IHr]; subst.
      inversion Hc as [| c' rest' Hcc Hcr]; subst.
      rewrite (IHc Hcc), (IHrest IHr Hcr). reflexivity. }
    rewrite E. reflexivity.
  - reflexivity.
  - rewrite (JSON_copy_port_exact H). reflexivity.
Qed.

Lemma JSON_copy_graph_exact (tree : SprottyGraph num) :
  Forall writtenAsItIs (graphNumbers tree) -> JSON_copy_graph tree = Some tree.
Proof.
  unfold graphNumbers, JSON_copy_graph. intros H.
  rewrite JSON_copy_array_exact.
  - destruct tree; reflexivity.
  - apply Forall_flat_map in H. apply Forall_impl with (2 := H).
    exact JSON_copy_element_exact.
Qed.
End SerializedExactly.

Section ExportImport.
Context {num : Type} {JN : JsNumber num} {JM : JsMath num} {JJ : JsJson num}.
Variable portElements : string -> option (list (PortMarker num)).

(** C8, amended. Let no node of the tree carry a rotation other than 0,
    360 or -360, and let every number of the tree be written to JSON as it
    is (finite, and not -0).  Then what [JSON.parse] reads from the exported
    [JSON.stringify(tree)] is the tree, and [loadFromJson] of it followed
    by [getModel] gives back the tree itself, so every id, position, size,
    port list and edge is as in the original. *)
Theorem C8_load_roundtrip_unrotated (this : GraphModel num) (tree : SprottyGraph num) :
  forallb unrotated (graph_children tree) = true ->
  Forall writtenAsItIs (graphNumbers tree) ->
  JSON_copy_graph tree = Some tree
  /\ option_map (fun json => getModel (loadFromJson portElements this json))
       (JSON_copy_graph tree)
     = Some tree.
Proof.
  intros Hr Hn. rewrite (JSON_copy_graph_exact _ Hn). split; [reflexivity |].
  cbn [option_map]. rewrite (load_unrotated portElements this _ Hr). reflexivity.
Qed.
End ExportImport.

Lemma C8_load_roundtrip_unrotated_witness :
  option_map (fun json => getModel (loadFromJson (JM := sampleMath) noPortElements
                                      newGraphModel json))
    (JSON_copy_graph sampleTree)
  = Some sampleTree.
Proof.
  apply (@C8_load_roundtrip_unrotated Q _ sampleMath _ noPortElements newGraphModel
           sampleTree).
  - reflexivity.
  - unfold writtenAsItIs. repeat constructor.
Defined.

(** A number that is not finite does not come back.  A vector node whose
    size was computed as [NaN] (as [createSvgNode] does from a [viewBox]
    written with commas) is exported with [null] for its width and height:
    what is read back is not the tree. *)
Lemma C8_counterexample_not_a_number :
  let math : JsMath float :=
    {| Math_PI := 0x1.921fb54442d18p+1%float;
       Math_cos := fun _ => 1%float; Math_sin := fun _ => 0%float |} in
  let tree : SprottyGraph float :=
    mkGraph "root"
      [Node (mkNode node_svg "s" (mkPoint 100%float 100%float) (mkSize nan nan) "s" []
               None None false false (Some 0%float) (Some "<svg/>"))] in
  forallb unrotated (graph_children tree) = true
  /\ JSON_number (nan : float) = None
  /\ JSON_copy_graph tree = None
  /\ option_map (fun json => getModel (loadFromJson (JM := math) (fun _ => None)
                                         newGraphModel json))
       (JSON_copy_graph tree)
     <> Some tree.
Proof.
  cbv zeta. split; [vm_compute; reflexivity |]. split; [vm_compute; reflexivity |].
  split; [vm_compute; reflexivity |].
  assert (E : JSON_copy_graph
                (mkGraph "root"
                   [Node (mkNode node_svg "s" (mkPoint 100%float 100%float)
                            (mkSize nan nan) "s" [] None None false false
                            (Some 0%float) (Some "<svg/>"))])
              = None) by (vm_compute; reflexivity).
  rewrite E. discriminate.
Qed.

(** Negative zero is written as [0]: it is read back as another double. *)
Example negative_zero_through_JSON :
  JSON_number (-0)%float = Some 0%float /\ (-0)%float <> 0%float.
Proof.
  split; [vm_compute; reflexivity |].
  intros E. apply (f_equal PrimFloat.get_sign) in E. vm_compute in E. discriminate E.
Qed.

(** ** Resizing a node *)

Section FindAndUpdate.
Context {num : Type}.
Variable nodeId : string.
Variable upd : SModelElement num -> SModelElement num.
Hypothesis upd_tag : forall e, isNodeElement (upd e) = isNodeElement e.
Hypothesis upd_id : forall e, elementId (upd e) = elementId e.

Lemma findNodeAt_hit (child : SModelElement num) :
  isNodeElement child && (elementId child =? nodeId)%string = true ->
  findNodeAt nodeId child = Some child.
Proof.
  intros H. destruct child; cbn [findNodeAt]; rewrite H; reflexivity.
Qed.

Lemma updateFoundAt_none (child : SModelElement num) :
  findNodeAt nodeId child = None -> updateFoundAt nodeId upd child = None.
Proof.
  induction child as [n | p children IH | e | p] using SModelElement_tree_ind;
    cbn [findNodeAt updateFoundAt];
    destruct (isNodeElement _ && (elementId _ =? nodeId)%string);
    try discriminate; try reflexivity.
  intros H.
  assert (E : updateFirst (updateFoundAt nodeId upd) children = None).
  { induction IH as [| c rest Hc _ IHrest]; [reflexivity |].
    cbn [firstSome] in H. cbn [updateFirst].
    destruct (findNodeAt nodeId c) eqn:F; [discriminate |].
    rewrite (Hc eq_refl), (IHrest H). reflexivity. }
  rewrite E. reflexivity.
Qed.

Lemma updateFirst_found (children : list (SModelElement num)) (found : SModelElement num) :
  Forall (fun child => forall found,
            findNodeAt nodeId child = Some found ->
            exists child', updateFoundAt nodeId upd child = Some child'
                           /\ findNodeAt nodeId child' = Some (upd found)) children ->
  firstSome (findNodeAt nodeId) children = Some found ->
  exists children', updateFirst (updateFoundAt nodeId upd) children = Some children'
                    /\ firstSome (findNodeAt nodeId) children' = Some (upd found).
Proof.
  intros HF. induction HF as [| c rest Hc _ IH]; [discriminate |].
  cbn [firstSome updateFirst]. destruct (findNodeAt nodeId c) as [f |] eqn:F.
  - intros E. injection E as ->.
    destruct (Hc _ eq_refl) as [c' [U F']]. rewrite U.
    exists (c' :: rest). split; [reflexivity |]. cbn [firstSome]. rewrite F'. reflexivity.
  - intros E. destruct (IH E) as [rest' [U F']].
    rewrite (updateFoundAt_none _ F), U.
    exists (c :: rest'). split; [reflexivity |]. cbn [firstSome]. rewrite F. exact F'.
Qed.

Lemma updateFoundAt_found (child found : SModelElement num) :
  findNodeAt nodeId child = Some found ->
  exists child', updateFoundAt nodeId upd child = Some child'
                 /\ findNodeAt nodeId child' = Some (upd found).
Proof.
  revert found.
  induction child as [n | p children IH | e | p] using SModelElement_tree_ind;
    intros found; cbn [findNodeAt updateFoundAt];
    match goal with
    | |- context [isNodeElement ?c && (elementId ?c =? nodeId)%string] =>
        destruct (isNodeElement c && (elementId c =? nodeId)%string) eqn:T
    end;
    try discriminate;
    try (intros E; injection E as E; subst found; eexists; split; [reflexivity |];
         rewrite findNodeAt_hit; [reflexivity | rewrite upd_tag, upd_id; exact T]).
  intros E. destruct (updateFirst_found IH E) as [children' [U F]].
  rewrite U. exists (Package p children'). split; [reflexivity |].
  cbn [findNodeAt]. cbn [isNodeElement elementId] in T |- *. rewrite T. exact F.
Qed.

(** The element [findNode] returns is the one the assignments reach. *)
Lemma updateFound_found (children : list (SModelElement num)) (found : SModelElement num) :
  findNode nodeId children = Some found ->
  exists children', updateFound nodeId upd children = Some children'
                    /\ findNode nodeId children' = Some (upd found).
Proof.
  apply updateFirst_found. apply Forall_forall. intros c _ f. apply updateFoundAt_found.
Qed.
End FindAndUpdate.

Section Presence.
Context {num : Type}.
Variable nodeId : string.

Lemma occursIn_single_cons (e c : SModelElement num) (rest : list (SModelElement num)) :
  occursIn e [c] -> occursIn e (c :: rest).
Proof.
  intros H. inversion H as [r E | ch r H' E | p cs r H' E]; subst.
  - apply occurs_here.
  - inversion H'.
  - apply occurs_inside. exact H'.
Qed.

Lemma firstSome_occurs (children : list (SModelElement num)) (found : SModelElement num) :
  Forall (fun child => forall found,
            findNodeAt nodeId child = Some found ->
            occursIn found [child] /\ isNodeElement found = true
            /\ elementId found = nodeId) children ->
  firstSome (findNodeAt nodeId) children = Some found ->
  occursIn found children /\ isNodeElement found = true /\ elementId found = nodeId.
Proof.
  intros HF. induction HF as [| c rest Hc _ IH]; [discriminate |].
  cbn [firstSome]. destruct (findNodeAt nodeId c) as [f |] eqn:F.
  - intros E. injection E as ->. destruct (Hc _ eq_refl) as [Ho Hrest].
    split; [apply occursIn_single_cons; exact Ho | exact Hrest].
  - intros E. destruct (IH E) as [Ho Hrest].
    split; [apply occurs_later; exact Ho | exact Hrest].
Qed.

Lemma findNodeAt_occurs (child found : SModelElement num) :
  findNodeAt nodeId child = Some found ->
  occursIn found [child] /\ isNodeElement found = true /\ elementId found = nodeId.
Proof.
  revert found.
  induction child as [n | p children IH | e | p] using SModelElement_tree_ind;
    intros found; cbn [findNodeAt];
    match goal with
    | |- context [isNodeElement ?c && (elementId ?c =? nodeId)%string] =>
        destruct (isNodeElement c && (elementId c =? nodeId)%string) eqn:T
    end;
    try discriminate;
    try (intros E; injection E as E; subst found;
         apply andb_true_iff in T; destruct T as [T1 T2]; apply String.eqb_eq in T2;
         split; [apply occurs_here | split; assumption]).
  intros E. destruct (firstSome_occurs IH E) as [Ho Hrest].
  split; [apply occurs_inside; exact Ho | exact Hrest].
Qed.

(** What [findNode] returns is a node or package of the tree with that id. *)
Lemma findNode_occurs (children : list (SModelElement num)) (found : SModelElement num) :
  findNode nodeId children = Some found ->
  occursIn found children /\ isNodeElement found = true /\ elementId found = nodeId.
Proof.
  apply firstSome_occurs. apply Forall_forall. intros c _ f. apply findNodeAt_occurs.
Qed.

(** A node or package of the tree with that id makes [findNode] succeed. *)
Lemma occurs_findNode (children : list (SModelElement num)) (e : SModelElement num) :
  occursIn e children -> isNodeElement e = true -> elementId e = nodeId ->
  exists found, findNode nodeId children = Some found.
Proof.
  intros Ho Hn Hid. unfold findNode.
  induction Ho as [rest | child rest Ho IH | p children rest Ho IH]; cbn [firstSome].
  - rewrite (findNodeAt_hit nodeId e)
      by (rewrite Hn, Hid, String.eqb_refl; reflexivity).
    eauto.
  - destruct (findNodeAt nodeId child); eauto.
  - cbn [findNodeAt].
    destruct (isNodeElement (Package p children)
              && (elementId (Package p children) =? nodeId)%string); [eauto |].
    destruct IH as [found IH]. rewrite IH. eauto.
Qed.

(** With unique ids, the lookup by its id reaches every node of the tree. *)
Lemma findNode_present (children : list (SModelElement num)) (e : SModelElement num) :
  uniqueNodeIds children ->
  occursIn e children -> isNodeElement e = true -> elementId e = nodeId ->
  findNode nodeId children = Some e.
Proof.
  intros Hu Ho Hn Hid.
  destruct (occurs_findNode Ho Hn Hid) as [found F].
  destruct (findNode_occurs _ F) as [Ho' [Hn' Hid']].
  rewrite F. f_equal. apply Hu; congruence.
Qed.
End Presence.

Section NodePorts.
Context {num : Type} {JN : JsNumber num}.
Implicit Types (children : list (SprottyPort num)) (s : PortSide).

Lemma PortSide_eqb_eq (a b : PortSide) : PortSide_eqb a b = true <-> a = b.
Proof. destruct a, b; cbn; split; congruence. Qed.

Lemma nth_error_assignPosition children (ref k : nat) (pos : Point num) :
  nth_error (assignPosition Some (fun p => p) ref pos children) k
  = if (k =? ref)%nat
    then option_map (fun p => setPortPosition p pos) (nth_error children k)
    else nth_error children k.
Proof.
  revert ref k. induction children as [| c rest IH]; intros ref k.
  - destruct ref, k; cbn [assignPosition nth_error option_map];
      try destruct (_ =? _)%nat; reflexivity.
  - destruct ref, k; cbn [assignPosition nth_error Nat.eqb option_map]; try reflexivity.
    apply IH.
Qed.

Lemma length_assignPosition children (ref : nat) (pos : Point num) :
  List.length (assignPosition Some (fun p => p) ref pos children) = List.length children.
Proof.
  revert ref. induction children as [| c rest IH]; intros ref;
    [destruct ref; reflexivity |].
  destruct ref; cbn; [reflexivity | rewrite IH; reflexivity].
Qed.

(** An index listed for a side names a port of that side. *)
Lemma portsPerSide_In s (first : nat) children (i : nat) :
  In i (portsPerSide Some s first children) ->
  (first <= i)%nat
  /\ exists p, nth_error children (i - first) = Some p /\ side p = Some s.
Proof.
  revert first. induction children as [| c rest IH]; intros first; [intros [] |].
  cbn [portsPerSide]. unfold onSide at 1.
  assert (Hrest : In i (portsPerSide Some s (S first) rest) ->
                  (first <= i)%nat
                  /\ exists p, nth_error (c :: rest) (i - first) = Some p /\ side p = Some s).
  { intros H. destruct (IH _ H) as [Hle [p [Hn Hs]]]. split; [lia |].
    exists p. split; [| exact Hs].
    replace (i - first)%nat with (S (i - S first)) by lia. exact Hn. }
  destruct (side c) as [s' |] eqn:Sc; [| exact Hrest].
  destruct (PortSide_eqb s' s) eqn:E; [| exact Hrest].
  intros [<- | H]; [| exact (Hrest H)].
  split; [lia |]. exists c. rewrite Nat.sub_diag. apply PortSide_eqb_eq in E.
  subst. auto.
Qed.

(** The indices for a side are listed in increasing order. *)
Lemma portsPerSide_increasing s (first : nat) children (a b : nat) (l : list nat) :
  portsPerSide Some s first children = a :: b :: l -> (a < b)%nat.
Proof.
  revert first. induction children as [| c rest IH]; intros first; [discriminate |].
  cbn [portsPerSide]. destruct (onSide Some s c).
  - intros H. injection H as <- H.
    assert (Hin : In b (portsPerSide Some s (S first) rest)) by (rewrite H; left; reflexivity).
    apply portsPerSide_In in Hin. lia.
  - apply IH.
Qed.

(** A port without a side is listed for no side. *)
Lemma portsPerSide_unsided s children (k : nat) (p : SprottyPort num) :
  nth_error children k = Some p -> side p = None ->
  ~ In k (portsPerSide Some s 0 children).
Proof.
  intros Hn Hs Hin. apply portsPerSide_In in Hin.
  destruct Hin as [_ [q [Hq Hsq]]]. rewrite Nat.sub_0_r in Hq. congruence.
Qed.

Lemma portsPerSide_sides_differ s1 s2 children (i j : nat) :
  s1 <> s2 ->
  In i (portsPerSide Some s1 0 children) -> In j (portsPerSide Some s2 0 children) ->
  i <> j.
Proof.
  intros Hne Hi Hj ->.
  apply portsPerSide_In in Hi, Hj.
  destruct Hi as [_ [p [Hp Hsp]]], Hj as [_ [q [Hq Hsq]]]. congruence.
Qed.
End NodePorts.

Section ResizeExact.
Local Open Scope Q_scope.

Lemma resize_tag (w h : Q) (e : SModelElement Q) :
  isNodeElement (resize w h e) = isNodeElement e.
Proof. destruct e; reflexivity. Qed.

Lemma resize_id (w h : Q) (e : SModelElement Q) :
  elementId (resize w h e) = elementId e.
Proof. destruct e; reflexivity. Qed.

Lemma setPortPosition_same (p : SprottyPort Q) : setPortPosition p (port_position p) = p.
Proof. destruct p; reflexivity. Qed.

(** Resizing to 200 x 100 the node that [findNode] reaches, when its ports
    with a side are two left ports (children [a], [b]) and one right port
    (child [c]). *)
Lemma updateNodeSize_found_ports (this : GraphModel Q) (nodeId : string)
    (n : SprottyNode Q) (a b c : nat) :
  findNode nodeId (graph_children (model this)) = Some (Node n) ->
  portsPerSide Some left 0 (node_children n) = [a; b] ->
  portsPerSide Some right 0 (node_children n) = [c] ->
  portsPerSide Some top 0 (node_children n) = [] ->
  portsPerSide Some bottom 0 (node_children n) = [] ->
  exists n' : SprottyNode Q,
    findNode nodeId (graph_children (model (updateNodeSize this nodeId 200 100)))
    = Some (Node n')
    /\ node_size n' = mkSize 200 100
    /\ List.length (node_children n') = List.length (node_children n)
    /\ forall (k : nat) (p : SprottyPort Q),
         nth_error (node_children n) k = Some p ->
         exists pos : Point Q,
           nth_error (node_children n') k = Some (setPortPosition p pos)
           /\ (k = a -> x pos == -8 /\ y pos == 0)
           /\ (k = b -> x pos == -8 /\ y pos == 84)
           /\ (k = c -> x pos == 192 /\ y pos == 42)
           /\ (side p = None -> pos = port_position p).
Proof.
  intros Hfind Hleft Hright Htop Hbottom.
  destruct (updateFound_found nodeId (resize 200 100) (resize_tag 200 100)
              (resize_id 200 100) _ Hfind) as [children' [U F]].
  unfold updateNodeSize. rewrite U. cbn [model graph_children].
  cbn [resize] in F. eexists. split; [exact F |].
  cbn [node_size setNodeChildren setNodeSize node_children].
  split; [reflexivity |].
  unfold repositionPorts. cbn [fold_left].
  rewrite Hleft, Hright, Htop, Hbottom. cbn [repositionSide List.length].
  split; [rewrite !length_assignPosition; reflexivity |].
  assert (Hab : (a < b)%nat) by exact (portsPerSide_increasing _ _ _ Hleft).
  assert (Hina : In a (portsPerSide Some left 0 (node_children n)))
    by (rewrite Hleft; cbn; auto).
  assert (Hinb : In b (portsPerSide Some left 0 (node_children n)))
    by (rewrite Hleft; cbn; auto).
  assert (Hinc : In c (portsPerSide Some right 0 (node_children n)))
    by (rewrite Hright; cbn; auto).
  assert (Hac : a <> c)
    by (apply (portsPerSide_sides_differ (s1 := left) (s2 := right)
                 (node_children n)); [discriminate | assumption | assumption]).
  assert (Hbc : b <> c)
    by (apply (portsPerSide_sides_differ (s1 := left) (s2 := right)
                 (node_children n)); [discriminate | assumption | assumption]).
  intros k p Hk. rewrite !nth_error_assignPosition, Hk.
  assert (Hsided : forall s, In k (portsPerSide Some s 0 (node_children n)) ->
                             side p = None -> False)
    by (intros s Hin Hs; exact (@portsPerSide_unsided Q s (node_children n) k p Hk Hs Hin)).
  destruct (Nat.eqb_spec k c) as [-> | Hkc];
    [| destruct (Nat.eqb_spec k b) as [-> | Hkb];
       [| destruct (Nat.eqb_spec k a) as [-> | Hka]]].
  - destruct (Nat.eqb_spec c b); [congruence |].
    destruct (Nat.eqb_spec c a); [congruence |].
    eexists. split; [reflexivity |].
    repeat split; try congruence; try reflexivity.
    intros Hs. destruct (Hsided right Hinc Hs).
  - destruct (Nat.eqb_spec b a); [lia |].
    eexists. split; [reflexivity |].
    repeat split; try congruence; try lia; try reflexivity.
    intros Hs. destruct (Hsided left Hinb Hs).
  - eexists. split; [reflexivity |].
    repeat split; try congruence; try lia; try reflexivity.
    intros Hs. destruct (Hsided left Hina Hs).
  - exists (port_position p). rewrite setPortPosition_same.
    split; [reflexivity |]. repeat split; congruence.
Qed.

End ResizeExact.


(** ** Rotation from the context menu *)

Section Rotation.
Context {num : Type} {JN : JsNumber num} {JM : JsMath num}.
Variable portElements : string -> option (list (PortMarker num)).

Lemma updateNodePortPositions_id (node : SprottyNode num) :
  node_id (updateNodePortPositions portElements node) = node_id node.
Proof.
  unfold updateNodePortPositions, updateSvgNodePortPositions,
    updateProcessNodePortPositions.
  destruct (svgContent node); [| reflexivity].
  destruct (negb _); [reflexivity |]. destruct (portElements _); reflexivity.
Qed.

Lemma updateNodePortPositions_rotation (node : SprottyNode num) :
  node_rotation (updateNodePortPositions portElements node) = node_rotation node.
Proof.
  unfold updateNodePortPositions, updateSvgNodePortPositions,
    updateProcessNodePortPositions.
  destruct (svgContent node); [| reflexivity].
  destruct (negb _); [reflexivity |]. destruct (portElements _); reflexivity.
Qed.

Lemma find_replaceFirstById (id : string) (new found : SModelElement num)
    (children : list (SModelElement num)) :
  elementId new = id ->
  find (fun child => (elementId child =? id)%string) children = Some found ->
  find (fun child => (elementId child =? id)%string) (replaceFirstById id new children)
  = Some new.
Proof.
  intros Hid. induction children as [| c rest IH]; [discriminate |].
  cbn [find replaceFirstById]. destruct (elementId c =? id)%string eqn:E.
  - intros _. cbn [find]. rewrite Hid, String.eqb_refl. reflexivity.
  - intros H. cbn [find]. rewrite E. exact (IH H).
Qed.

(** One rotation of a node that is there: the node stays where it is,
    with the new rotation stored. *)
Lemma rotateNode_step (newRotation : option num -> num) (this : GraphModel num)
    (id : string) (n : SprottyNode num) :
  find (fun child => (elementId child =? id)%string) (graph_children (model this))
  = Some (Node n) ->
  exists this' n',
    rotateNode portElements newRotation this id = Rotated this'
    /\ find (fun child => (elementId child =? id)%string) (graph_children (model this'))
       = Some (Node n')
    /\ node_rotation n' = Some (newRotation (node_rotation n)).
Proof.
  intros H. unfold rotateNode. rewrite H.
  eexists. eexists. split; [reflexivity |]. cbn [model graph_children]. split.
  - apply find_replaceFirstById with (found := Node n); [| exact H].
    cbn [elementId]. rewrite updateNodePortPositions_id. cbn.
    apply find_some in H. destruct H as [_ H]. apply String.eqb_eq in H. exact H.
  - rewrite updateNodePortPositions_rotation. reflexivity.
Qed.
End Rotation.

Section RotationExact.
Context {JM : JsMath Q}.
Variable portElements : string -> option (list (PortMarker Q)).
Local Open Scope Q_scope.

Lemma rotateTimes_rotation (newRotation : option Q -> Q) (times : nat)
    (this : GraphModel Q) (id : string) (n : SprottyNode Q) :
  find (fun child => (elementId child =? id)%string) (graph_children (model this))
  = Some (Node n) ->
  exists this' n',
    rotateTimes (rotateNode portElements newRotation) times this id = Rotated this'
    /\ find (fun child => (elementId child =? id)%string) (graph_children (model this'))
       = Some (Node n')
    /\ node_rotation n'
       = Nat.iter times (fun r => Some (newRotation r)) (node_rotation n).
Proof.
  revert this n. induction times as [| times IH]; intros this n H.
  - exists this, n. cbn. auto.
  - destruct (rotateNode_step portElements newRotation this id H)
      as [this1 [n1 [R [F Hr]]]].
    destruct (IH this1 n1 F) as [this' [n' [R' [F' Hr']]]].
    exists this', n'. cbn [rotateTimes].
    rewrite R. split; [exact R' |]. split; [exact F' |].
    rewrite Hr', Hr, Nat.iter_succ_r. reflexivity.
Qed.

Lemma truthy_zero (v : Q) : v == 0 -> truthy v = false.
Proof.
  intros Hv. unfold truthy. cbn [strictEq lit Q_JsNumber].
  apply Qeq_bool_iff in Hv. change (inject_Z 0) with 0. rewrite Hv. reflexivity.
Qed.

Lemma rotateRight_from_zero (r : option Q) :
  r = None \/ (exists v, r = Some v /\ v == 0) -> rotateRight_newRotation r = 90.
Proof.
  intros [-> | [v [-> Hv]]]; [reflexivity |].
  unfold rotateRight_newRotation, optOrElse, orElse. rewrite (truthy_zero Hv). reflexivity.
Qed.

Lemma rotateLeft_from_zero (r : option Q) :
  r = None \/ (exists v, r = Some v /\ v == 0) -> rotateLeft_newRotation r = -90.
Proof.
  intros [-> | [v [-> Hv]]]; [reflexivity |].
  unfold rotateLeft_newRotation, optOrElse, orElse. rewrite (truthy_zero Hv). reflexivity.
Qed.

End RotationExact.



(** ** The neutral band of rotations *)

Section NeutralBandAnyNumbers.
Context {num : Type} {JN : JsNumber num} {JM : JsMath num}.
Local Open Scope js_scope.

(** In the band the position is handed back, whatever the numbers are. *)
Lemma calculatePortPositionWithRotation_neutral (x y width height rotation cx cy : num) :
  (rotation === lit 0) = true \/ (rotation === lit 360) = true
  \/ (rotation === - lit 360) = true ->
  calculatePortPositionWithRotation x y width height rotation cx cy = mkPoint x y.
Proof.
  unfold calculatePortPositionWithRotation.
  intros [H | [H | H]]; rewrite H; cbn [negb andb]; rewrite ?andb_false_r; reflexivity.
Qed.
End NeutralBandAnyNumbers.

Section NeutralBandDoubles.
Context {JM : JsMath float}.
Local Open Scope js_scope.

(** Zero times any double is a zero or NaN. *)
Lemma zero_mul_cases (c : float) :
  PrimFloat.mul 0%float c = 0%float \/ PrimFloat.mul 0%float c = (-0)%float
  \/ PrimFloat.mul 0%float c = nan.
Proof.
  assert (H := mul_spec 0%float c).
  destruct (Prim2SF c) as [sc | sc | | sc m e] eqn:E; cbn in H.
  - destruct sc; [right; left | left]; apply Prim2SF_inj; rewrite H; reflexivity.
  - right; right. apply Prim2SF_inj; rewrite H; reflexivity.
  - right; right. apply Prim2SF_inj; rewrite H; reflexivity.
  - destruct sc; [right; left | left]; apply Prim2SF_inj; rewrite H; reflexivity.
Qed.

(** Outside the band the rotation is computed, and on the absorbed port
    the x it returns is not even [===] to the x it was given, whatever
    [Math.cos] and [Math.sin] return. *)
Lemma calculatePortPositionWithRotation_moves (rotation : float) :
  (rotation === lit 0) = false -> (rotation === lit 360) = false ->
  (rotation === - lit 360) = false ->
  (x (calculatePortPositionWithRotation absorbed_x absorbed_x absorbed_width
        absorbed_width rotation absorbed_center absorbed_center)
   === absorbed_x) = false.
Proof.
  intros H0 H1 H2.
  unfold calculatePortPositionWithRotation. rewrite H0, H1, H2. cbn [negb andb].
  unfold rotatePoint. cbv zeta. cbn [x].
  generalize (Math_cos (rotation * Math_PI / lit 180)) as c.
  generalize (Math_sin (rotation * Math_PI / lit 180)) as s.
  intros s c.
  assert (E : absorbed_x + absorbed_width / lit 2 - absorbed_center = 0%float)
    by (vm_compute; reflexivity).
  rewrite E. cbv [mul float_JsNumber].
  destruct (zero_mul_cases c) as [-> | [-> | ->]],
           (zero_mul_cases s) as [-> | [-> | ->]];
    vm_compute; reflexivity.
Qed.
End NeutralBandDoubles.

(** On doubles rounding alone does it: for every rotation outside the
    band there is an input (finite numbers) that does not come back
    unchanged, whatever [Math.cos] and [Math.sin] return, were it 1 and 0
    as for a whole turn.  This says nothing about the turn itself. *)
Remark rounding_moves_on_doubles (JM : JsMath float) (rotation : float) :
  strictEq rotation (lit 0) = false -> strictEq rotation (lit 360) = false ->
  strictEq rotation (neg (lit 360)) = false ->
  exists x y width height centerX centerY : float,
    calculatePortPositionWithRotation x y width height rotation centerX centerY
    <> mkPoint x y.
Proof.
  intros H0 H1 H2.
  exists absorbed_x, absorbed_x, absorbed_width, absorbed_width,
         absorbed_center, absorbed_center.
  intros E.
  assert (M := calculatePortPositionWithRotation_moves H0 H1 H2).
  rewrite E in M. vm_compute in M. discriminate M.
Qed.

Section NeutralBandReals.
Local Open Scope R_scope.

Lemma cos_one_whole_turns (t : R) : cos t = 1 -> exists k : Z, t = 2 * IZR k * PI.
Proof.
  intros H.
  assert (Hs : sin (t / 2) = 0).
  { assert (E := cos_2a_sin (t / 2)). replace (2 * (t / 2)) with t in E by field.
    rewrite H in E. assert (E2 : sin (t / 2) * sin (t / 2) = 0) by Lra.lra.
    apply Rmult_integral in E2. tauto. }
  destruct (sin_eq_0_0 _ Hs) as [k Hk]. exists k. Lra.lra.
Qed.

Lemma whole_turns_cos_sin (k : Z) :
  cos (2 * IZR k * PI) = 1 /\ sin (2 * IZR k * PI) = 0.
Proof.
  assert (Hs : sin (IZR k * PI) = 0) by (apply sin_eq_0_1; exists k; reflexivity).
  replace (2 * IZR k * PI) with (2 * (IZR k * PI)) by ring.
  rewrite cos_2a_sin, sin_2a, Hs. split; ring.
Qed.

Lemma strictEq_R (a b : R) : strictEq a b = true <-> a = b.
Proof.
  cbn [strictEq R_JsNumber]. destruct (Req_dec_T a b); split; congruence.
Qed.

(** Outside the band the centre of the port is turned about the centre of
    the node by the angle, and the corner is taken from it again. *)
Lemma calculatePortPositionWithRotation_turns (x y width height rotation cx cy : R) :
  rotation <> 0 -> rotation <> 360 -> rotation <> -360 ->
  calculatePortPositionWithRotation x y width height rotation cx cy
  = mkPoint
      ((x + width / 2 - cx) * cos (rotation * PI / 180)
       - (y + height / 2 - cy) * sin (rotation * PI / 180) + cx - width / 2)
      ((x + width / 2 - cx) * sin (rotation * PI / 180)
       + (y + height / 2 - cy) * cos (rotation * PI / 180) + cy - height / 2).
Proof.
  intros H0 H1 H2. unfold calculatePortPositionWithRotation, rotatePoint.
  cbn [strictEq lit neg add sub mul div R_JsNumber Math_PI Math_cos Math_sin R_JsMath].
  repeat match goal with
         | |- context [Req_dec_T ?a ?b] => destruct (Req_dec_T a b) as [E | _]; [Lra.lra |]
         end.
  reflexivity.
Qed.
End NeutralBandReals.




(** The scenarios of C1 and C7 evaluated on doubles give the same numbers. *)
Example three_left_ports_on_doubles :
  map (fun i => y (calculatePortPosition left (float_of_Z i) (float_of_Z 3)
                     (mkSize (float_of_Z 120) (float_of_Z 60))))
      [0%Z; 1%Z; 2%Z]
  = [0%float; 22%float; 44%float].
Proof. vm_compute. reflexivity. Qed.

Example resized_ports_on_doubles :
  let size := mkSize (float_of_Z 200) (float_of_Z 100) in
  calculatePortPosition left (float_of_Z 0) (float_of_Z 2) size = mkPoint (-8)%float 0%float
  /\ calculatePortPosition left (float_of_Z 1) (float_of_Z 2) size = mkPoint (-8)%float 84%float
  /\ calculatePortPosition right (float_of_Z 0) (float_of_Z 1) size = mkPoint 192%float 42%float.
Proof. vm_compute. repeat split. Qed.

(** * Further properties *)

(** ** Lookup misses, last writes and commuting updates *)

Section UpdatesThroughFind.
Context {num : Type}.
Variable nodeId : string.
Implicit Types (upd : SModelElement num -> SModelElement num).

Lemma updateFoundAt_hit upd (child : SModelElement num) :
  isNodeElement child && (elementId child =? nodeId)%string = true ->
  updateFoundAt nodeId upd child = Some (upd child).
Proof.
  intros H. destruct child; cbn [updateFoundAt]; rewrite H; reflexivity.
Qed.

Lemma updateFound_none upd (children : list (SModelElement num)) :
  findNode nodeId children = None -> updateFound nodeId upd children = None.
Proof.
  unfold findNode, updateFound.
  induction children as [| c rest IH]; [reflexivity |].
  cbn [firstSome updateFirst]. destruct (findNodeAt nodeId c) eqn:F; [discriminate |].
  intros H. rewrite (updateFoundAt_none nodeId upd c F), (IH H). reflexivity.
Qed.

(** An update reaches something exactly when the lookup does. *)
Lemma findNodeAt_none upd (child : SModelElement num) :
  updateFoundAt nodeId upd child = None -> findNodeAt nodeId child = None.
Proof.
  induction child as [n | p children IH | e | p] using SModelElement_tree_ind;
    cbn [findNodeAt updateFoundAt];
    destruct (isNodeElement _ && (elementId _ =? nodeId)%string);
    try discriminate; try reflexivity.
  destruct (updateFirst (updateFoundAt nodeId upd) children) eqn:U; [discriminate |].
  intros _. induction IH as [| c rest Hc _ IHrest]; [reflexivity |].
  cbn [updateFirst] in U. cbn [firstSome].
  destruct (updateFoundAt nodeId upd c) eqn:F; [discriminate |].
  rewrite (Hc eq_refl).
  destruct (updateFirst (updateFoundAt nodeId upd) rest); [discriminate |].
  apply IHrest. reflexivity.
Qed.

Lemma updateFoundAt_none_any upd1 upd2 (child : SModelElement num) :
  updateFoundAt nodeId upd1 child = None -> updateFoundAt nodeId upd2 child = None.
Proof.
  intros H. apply updateFoundAt_none. exact (findNodeAt_none _ _ H).
Qed.

Section Composition.
Variables upd1 upd2 : SModelElement num -> SModelElement num.
Hypothesis upd1_tag : forall e, isNodeElement (upd1 e) = isNodeElement e.
Hypothesis upd1_id : forall e, elementId (upd1 e) = elementId e.

Lemma updateFirst_compose (children children' : list (SModelElement num)) :
  Forall (fun child => forall child',
            updateFoundAt nodeId upd1 child = Some child' ->
            updateFoundAt nodeId upd2 child'
            = updateFoundAt nodeId (fun e => upd2 (upd1 e)) child) children ->
  updateFirst (updateFoundAt nodeId upd1) children = Some children' ->
  updateFirst (updateFoundAt nodeId upd2) children'
  = updateFirst (updateFoundAt nodeId (fun e => upd2 (upd1 e))) children.
Proof.
  intros HF. revert children'.
  induction HF as [| c rest Hc _ IH]; intros children'; [discriminate |].
  cbn [updateFirst]. destruct (updateFoundAt nodeId upd1 c) as [c' |] eqn:F.
  - intros E. injection E as E. subst children'. cbn [updateFirst].
    rewrite (Hc c' eq_refl).
    destruct (updateFoundAt nodeId (fun e => upd2 (upd1 e)) c) eqn:G; [reflexivity |].
    rewrite (updateFoundAt_none_any _ upd1 _ G) in F. discriminate.
  - destruct (updateFirst (updateFoundAt nodeId upd1) rest) as [rest' |] eqn:R;
      [| discriminate].
    cbn [option_map]. intros E. injection E as E. subst children'. cbn [updateFirst].
    rewrite (updateFoundAt_none_any _ upd2 _ F).
    rewrite (updateFoundAt_none_any _ (fun e => upd2 (upd1 e)) _ F).
    rewrite (IH rest' eq_refl). reflexivity.
Qed.

Lemma updateFoundAt_compose (child child' : SModelElement num) :
  updateFoundAt nodeId upd1 child = Some child' ->
  updateFoundAt nodeId upd2 child'
  = updateFoundAt nodeId (fun e => upd2 (upd1 e)) child.
Proof.
  revert child'.
  induction child as [n | p children IH | e | p] using SModelElement_tree_ind;
    intros child'; cbn [updateFoundAt];
    match goal with
    | |- context [isNodeElement ?c && (elementId ?c =? nodeId)%string] =>
        destruct (isNodeElement c && (elementId c =? nodeId)%string) eqn:T
    end;
    try discriminate;
    try (intros E; injection E as E; subst child';
         apply updateFoundAt_hit; rewrite upd1_tag, upd1_id; exact T).
  destruct (updateFirst (updateFoundAt nodeId upd1) children) as [children' |] eqn:U;
    [| discriminate].
  cbn [option_map]. intros E. injection E as E. subst child'.
  cbn [updateFoundAt]. cbn [isNodeElement elementId] in T |- *. rewrite T.
  rewrite (updateFirst_compose IH U). reflexivity.
Qed.

(** Two updates through the same id are one update by the composition. *)
Lemma updateFound_compose (children children' : list (SModelElement num)) :
  updateFound nodeId upd1 children = Some children' ->
  updateFound nodeId upd2 children'
  = updateFound nodeId (fun e => upd2 (upd1 e)) children.
Proof.
  apply updateFirst_compose. apply Forall_forall. intros c _ c'.
  apply updateFoundAt_compose.
Qed.
End Composition.

Lemma updateFound_ext upd1 upd2 (children : list (SModelElement num)) :
  (forall e, upd1 e = upd2 e) ->
  updateFound nodeId upd1 children = updateFound nodeId upd2 children.
Proof.
  intros H. unfold updateFound.
  assert (E : forall child, updateFoundAt nodeId upd1 child = updateFoundAt nodeId upd2 child).
  { induction child as [n | p cs IH | e | p] using SModelElement_tree_ind;
      cbn [updateFoundAt]; rewrite ?H; try reflexivity.
    destruct (isNodeElement _ && _); [reflexivity |]. f_equal.
    induction IH as [| c rest Hc _ IHrest]; [reflexivity |].
    cbn [updateFirst]. rewrite Hc, IHrest. reflexivity. }
  induction children as [| c rest IH]; [reflexivity |].
  cbn [updateFirst]. rewrite E, IH. reflexivity.
Qed.
Lemma updateFound_some upd1 upd2 (children : list (SModelElement num)) :
  updateFound nodeId upd1 children = None -> updateFound nodeId upd2 children = None.
Proof.
  unfold updateFound. induction children as [| c rest IH]; [reflexivity |].
  cbn [updateFirst]. destruct (updateFoundAt nodeId upd1 c) eqn:F; [discriminate |].
  rewrite (updateFoundAt_none_any _ upd2 _ F).
  destruct (updateFirst (updateFoundAt nodeId upd1) rest); [discriminate |].
  intros _. rewrite (IH eq_refl). reflexivity.
Qed.
End UpdatesThroughFind.

Section NodeUpdates.
Context {num : Type} {JN : JsNumber num}.

Lemma moveTo_tag (x y : num) (e : SModelElement num) :
  isNodeElement (moveTo x y e) = isNodeElement e.
Proof. destruct e; reflexivity. Qed.

Lemma moveTo_id (x y : num) (e : SModelElement num) :
  elementId (moveTo x y e) = elementId e.
Proof. destruct e; reflexivity. Qed.

Lemma resize_tag_any (w h : num) (e : SModelElement num) :
  isNodeElement (resize w h e) = isNodeElement e.
Proof. destruct e; reflexivity. Qed.

Lemma resize_id_any (w h : num) (e : SModelElement num) :
  elementId (resize w h e) = elementId e.
Proof. destruct e; reflexivity. Qed.

Lemma findNode_absent (nodeId : string) (children : list (SModelElement num)) :
  (forall e, occursIn e children -> isNodeElement e = true -> elementId e <> nodeId) ->
  findNode nodeId children = None.
Proof.
  intros H. destruct (findNode nodeId children) as [found |] eqn:F; [| reflexivity].
  destruct (findNode_occurs _ _ F) as [Ho [Hn Hid]]. destruct (H found Ho Hn Hid).
Qed.

(** X1.  [updateNodeSize] and [updateNodePosition] with an id that no process
    node, vector node or package of the tree carries, at the top or inside
    packages, leave the whole state as it is; an edge or a port with that
    id does not count. *)
Theorem update_of_absent_id_changes_nothing (this : GraphModel num) (nodeId : string)
    (w h x y : num) :
  (forall e, occursIn e (graph_children (model this)) ->
             isNodeElement e = true -> elementId e <> nodeId) ->
  updateNodeSize this nodeId w h = this /\ updateNodePosition this nodeId x y = this.
Proof.
  intros H. apply findNode_absent in H.
  unfold updateNodeSize, updateNodePosition.
  rewrite !(@updateFound_none _ nodeId _ _ H). split; reflexivity.
Qed.

(** X2.  Moving the same node twice is the same as moving it once to the
    last position: the first position leaves no trace in the state. *)
Theorem updateNodePosition_last_wins (this : GraphModel num) (nodeId : string)
    (x1 y1 x2 y2 : num) :
  updateNodePosition (updateNodePosition this nodeId x1 y1) nodeId x2 y2
  = updateNodePosition this nodeId x2 y2.
Proof.
  unfold updateNodePosition at 2.
  destruct (updateFound nodeId (moveTo x1 y1) (graph_children (model this)))
    as [children' |] eqn:U; [| reflexivity].
  unfold updateNodePosition. cbn [model graph_children graph_id edgeCounter].
  rewrite (@updateFound_compose _ nodeId (moveTo x1 y1) (moveTo x2 y2)
             (moveTo_tag x1 y1) (moveTo_id x1 y1) _ _ U).
  rewrite (@updateFound_ext _ nodeId (fun e => moveTo x2 y2 (moveTo x1 y1 e)) (moveTo x2 y2))
    by (intros e; destruct e; reflexivity).
  destruct (updateFound nodeId (moveTo x2 y2) (graph_children (model this))) eqn:V;
    [reflexivity |].
  rewrite (@updateFound_some _ nodeId _ (moveTo x1 y1) _ V) in U. discriminate.
Qed.
End NodeUpdates.

(** ** Port placement on resize *)

Section PlacementLaws.
Context {num : Type} {JN : JsNumber num}.
Variable A : Type.
Variable asPort : A -> option (SprottyPort num).
Variable ofPort : SprottyPort num -> A.
Hypothesis asPort_ofPort : forall p, asPort (ofPort p) = Some p.
Implicit Types (children cs : list A) (s : PortSide).

Lemma portsPerSide_shift s (i : nat) children :
  portsPerSide asPort s (S i) children = map S (portsPerSide asPort s i children).
Proof.
  revert i. induction children as [| c rest IH]; intros i; [reflexivity |].
  cbn [portsPerSide]. rewrite IH. destruct (onSide asPort s c); reflexivity.
Qed.

Lemma repositionSide_shift s (ports : list nat) (index total : nat) (size : NodeSize num)
    (c : A) cs :
  repositionSide asPort ofPort s (map S ports) index total size (c :: cs)
  = c :: repositionSide asPort ofPort s ports index total size cs.
Proof.
  revert index cs. induction ports as [| p rest IH]; intros index cs; [reflexivity |].
  cbn [map repositionSide assignPosition]. apply IH.
Qed.

Lemma onSide_sideOf s (a b : A) :
  sideOf asPort a = sideOf asPort b -> onSide asPort s a = onSide asPort s b.
Proof.
  unfold sideOf, onSide. intros H.
  destruct (asPort a) as [p |], (asPort b) as [q |]; cbn in H |- *.
  - rewrite H. reflexivity.
  - rewrite H. reflexivity.
  - rewrite <- H. reflexivity.
  - reflexivity.
Qed.

(** The passes over the indices of one side, on a list with the sides of
    [children], are one walk of that list. *)
Lemma repositionSide_placeSide s (size : NodeSize num) (total : nat) children :
  forall cs (index : nat),
    map (sideOf asPort) cs = map (sideOf asPort) children ->
    repositionSide asPort ofPort s (portsPerSide asPort s 0 children) index total size cs
    = placeSide asPort ofPort s size total index cs.
Proof.
  induction children as [| c rest IH]; intros cs index H.
  - destruct cs; [reflexivity | discriminate].
  - destruct cs as [| c' cs]; [discriminate |]. cbn [map] in H. injection H as Hc H.
    cbn [portsPerSide placeSide]. rewrite portsPerSide_shift.
    rewrite (onSide_sideOf s c' c Hc).
    destruct (onSide asPort s c) eqn:E.
    + cbn [repositionSide assignPosition].
      assert (E' : onSide asPort s c' = true)
        by (rewrite (onSide_sideOf s c' c Hc); exact E).
      unfold onSide in E'. destruct (asPort c') as [port |]; [| discriminate].
      rewrite repositionSide_shift, IH by exact H. reflexivity.
    + rewrite repositionSide_shift, IH by exact H. reflexivity.
Qed.

Lemma sideOf_placeSide s (size : NodeSize num) (total index : nat) cs :
  map (sideOf asPort) (placeSide asPort ofPort s size total index cs)
  = map (sideOf asPort) cs.
Proof.
  revert index. induction cs as [| c rest IH]; intros index; [reflexivity |].
  cbn [placeSide]. destruct (onSide asPort s c) eqn:E.
  - destruct (asPort c) as [port |] eqn:P; cbn [map]; rewrite IH; [| reflexivity].
    f_equal. unfold sideOf. rewrite asPort_ofPort, P. reflexivity.
  - cbn [map]. rewrite IH. reflexivity.
Qed.

Lemma length_portsPerSide s (i : nat) children :
  List.length (portsPerSide asPort s i children) = countOnSide asPort children s.
Proof.
  unfold countOnSide. revert i. induction children as [| c rest IH]; intros i; [reflexivity |].
  cbn [portsPerSide filter]. destruct (onSide asPort s c); cbn [List.length]; rewrite IH;
    reflexivity.
Qed.

(** The four passes, left, right, top, bottom, are one walk. *)
Lemma placeSide_four (size : NodeSize num) (total seen : PortSide -> nat) cs :
  placeSide asPort ofPort bottom size (total bottom) (seen bottom)
    (placeSide asPort ofPort top size (total top) (seen top)
       (placeSide asPort ofPort right size (total right) (seen right)
          (placeSide asPort ofPort left size (total left) (seen left) cs)))
  = placeFrom asPort ofPort size total seen cs.
Proof.
  revert seen. induction cs as [| c rest IH]; intros seen; [reflexivity |].
  cbn [placeFrom].
  destruct (asPort c) as [port |] eqn:P;
    [destruct (side port) as [[| | |] |] eqn:S |];
    repeat (cbn [placeSide]; unfold onSide;
            rewrite ?asPort_ofPort, ?P; cbn [side setPortPosition];
            rewrite ?S; cbn [PortSide_eqb]);
    rewrite <- IH; reflexivity.
Qed.

(** The two [forEach] passes of [updateNodeSize] put every port with a side
    where [calculatePortPosition] puts the port with its ordinal among the
    ports of that side, and leave the other children alone. *)
Lemma repositionPorts_placeByOrdinal (size : NodeSize num) children :
  repositionPorts asPort ofPort size children = placeByOrdinal asPort ofPort size children.
Proof.
  unfold repositionPorts, placeByOrdinal. cbn [fold_left].
  rewrite !length_portsPerSide.
  rewrite (repositionSide_placeSide left size _ children children 0 eq_refl).
  rewrite (repositionSide_placeSide right size _ children _ 0)
    by (rewrite sideOf_placeSide; reflexivity).
  rewrite (repositionSide_placeSide top size _ children _ 0)
    by (rewrite !sideOf_placeSide; reflexivity).
  rewrite (repositionSide_placeSide bottom size _ children _ 0)
    by (rewrite !sideOf_placeSide; reflexivity).
  apply (placeSide_four size (countOnSide asPort children) (fun _ => O)).
Qed.
Lemma sideOf_placeFrom (size : NodeSize num) (total seen : PortSide -> nat) cs :
  map (sideOf asPort) (placeFrom asPort ofPort size total seen cs)
  = map (sideOf asPort) cs.
Proof.
  revert seen. induction cs as [| c rest IH]; intros seen; [reflexivity |].
  cbn [placeFrom]. destruct (asPort c) as [port |] eqn:P.
  - destruct (side port) as [s |] eqn:S; cbn [map]; rewrite IH; [| reflexivity].
    f_equal. unfold sideOf. rewrite asPort_ofPort, P. cbn [side setPortPosition].
    reflexivity.
  - cbn [map]. rewrite IH. reflexivity.
Qed.

Lemma countOnSide_sideOf cs cs' s :
  map (sideOf asPort) cs = map (sideOf asPort) cs' ->
  countOnSide asPort cs s = countOnSide asPort cs' s.
Proof.
  unfold countOnSide. revert cs'. induction cs as [| c rest IH]; intros [| c' rest'] H;
    try discriminate; [reflexivity |].
  cbn [map] in H. injection H as Hc H. cbn [filter].
  rewrite (onSide_sideOf s c c' Hc). destruct (onSide asPort s c'); cbn [List.length];
    rewrite (IH _ H); reflexivity.
Qed.

Lemma placeFrom_ext (size : NodeSize num) (total total' seen : PortSide -> nat) cs :
  (forall s, total s = total' s) ->
  placeFrom asPort ofPort size total seen cs = placeFrom asPort ofPort size total' seen cs.
Proof.
  intros H. revert seen. induction cs as [| c rest IH]; intros seen; [reflexivity |].
  cbn [placeFrom]. destruct (asPort c) as [port |]; [| rewrite IH; reflexivity].
  destruct (side port) as [s |]; rewrite IH, ?H; reflexivity.
Qed.

(** A placement overwrites an earlier one. *)
Lemma placeFrom_placeFrom (size1 size2 : NodeSize num)
    (total1 total2 seen1 seen2 : PortSide -> nat) cs :
  placeFrom asPort ofPort size2 total2 seen2 (placeFrom asPort ofPort size1 total1 seen1 cs)
  = placeFrom asPort ofPort size2 total2 seen2 cs.
Proof.
  revert seen1 seen2. induction cs as [| c rest IH]; intros seen1 seen2; [reflexivity |].
  cbn [placeFrom]. destruct (asPort c) as [port |] eqn:P.
  - destruct (side port) as [s |] eqn:S; cbn [placeFrom].
    + rewrite asPort_ofPort. cbn [side setPortPosition]. rewrite S, IH. reflexivity.
    + rewrite P, S, IH. reflexivity.
  - cbn [placeFrom]. rewrite P, IH. reflexivity.
Qed.

Lemma placeByOrdinal_twice (size1 size2 : NodeSize num) cs :
  placeByOrdinal asPort ofPort size2 (placeByOrdinal asPort ofPort size1 cs)
  = placeByOrdinal asPort ofPort size2 cs.
Proof.
  unfold placeByOrdinal. rewrite placeFrom_placeFrom. apply placeFrom_ext.
  intros s. apply countOnSide_sideOf. apply sideOf_placeFrom.
Qed.

Lemma length_placeFrom (size : NodeSize num) (total seen : PortSide -> nat) cs :
  List.length (placeFrom asPort ofPort size total seen cs) = List.length cs.
Proof.
  rewrite <- (length_map (sideOf asPort)), sideOf_placeFrom. apply length_map.
Qed.
End PlacementLaws.

Section ResizeAnyShape.
Context {num : Type} {JN : JsNumber num}.

Lemma elementAsPort_Port (p : SprottyPort num) : elementAsPort (Port p) = Some p.
Proof. reflexivity. Qed.

Lemma resize_placeByOrdinal (w h : num) (e : SModelElement num) :
  resize w h e
  = match e with
    | Node n =>
        Node (setNodeChildren (setNodeSize n (mkSize w h))
                (placeByOrdinal Some (fun p => p) (mkSize w h) (node_children n)))
    | Package p children =>
        Package (setPackageSize p (mkSize w h))
                (placeByOrdinal elementAsPort (@Port num) (mkSize w h) children)
    | other => other
    end.
Proof.
  destruct e as [n | p children | e | p]; cbn [resize]; try reflexivity.
  - rewrite (repositionPorts_placeByOrdinal Some (fun p => p) (fun p => eq_refl)).
    reflexivity.
  - rewrite (repositionPorts_placeByOrdinal elementAsPort (@Port num) elementAsPort_Port).
    reflexivity.
Qed.

Lemma resize_resize (w1 h1 w2 h2 : num) (e : SModelElement num) :
  resize w2 h2 (resize w1 h1 e) = resize w2 h2 e.
Proof.
  rewrite !resize_placeByOrdinal. destruct e as [n | p children | e | p]; try reflexivity.
  - cbn [node_children setNodeChildren setNodeSize].
    rewrite (placeByOrdinal_twice Some (fun p => p) (fun p => eq_refl)). reflexivity.
  - rewrite (placeByOrdinal_twice elementAsPort (@Port num) elementAsPort_Port).
    reflexivity.
Qed.

(** X3.  Whatever the ports of the element [findNode] reaches, [updateNodeSize]
    gives it the new size and walks its children once: a port with a side
    goes where [calculatePortPosition] puts port number k of m, k being its
    rank among the ports of that side in child order and m their number;
    every other child, and every other field, stays.  This holds for process
    and vector nodes and for packages, whose children are ports and nodes. *)
Theorem updateNodeSize_places_by_ordinal (this : GraphModel num) (nodeId : string)
    (w h : num) (found : SModelElement num) :
  findNode nodeId (graph_children (model this)) = Some found ->
  findNode nodeId (graph_children (model (updateNodeSize this nodeId w h)))
  = Some match found with
         | Node n =>
             Node (setNodeChildren (setNodeSize n (mkSize w h))
                     (placeByOrdinal Some (fun p => p) (mkSize w h) (node_children n)))
         | Package p children =>
             Package (setPackageSize p (mkSize w h))
                     (placeByOrdinal elementAsPort (@Port num) (mkSize w h) children)
         | other => other
         end.
Proof.
  intros F.
  destruct (updateFound_found nodeId (resize w h) (resize_tag_any w h) (resize_id_any w h)
              _ F) as [children' [U F']].
  unfold updateNodeSize. rewrite U. cbn [model graph_children].
  rewrite F', resize_placeByOrdinal. reflexivity.
Qed.

(** X4.  Resizing the same node twice is the same as resizing it once to the
    last size; in particular a resize to the size the node already has,
    repeated, changes nothing more. *)
Theorem updateNodeSize_last_wins (this : GraphModel num) (nodeId : string)
    (w1 h1 w2 h2 : num) :
  updateNodeSize (updateNodeSize this nodeId w1 h1) nodeId w2 h2
  = updateNodeSize this nodeId w2 h2.
Proof.
  unfold updateNodeSize at 2.
  destruct (updateFound nodeId (resize w1 h1) (graph_children (model this)))
    as [children' |] eqn:U; [| reflexivity].
  unfold updateNodeSize. cbn [model graph_children graph_id edgeCounter].
  rewrite (@updateFound_compose _ nodeId (resize w1 h1) (resize w2 h2)
             (resize_tag_any w1 h1) (resize_id_any w1 h1) _ _ U).
  rewrite (@updateFound_ext _ nodeId (fun e => resize w2 h2 (resize w1 h1 e)) (resize w2 h2))
    by (intros e; apply resize_resize).
  destruct (updateFound nodeId (resize w2 h2) (graph_children (model this))) eqn:V;
    [reflexivity |].
  rewrite (@updateFound_some _ nodeId _ (resize w1 h1) _ V) in U. discriminate.
Qed.

(** X5.  A resize and a move of the same node can be done in either order. *)
Theorem updateNodeSize_updateNodePosition_commute (this : GraphModel num)
    (nodeId : string) (w h x y : num) :
  updateNodePosition (updateNodeSize this nodeId w h) nodeId x y
  = updateNodeSize (updateNodePosition this nodeId x y) nodeId w h.
Proof.
  unfold updateNodeSize at 1. unfold updateNodePosition at 2.
  destruct (updateFound nodeId (resize w h) (graph_children (model this)))
    as [sized |] eqn:U.
  - destruct (updateFound nodeId (moveTo x y) (graph_children (model this)))
      as [moved |] eqn:V;
      [| rewrite (@updateFound_some _ nodeId _ (resize w h) _ V) in U; discriminate].
    unfold updateNodeSize, updateNodePosition.
    cbn [model graph_children graph_id edgeCounter].
    rewrite (@updateFound_compose _ nodeId (resize w h) (moveTo x y)
               (resize_tag_any w h) (resize_id_any w h) _ _ U).
    rewrite (@updateFound_compose _ nodeId (moveTo x y) (resize w h)
               (moveTo_tag x y) (moveTo_id x y) _ _ V).
    rewrite (@updateFound_ext _ nodeId (fun e => moveTo x y (resize w h e))
               (fun e => resize w h (moveTo x y e)))
      by (intros e; destruct e; reflexivity).
    destruct (updateFound nodeId (fun e => resize w h (moveTo x y e))
                (graph_children (model this))) eqn:W; [reflexivity |].
    rewrite (@updateFound_some _ nodeId _ (resize w h) _ W) in U. discriminate.
  - rewrite (@updateFound_some _ nodeId _ (moveTo x y) _ U).
    unfold updateNodeSize, updateNodePosition.
    rewrite U, (@updateFound_some _ nodeId _ (moveTo x y) _ U). reflexivity.
Qed.
End ResizeAnyShape.

(** ** Edges under the operations on nodes *)

Section EdgesUnderUpdates.
Context {num : Type}.
Variable nodeId : string.
Variable upd : SModelElement num -> SModelElement num.
Hypothesis upd_node :
  forall n, exists n', upd (Node n) = Node n' /\ node_id n' = node_id n
                       /\ map (@port_id num) (node_children n')
                          = map (@port_id num) (node_children n).
Hypothesis upd_package : forall p children, exists p' children',
  upd (Package p children) = Package p' children'.

Lemma existsb_port_id (portId : string) (ports ports' : list (SprottyPort num)) :
  map (@port_id num) ports' = map (@port_id num) ports ->
  existsb (fun port => (port_id port =? portId)%string) ports'
  = existsb (fun port => (port_id port =? portId)%string) ports.
Proof.
  revert ports. induction ports' as [| p rest IH]; intros [| q rest'] H; try discriminate;
    [reflexivity |].
  cbn [map] in H. injection H as Hp H. cbn [existsb]. rewrite Hp, (IH _ H). reflexivity.
Qed.

(** What an update through [findNode] does to a top-level child: a node
    keeps its id and the ids of its ports, a package stays a package. *)
Lemma updateFoundAt_top (c c' : SModelElement num) :
  updateFoundAt nodeId upd c = Some c' ->
  (exists n n', c = Node n /\ c' = Node n' /\ node_id n' = node_id n
                /\ map (@port_id num) (node_children n')
                   = map (@port_id num) (node_children n))
  \/ (exists p children p' children', c = Package p children /\ c' = Package p' children').
Proof.
  destruct c as [n | p children | e | p]; cbn [updateFoundAt isNodeElement andb];
    try discriminate;
    destruct (elementId _ =? nodeId)%string; try discriminate; intros H.
  - injection H as <-. left. destruct (upd_node n) as [n' [E [Hid Hports]]].
    rewrite E. exists n, n'. repeat split; assumption.
  - injection H as <-. right. destruct (upd_package p children) as [p' [children' E]].
    rewrite E. exists p, children, p', children'. split; reflexivity.
  - right. destruct (updateFirst (updateFoundAt nodeId upd) children) as [children' |];
      [| discriminate].
    cbn [option_map] in H. injection H as <-.
    exists p, children, p, children'. split; reflexivity.
Qed.

Lemma updateFirst_top (children children' : list (SModelElement num)) :
  updateFirst (updateFoundAt nodeId upd) children = Some children' ->
  (forall portId, extractNodeId_loop children' portId = extractNodeId_loop children portId)
  /\ (forall test : SprottyEdge -> bool,
        existsb (fun child => match child with
                              | Edge e => test e
                              | _ => false
                              end) children'
        = existsb (fun child => match child with
                                | Edge e => test e
                                | _ => false
                                end) children).
Proof.
  revert children'. induction children as [| c rest IH]; intros children'; [discriminate |].
  cbn [updateFirst]. destruct (updateFoundAt nodeId upd c) as [c' |] eqn:F.
  - intros H. injection H as <-.
    destruct (updateFoundAt_top _ F)
      as [[n [n' [-> [-> [Hid Hports]]]]] | [p [cs [p' [cs' [-> ->]]]]]].
    + split; [| reflexivity].
      intros portId. cbn [extractNodeId_loop].
      rewrite (existsb_port_id portId _ _ Hports), Hid. reflexivity.
    + split; reflexivity.
  - destruct (updateFirst (updateFoundAt nodeId upd) rest) as [rest' |]; [| discriminate].
    cbn [option_map]. intros H. injection H as <-.
    destruct (IH rest' eq_refl) as [H1 H2]. split.
    + intros portId. destruct c as [n | p cs | e | p]; cbn [extractNodeId_loop];
        rewrite H1; reflexivity.
    + intros test. cbn [existsb]. rewrite H2. reflexivity.
Qed.

Lemma updateFirst_push_edge (children : list (SModelElement num)) (e : SprottyEdge) :
  updateFirst (updateFoundAt nodeId upd) (children ++ [Edge e])
  = option_map (fun cs => cs ++ [Edge e]) (updateFirst (updateFoundAt nodeId upd) children).
Proof.
  induction children as [| c rest IH]; [reflexivity |].
  cbn [List.app updateFirst]. destruct (updateFoundAt nodeId upd c); [reflexivity |].
  rewrite IH. destruct (updateFirst (updateFoundAt nodeId upd) rest); reflexivity.
Qed.

Lemma validateEdge_updated (this : GraphModel num) (s t : string) :
  validateEdge
    (match updateFound nodeId upd (graph_children (model this)) with
     | Some children' =>
         mkGraphModel (mkGraph (graph_id (model this)) children') (edgeCounter this)
     | None => this
     end) s t
  = validateEdge this s t.
Proof.
  destruct (updateFound nodeId upd (graph_children (model this))) as [children' |] eqn:U;
    [| reflexivity].
  destruct (updateFirst_top _ U) as [H1 H2].
  unfold validateEdge, extractNodeId. cbn [model graph_children].
  rewrite !H1, H2. reflexivity.
Qed.

(** An edge added after the update is the edge added before it. *)
Lemma addEdge_updated (this : GraphModel num) (s t : string) :
  addEdge
    (match updateFound nodeId upd (graph_children (model this)) with
     | Some children' =>
         mkGraphModel (mkGraph (graph_id (model this)) children') (edgeCounter this)
     | None => this
     end) s t
  = (match updateFound nodeId upd (graph_children (model (fst (addEdge this s t)))) with
     | Some children' =>
         mkGraphModel (mkGraph (graph_id (model (fst (addEdge this s t)))) children')
                      (edgeCounter (fst (addEdge this s t)))
     | None => fst (addEdge this s t)
     end,
     snd (addEdge this s t)).
Proof.
  unfold addEdge. rewrite validateEdge_updated.
  destruct (valid (validateEdge this s t)); cbn [negb fst snd]; [| reflexivity].
  cbn [model graph_children graph_id edgeCounter]. unfold updateFound.
  rewrite updateFirst_push_edge.
  destruct (updateFirst (updateFoundAt nodeId upd) (graph_children (model this)));
    reflexivity.
Qed.
(** The edge children and their ids are not touched. *)
Lemma edgeIds_updateFirst (children children' : list (SModelElement num)) :
  updateFirst (updateFoundAt nodeId upd) children = Some children' ->
  flat_map (fun child => match child with
                         | Edge e => [edge_id e]
                         | _ => []
                         end) children'
  = flat_map (fun child => match child with
                           | Edge e => [edge_id e]
                           | _ => []
                           end) children.
Proof.
  revert children'. induction children as [| c rest IH]; intros children'; [discriminate |].
  cbn [updateFirst]. destruct (updateFoundAt nodeId upd c) as [c' |] eqn:F.
  - intros H. injection H as <-.
    destruct (updateFoundAt_top _ F)
      as [[n [n' [-> [-> _]]]] | [p [cs [p' [cs' [-> ->]]]]]]; reflexivity.
  - destruct (updateFirst (updateFoundAt nodeId upd) rest) as [rest' |]; [| discriminate].
    cbn [option_map]. intros H. injection H as <-.
    cbn [flat_map]. rewrite (IH rest' eq_refl). reflexivity.
Qed.
End EdgesUnderUpdates.

Section EdgesAndGeometry.
Context {num : Type} {JN : JsNumber num}.

Lemma port_id_placeFrom (size : NodeSize num) (total seen : PortSide -> nat)
    (ports : list (SprottyPort num)) :
  map (@port_id num) (placeFrom Some (fun p => p) size total seen ports)
  = map (@port_id num) ports.
Proof.
  revert seen. induction ports as [| p rest IH]; intros seen; [reflexivity |].
  cbn [placeFrom]. destruct (side p); cbn [map]; rewrite IH; reflexivity.
Qed.

Lemma resize_node (w h : num) (n : SprottyNode num) :
  exists n', resize w h (Node n) = Node n' /\ node_id n' = node_id n
             /\ map (@port_id num) (node_children n')
                = map (@port_id num) (node_children n).
Proof.
  rewrite resize_placeByOrdinal. eexists. split; [reflexivity |].
  split; [reflexivity |]. apply port_id_placeFrom.
Qed.

Lemma moveTo_node (x y : num) (n : SprottyNode num) :
  exists n', moveTo x y (Node n) = Node n' /\ node_id n' = node_id n
             /\ map (@port_id num) (node_children n')
                = map (@port_id num) (node_children n).
Proof. eexists. split; [reflexivity |]. split; reflexivity. Qed.

(** X6.  Resizing or moving a node has no effect on what [addEdge] does: the
    same call is accepted or refused with the same message, the same edge id
    is allocated, and the two operations can be done in either order. *)
Theorem addEdge_commutes_with_resize_and_move (this : GraphModel num) (nodeId : string)
    (w h x y : num) (s t : string) :
  addEdge (updateNodeSize this nodeId w h) s t
  = (updateNodeSize (fst (addEdge this s t)) nodeId w h, snd (addEdge this s t))
  /\ addEdge (updateNodePosition this nodeId x y) s t
     = (updateNodePosition (fst (addEdge this s t)) nodeId x y, snd (addEdge this s t)).
Proof.
  split.
  - apply (@addEdge_updated _ nodeId (resize w h)); [apply resize_node |].
    intros p children. eexists. eexists. reflexivity.
  - apply (@addEdge_updated _ nodeId (moveTo x y)); [apply moveTo_node |].
    intros p children. eexists. eexists. reflexivity.
Qed.
End EdgesAndGeometry.

(** ** Creation and resize agree *)

Section CreateThenResize.
Context {num : Type} {JN : JsNumber num}.
Implicit Types (ports : list (PortConfig num)) (s : PortSide).

Lemma placeFrom_seen_ext (size : NodeSize num) (total seen seen' : PortSide -> nat)
    (children : list (SprottyPort num)) :
  (forall s, seen s = seen' s) ->
  placeFrom Some (fun p => p) size total seen children
  = placeFrom Some (fun p => p) size total seen' children.
Proof.
  revert seen seen'. induction children as [| c rest IH]; intros seen seen' H;
    [reflexivity |].
  cbn [placeFrom]. destruct (side c) as [s |].
  - rewrite H. f_equal. apply IH. intros s'. unfold bump. rewrite H. reflexivity.
  - f_equal. apply IH. exact H.
Qed.

Lemma length_createSidePorts (id : string) s ports (index total : nat) (size : NodeSize num) :
  List.length (createSidePorts id s ports index total size) = List.length ports.
Proof.
  revert index. induction ports as [| c rest IH]; intros index; [reflexivity |].
  cbn [createSidePorts List.length]. rewrite IH. reflexivity.
Qed.

Lemma countOnSide_createSidePorts (id : string) s s' ports (index total : nat)
    (size : NodeSize num) (rest : list (SprottyPort num)) :
  countOnSide Some (createSidePorts id s' ports index total size ++ rest) s
  = ((if PortSide_eqb s' s then List.length ports else 0) + countOnSide Some rest s)%nat.
Proof.
  unfold countOnSide. revert index. induction ports as [| c more IH]; intros index.
  - cbn [createSidePorts List.app List.length]. destruct (PortSide_eqb s' s); reflexivity.
  - cbn [createSidePorts List.app filter]. unfold onSide at 1. cbn [side].
    destruct (PortSide_eqb s' s) eqn:E; cbn [List.length]; rewrite IH, ?E; reflexivity.
Qed.

(** Placement by ordinal of the ports creation made for one side, when no
    configuration overrides the index, is creation at the new size. *)
Lemma placeFrom_createSidePorts (id : string) s ports (total0 : nat) (size0 size : NodeSize num)
    (total : PortSide -> nat) (rest : list (SprottyPort num)) :
  Forall (fun c => cfg_index c = None) ports ->
  forall (seen : PortSide -> nat),
    placeFrom Some (fun p => p) size total seen
      (createSidePorts id s ports (seen s) total0 size0 ++ rest)
    = createSidePorts id s ports (seen s) (total s) size
      ++ placeFrom Some (fun p => p) size total
           (fun s' => if PortSide_eqb s' s then (seen s' + List.length ports)%nat else seen s')
           rest.
Proof.
  intros H. induction H as [| c more Hc _ IH]; intros seen.
  - cbn [createSidePorts List.app List.length]. apply placeFrom_seen_ext.
    intros s'. destruct (PortSide_eqb s' s); [lia | reflexivity].
  - cbn [createSidePorts List.app placeFrom side]. rewrite Hc. cbn [setPortPosition].
    f_equal.
    assert (E : bump seen s s = S (seen s))
      by (unfold bump; destruct s; reflexivity).
    rewrite <- E, IH, E. f_equal. apply placeFrom_seen_ext.
    intros s'. unfold bump. cbn [List.length].
    destruct (PortSide_eqb s' s) eqn:T; [lia | reflexivity].
Qed.

Lemma placeFrom_createSidePorts_at (id : string) s ports (index total0 : nat)
    (size0 size : NodeSize num) (total seen : PortSide -> nat)
    (rest : list (SprottyPort num)) :
  Forall (fun c => cfg_index c = None) ports ->
  seen s = index ->
  placeFrom Some (fun p => p) size total seen
    (createSidePorts id s ports index total0 size0 ++ rest)
  = createSidePorts id s ports index (total s) size
    ++ placeFrom Some (fun p => p) size total
         (fun s' => if PortSide_eqb s' s then (seen s' + List.length ports)%nat else seen s')
         rest.
Proof. intros H <-. apply placeFrom_createSidePorts. exact H. Qed.

Lemma placeByOrdinal_created (id : string) (x y : num) (name : string) ports
    (size : NodeSize num) (w h : num) (fh fv rotation : option num) :
  Forall (fun c => cfg_index c = None) ports ->
  placeByOrdinal Some (fun p => p) (mkSize w h)
    (node_children (createNodeWithPorts id x y name ports size fh fv rotation))
  = node_children (createNodeWithPorts id x y name ports (mkSize w h) fh fv rotation).
Proof.
  intros H.
  assert (Hs : forall s, Forall (fun c => cfg_index c = None)
                           (filter (fun port => PortSide_eqb (cfg_side port) s) ports)).
  { intros s. apply Forall_forall. intros c Hin. apply filter_In in Hin.
    exact (proj1 (Forall_forall _ _) H c (proj1 Hin)). }
  unfold placeByOrdinal, createNodeWithPorts. cbn [node_children flat_map].
  set (L := filter (fun port => PortSide_eqb (cfg_side port) left) ports).
  set (R := filter (fun port => PortSide_eqb (cfg_side port) right) ports).
  set (T := filter (fun port => PortSide_eqb (cfg_side port) top) ports).
  set (B := filter (fun port => PortSide_eqb (cfg_side port) bottom) ports).
  set (total := countOnSide Some _).
  assert (Ht : forall s, total s = match s with
                                   | left => List.length L
                                   | right => List.length R
                                   | top => List.length T
                                   | bottom => List.length B
                                   end).
  { intros s. unfold total. rewrite !countOnSide_createSidePorts.
    destruct s; cbn [PortSide_eqb countOnSide filter List.length]; lia. }
  rewrite placeFrom_createSidePorts_at by first [exact (Hs left) | reflexivity].
  rewrite placeFrom_createSidePorts_at by first [exact (Hs right) | reflexivity].
  rewrite placeFrom_createSidePorts_at by first [exact (Hs top) | reflexivity].
  rewrite placeFrom_createSidePorts_at by first [exact (Hs bottom) | reflexivity].
  cbn [placeFrom]. rewrite !Ht. reflexivity.
Qed.
Lemma updateFound_pushed (nodeId : string) (upd : SModelElement num -> SModelElement num)
    (children : list (SModelElement num)) (child : SModelElement num) :
  findNode nodeId children = None ->
  isNodeElement child && (elementId child =? nodeId)%string = true ->
  updateFound nodeId upd (children ++ [child]) = Some (children ++ [upd child]).
Proof.
  unfold findNode, updateFound. intros F T.
  induction children as [| c rest IH].
  - cbn [List.app updateFirst]. rewrite (updateFoundAt_hit nodeId upd child T). reflexivity.
  - cbn [firstSome] in F. destruct (findNodeAt nodeId c) eqn:Fc; [discriminate |].
    cbn [List.app updateFirst]. rewrite (updateFoundAt_none nodeId upd c Fc), (IH F).
    reflexivity.
Qed.

(** X7.  Resizing a node just added gives the state that adding it at the
    new size would have given: creation and resize lay the ports out alike,
    when the id is new among the nodes and packages of the tree and no port
    configuration carries an index of its own (an explicit index is used at
    creation and forgotten by the first resize). *)
Theorem updateNodeSize_of_added_node (this : GraphModel num) (id : string) (x y : num)
    (name : string) ports (size : NodeSize num) (fh fv rotation : option num)
    (w h : num) :
  (forall e, occursIn e (graph_children (model this)) ->
             isNodeElement e = true -> elementId e <> id) ->
  Forall (fun c => cfg_index c = None) ports ->
  updateNodeSize (fst (addNodeWithPorts this id x y name ports size fh fv rotation)) id w h
  = fst (addNodeWithPorts this id x y name ports (mkSize w h) fh fv rotation).
Proof.
  intros Hnew Hidx. apply findNode_absent in Hnew.
  unfold updateNodeSize, addNodeWithPorts, pushChild.
  cbn [fst model graph_children graph_id edgeCounter].
  rewrite (updateFound_pushed id (resize w h) _ (Node _) Hnew)
    by (cbn [isNodeElement elementId createNodeWithPorts node_id];
        rewrite String.eqb_refl; reflexivity).
  rewrite resize_placeByOrdinal, (placeByOrdinal_created id x y name size w h fh fv rotation Hidx).
  reflexivity.
Qed.
End CreateThenResize.

(** ** Rounding of the edge counter *)

Section CounterRounding.
Local Open Scope N_scope.

(** Rounding never takes a number from 2^53 on below 2^53. *)
Lemma roundToDouble_large (n m : N) :
  two53 <= n -> roundToDouble n = count m -> two53 <= m.
Proof.
  intros Hn. unfold roundToDouble.
  destruct (n <? two53) eqn:E; [apply N.ltb_lt in E; lia |].
  cbv zeta.
  set (e := N.size n - 53). set (q := N.shiftr n e).
  match goal with |- context [if ?b then q + 1 else q] => set (q' := if b then q + 1 else q) end.
  destruct (1024 <? N.size (N.shiftl q' e)); [discriminate |].
  intros H. injection H as <-.
  assert (Hpos : n <> 0) by (unfold two53 in Hn; lia).
  assert (Hsize : N.size n = N.succ (N.log2 n)) by (apply N.size_log2; exact Hpos).
  assert (Hlog : 53 <= N.log2 n).
  { apply N.log2_le_pow2; [lia |]. exact Hn. }
  assert (He : N.log2 n = 52 + e) by (unfold e; lia).
  destruct (N.log2_spec n) as [Hlo _]; [lia |].
  assert (Hq : 2 ^ 52 <= q).
  { unfold q. rewrite N.shiftr_div_pow2.
    apply N.div_le_lower_bound; [apply N.pow_nonzero; lia |].
    rewrite N.mul_comm, <- N.pow_add_r, <- He. exact Hlo. }
  assert (Hq' : q <= q') by (unfold q'; match goal with |- context [if ?b then _ else _] => destruct b end; lia).
  rewrite N.shiftl_mul_pow2.
  replace two53 with (2 ^ 52 * 2 ^ 1) by reflexivity.
  apply N.mul_le_mono; [lia |].
  apply N.pow_le_mono_r; lia.
Qed.

Lemma roundToDouble_small (n m : N) :
  roundToDouble n = count m -> m < two53 -> n = m.
Proof.
  intros H Hm. destruct (N.lt_ge_cases n two53) as [Hn | Hn].
  - rewrite roundToDouble_exact in H by lia. injection H as <-. reflexivity.
  - assert (Hl := roundToDouble_large Hn H). lia.
Qed.

Lemma increment_small (c : Count) (m : N) :
  increment c = count m -> m < two53 -> exists n, c = count n /\ m = n + 1.
Proof.
  destruct c as [n |]; [| discriminate]. cbn [increment]. intros H Hm.
  exists n. split; [reflexivity |]. symmetry. exact (@roundToDouble_small (n + 1) m H Hm).
Qed.
End CounterRounding.

(** ** Edge ids in the states of the editor *)

Section EdgeIdInvariant.
Context {num : Type} {JN : JsNumber num} {JM : JsMath num} {JJ : JsJson num}.
Variable portElements : string -> option (list (PortMarker num)).

Lemma edgeIds_push_node (this : GraphModel num) (child : SModelElement num) :
  isNodeElement child = true ->
  edgeIds (pushChild this child) = edgeIds this.
Proof.
  intros H. unfold edgeIds, pushChild. cbn [model graph_children].
  rewrite flat_map_app. destruct child; try discriminate; cbn [flat_map];
    rewrite List.app_nil_r; reflexivity.
Qed.

Lemma edgeIds_replaceFirstById (id : string) (n new : SprottyNode num)
    (children : list (SModelElement num)) :
  find (fun child => (elementId child =? id)%string) children = Some (Node n) ->
  flat_map (fun child => match child with
                         | Edge e => [edge_id e]
                         | _ => []
                         end) (replaceFirstById id (Node new) children)
  = flat_map (fun child => match child with
                           | Edge e => [edge_id e]
                           | _ => []
                           end) children.
Proof.
  induction children as [| c rest IH]; [discriminate |].
  cbn [find replaceFirstById]. destruct (elementId c =? id)%string.
  - intros H. injection H as ->. reflexivity.
  - intros H. cbn [flat_map]. rewrite (IH H). reflexivity.
Qed.

Lemma edgeIds_deleteItem (this : GraphModel num) (id : string) :
  incl (edgeIds (deleteItem this id)) (edgeIds this)
  /\ (NoDup (edgeIds this) -> NoDup (edgeIds (deleteItem this id))).
Proof.
  unfold edgeIds, deleteItem. cbn [model graph_children].
  induction (graph_children (model this)) as [| c rest [IHi IHn]];
    [split; [apply incl_refl | auto] |].
  cbn [filter]. destruct c as [n | p cs | e | p].
  - destruct (negb _); cbn [flat_map List.app]; split; assumption.
  - cbn [flat_map List.app]. split; assumption.
  - destruct (negb _); cbn [flat_map List.app]; split.
    + intros a [<- | Ha]; [left; reflexivity | right; apply IHi; exact Ha].
    + intros H. inversion H as [| a l Hnot Hrest]; subst. constructor; [| auto].
      intros Hin. apply Hnot. apply IHi. exact Hin.
    + apply incl_tl. exact IHi.
    + intros H. inversion H; subst. auto.
  - cbn [flat_map List.app]. split; assumption.
Qed.

Lemma edgeIds_recalculate (tree : SprottyGraph num) (counter : Count) :
  edgeIds (mkGraphModel (recalculatePortPositionsForRotatedNodes portElements tree) counter)
  = edgeIds (mkGraphModel tree (count 0)).
Proof.
  unfold edgeIds, recalculatePortPositionsForRotatedNodes. cbn [model graph_children].
  induction (graph_children tree) as [| c rest IH]; [reflexivity |].
  cbn [map flat_map]. rewrite IH. destruct c; reflexivity.
Qed.

Lemma edgeNumbers_bound (tree : SprottyGraph num) (id : string) (n : N) :
  In id (edgeIds (mkGraphModel tree (count 0))) -> edgeNumber id = Some n ->
  (n <= maxNumber (edgeNumbers tree))%N.
Proof.
  unfold edgeIds, edgeNumbers, maxNumber. cbn [model graph_children].
  induction (graph_children tree) as [| c rest IH]; [intros [] |].
  cbn [flat_map]. rewrite fold_right_app. intros Hin Hn. apply in_app_or in Hin.
  assert (Hmono : forall (l : list N) (a : N), (a <= fold_right N.max a l)%N)
    by (intros l a; induction l as [| b l IHl]; cbn [fold_right]; lia).
  destruct Hin as [Hin | Hin].
  - destruct c as [x | p cs | e | p]; try destruct Hin as [Hin | []]; try destruct Hin.
    rewrite Hn. cbn [fold_right]. lia.
  - specialize (IH Hin Hn). etransitivity; [exact IH |]. apply Hmono.
Qed.

Lemma fold_max_Infinity (edges : list (SModelElement num)) :
  fold_left (fun max edge =>
               match matchEdge (elementId edge) with
               | Some group1 => Math_max_Count max (parseInt group1)
               | None => max
               end)
            edges Infinity
  = Infinity.
Proof.
  induction edges as [| e rest IH]; [reflexivity |].
  cbn [fold_left]. destruct (matchEdge (elementId e)); exact IH.
Qed.

(** A counter below 2^53 after a load is the largest number written in an
    edge id. *)
Lemma reduce_max_small (children : list (SModelElement num)) (start result : N) :
  fold_left (fun max edge =>
               match matchEdge (elementId edge) with
               | Some group1 => Math_max_Count max (parseInt group1)
               | None => max
               end)
            (filter isEdge children) (count start)
  = count result ->
  (result < two53)%N ->
  result = N.max start (maxNumber (edgeNumbers (mkGraph "" children))).
Proof.
  unfold edgeNumbers, maxNumber. cbn [graph_children].
  revert start. induction children as [| child rest IH]; intros start H Hr.
  - cbn in H. injection H as <-. cbn. lia.
  - destruct child; cbn [filter isEdge flat_map List.app] in *;
      try exact (IH _ H Hr).
    cbn [fold_left elementId] in H. unfold edgeNumber.
    destruct (matchEdge (edge_id e)) as [group1 |]; cbn [option_map List.app];
      [| exact (IH _ H Hr)].
    unfold parseInt in H.
    destruct (roundToDouble (decimalValue group1)) as [m |] eqn:E;
      cbn [Math_max_Count] in H; [| rewrite fold_max_Infinity in H; discriminate].
    specialize (IH _ H Hr).
    assert (Hm : (m < two53)%N) by lia.
    rewrite (@roundToDouble_small _ _ E Hm). cbn [fold_right]. unfold edgeNumber in IH. lia.
Qed.

Lemma loadFromJson_edgeCounter_small (this : GraphModel num) (tree : SprottyGraph num)
    (c : N) :
  edgeCounter (loadFromJson portElements this tree) = count c -> (c < two53)%N ->
  c = maxNumber (edgeNumbers tree).
Proof.
  unfold loadFromJson. cbn [edgeCounter]. intros H Hc.
  rewrite (@reduce_max_small _ _ _ H Hc). destruct tree. unfold edgeNumbers.
  cbn [graph_children]. lia.
Qed.

Lemma edge_ids_kept (this this' : GraphModel num) :
  edgeIds this' = edgeIds this -> edgeCounter this' = edgeCounter this ->
  edge_ids_in_order this -> edge_ids_in_order this'.
Proof. unfold edge_ids_in_order. intros -> ->. auto. Qed.

Lemma edge_ids_updated (this : GraphModel num) (nodeId : string)
    (upd : SModelElement num -> SModelElement num) :
  (forall n, exists n', upd (Node n) = Node n' /\ node_id n' = node_id n
                        /\ map (@port_id num) (node_children n')
                           = map (@port_id num) (node_children n)) ->
  (forall p children, exists p' children', upd (Package p children) = Package p' children') ->
  forall this',
    this' = match updateFound nodeId upd (graph_children (model this)) with
            | Some children' =>
                mkGraphModel (mkGraph (graph_id (model this)) children') (edgeCounter this)
            | None => this
            end ->
    edgeIds this' = edgeIds this /\ edgeCounter this' = edgeCounter this.
Proof.
  intros Hn Hp this' ->.
  destruct (updateFound nodeId upd (graph_children (model this))) as [children' |] eqn:U;
    [| split; reflexivity].
  split; [| reflexivity]. unfold edgeIds. cbn [model graph_children].
  exact (@edgeIds_updateFirst _ nodeId upd Hn Hp _ _ U).
Qed.

Lemma edge_ids_flipNode (toggle : SprottyNode num -> SprottyNode num)
    (offset : SprottyNode num -> option num)
    (missing : GraphModel num -> Outcome num) (this this' : GraphModel num) (id : string) :
  (forall st st', missing st = Returns st' -> st' = st) ->
  flipNode portElements toggle offset missing this id = Returns this' ->
  edgeIds this' = edgeIds this /\ edgeCounter this' = edgeCounter this.
Proof.
  intros Hm. unfold flipNode.
  destruct (find _ (graph_children (model this))) as [[n | p cs | e | p] |] eqn:F;
    try discriminate.
  - destruct (node_type n), (offset n); try discriminate; intros H; injection H as <-;
      (split; [| reflexivity]); unfold edgeIds; cbn [model graph_children];
      exact (edgeIds_replaceFirstById _ _ _ F).
  - intros H. injection H as <-. split; reflexivity.
  - intros H. injection H as <-. split; reflexivity.
  - intros H. rewrite (Hm _ _ H). split; reflexivity.
Qed.

Lemma edge_ids_duplicateItem (this this' : GraphModel num) (id : string)
    (timestamp : nat) :
  duplicateItem this id timestamp = Returns this' ->
  edgeIds this' = edgeIds this /\ edgeCounter this' = edgeCounter this.
Proof.
  unfold duplicateItem.
  destruct (find _ (graph_children (model this))) as [[n | p cs | e | p] |];
    try discriminate;
    try (intros H; injection H as <-; split; reflexivity);
    destruct (JSON_copy_element _) as [[dn | dp dcs | de | dp] |];
    try discriminate; intros H; injection H as <-;
    (split; [| reflexivity]); apply edgeIds_push_node; reflexivity.
Qed.

Lemma reachable_edge_ids (this : GraphModel num) :
  reachable portElements this -> edge_ids_in_order this.
Proof.
  intros R.
  induction R as [ | this tree R IH Htree | this s t R IH | this nodeId w h R IH
                 | this nodeId x0 y0 R IH
                 | this id x0 y0 name ports size fh fv rotation R IH
                 | this timestamp R IH | this id R IH | this id timestamp this' R IH D
                 | this id this' R IH D | this id this' R IH D
                 | this id this' R IH D | this id this' R IH D
                 | this this' R IH E1 E2 ].
  - intros c Hc _. split; [constructor | intros id n []].
  - intros c Hc Hlt.
    assert (E : edgeIds (loadFromJson portElements this tree)
                = edgeIds (mkGraphModel tree (count 0)))
      by (unfold loadFromJson; apply edgeIds_recalculate).
    rewrite E, (@loadFromJson_edgeCounter_small _ _ _ Hc Hlt). split; [exact Htree |].
    intros id n. apply edgeNumbers_bound.
  - unfold addEdge.
    destruct (valid (validateEdge this s t)); cbn [negb fst]; [| exact IH].
    intros c Hc Hlt. cbn [edgeCounter] in Hc.
    destruct (@increment_small _ _ Hc Hlt) as [c0 [Hc0 ->]].
    destruct (IH c0 Hc0 ltac:(lia)) as [Hnd Hle].
    unfold edgeIds. cbn [model graph_children].
    rewrite flat_map_app. cbn [flat_map edge_id List.app].
    rewrite Hc0, increment_exact, Number_toString_decimal by lia. split.
    + apply NoDup_app; [exact Hnd | constructor; [intros [] | constructor] |].
      intros a Ha [<- | []].
      specialize (Hle _ _ Ha (edgeNumber_edge_id (c0 + 1))). lia.
    + intros id n Hin Hn. apply in_app_or in Hin. destruct Hin as [Hin | [<- | []]].
      * specialize (Hle _ _ Hin Hn). lia.
      * rewrite edgeNumber_edge_id in Hn. injection Hn as <-. lia.
  - destruct (@edge_ids_updated this nodeId (resize w h) (resize_node w h)
                (fun p children => ex_intro _ _ (ex_intro _ _ eq_refl))
                _ eq_refl) as [E1 E2].
    exact (@edge_ids_kept _ _ E1 E2 IH).
  - destruct (@edge_ids_updated this nodeId (moveTo x0 y0) (moveTo_node x0 y0)
                (fun p children => ex_intro _ _ (ex_intro _ _ eq_refl))
                _ eq_refl) as [E1 E2].
    exact (@edge_ids_kept _ _ E1 E2 IH).
  - cbn [addNodeWithPorts fst].
    exact (@edge_ids_kept _ _ (edgeIds_push_node this (Node _) eq_refl) eq_refl IH).
  - unfold addPackageNode, createPackageNode.
    exact (@edge_ids_kept _ _ (edgeIds_push_node this (Package _ _) eq_refl) eq_refl IH).
  - intros c Hc Hlt. destruct (IH c Hc Hlt) as [Hnd Hle].
    destruct (edgeIds_deleteItem this id) as [Hi Hn].
    split; [exact (Hn Hnd) |]. intros a n Ha. exact (Hle a n (Hi a Ha)).
  - destruct (@edge_ids_duplicateItem _ _ _ _ D) as [E1 E2].
    exact (@edge_ids_kept _ _ E1 E2 IH).
  - unfold rotateRightNode, rotateNode in D.
    destruct (find _ (graph_children (model this))) as [[n | p cs | e | p] |] eqn:F;
      try discriminate. injection D as <-.
    apply (@edge_ids_kept this); [| reflexivity | exact IH].
    unfold edgeIds. cbn [model graph_children].
    exact (edgeIds_replaceFirstById _ _ _ F).
  - unfold rotateLeftNode, rotateNode in D.
    destruct (find _ (graph_children (model this))) as [[n | p cs | e | p] |] eqn:F;
      try discriminate. injection D as <-.
    apply (@edge_ids_kept this); [| reflexivity | exact IH].
    unfold edgeIds. cbn [model graph_children].
    exact (edgeIds_replaceFirstById _ _ _ F).
  - unfold flipHorizontalNode in D.
    assert (Hm : forall st st' : GraphModel num, @Throws num = Returns st' -> st' = st)
      by (intros st st' H; discriminate H).
    destruct (edge_ids_flipNode _ _ _ _ _ Hm D) as [E1 E2].
    exact (@edge_ids_kept _ _ E1 E2 IH).
  - unfold flipVerticalNode in D.
    assert (Hm : forall st st' : GraphModel num, Returns st = Returns st' -> st' = st)
      by (intros st st' H; injection H as <-; reflexivity).
    destruct (edge_ids_flipNode _ _ _ _ _ Hm D) as [E1 E2].
    exact (@edge_ids_kept _ _ E1 E2 IH).
  - exact (@edge_ids_kept _ _ E1 E2 IH).
Qed.
Lemma In_edgeIds (this : GraphModel num) (e : SprottyEdge) :
  In (Edge e) (graph_children (model this)) -> In (edge_id e) (edgeIds this).
Proof.
  unfold edgeIds. intros H. apply in_flat_map. exists (Edge e). split; [exact H |].
  left. reflexivity.
Qed.

Lemma filter_all {A : Type} (f : A -> bool) (l : list A) :
  (forall a, In a l -> f a = true) -> filter f l = l.
Proof.
  induction l as [| a rest IH]; intros H; [reflexivity |].
  cbn [filter]. rewrite (H a (or_introl eq_refl)), IH; [reflexivity |].
  intros b Hb. apply H. right. exact Hb.
Qed.

(** X8.  In every state reached from a new model by the operations of the
    editor ([loadFromJson] of trees whose edges have distinct ids,
    [addEdge], [updateNodeSize], [updateNodePosition], [addNodeWithPorts],
    [addPackageNode], from the context menu delete, duplicate, rotate and
    flip, and any step that leaves edge ids and counter alone), as long as
    the edge counter is below 2^53: the edges have pairwise distinct ids,
    the number written in an edge id is at most the counter, and the id
    that [addEdge] allocates next is not taken, also after deletions. *)
Theorem reachable_edge_ids_distinct (this : GraphModel num) (c : N) :
  reachable portElements this ->
  edgeCounter this = count c -> (c < two53)%N ->
  NoDup (edgeIds this)
  /\ (forall id n, In id (edgeIds this) -> edgeNumber id = Some n -> (n <= c)%N)
  /\ Number_toString (increment (edgeCounter this)) = decimal (c + 1)
  /\ ~ In ("edge-" ++ Number_toString (increment (edgeCounter this)))%string
          (edgeIds this).
Proof.
  intros R Hc Hlt. destruct (reachable_edge_ids R Hc Hlt) as [Hnd Hle].
  assert (Hs : Number_toString (increment (edgeCounter this)) = decimal (c + 1))
    by (rewrite Hc, increment_exact, Number_toString_decimal by lia; reflexivity).
  split; [exact Hnd |]. split; [exact Hle |]. split; [exact Hs |].
  rewrite Hs. intros Hin. specialize (Hle _ _ Hin (edgeNumber_edge_id (c + 1))).
  lia.
Qed.

Lemma port_ids_setPositionOfFirst (id : string) (pos : Point num)
    (children : list (SprottyPort num)) :
  map (@port_id num) (setPositionOfFirst id pos children) = map (@port_id num) children.
Proof.
  induction children as [| p rest IH]; [reflexivity |].
  cbn [setPositionOfFirst]. destruct (port_id p =? id)%string; cbn [map]; [reflexivity |].
  rewrite IH. reflexivity.
Qed.

Lemma port_ids_updatePortPositionsFromSvg_loop (nodeId : string)
    (rotation centerX centerY : num) (elements : list (PortMarker num)) (index : nat)
    (children : list (SprottyPort num)) :
  map (@port_id num)
    (updatePortPositionsFromSvg_loop nodeId rotation centerX centerY elements index
       children)
  = map (@port_id num) children.
Proof.
  revert index children. induction elements as [| e rest IH]; intros index children;
    [reflexivity |].
  cbn [updatePortPositionsFromSvg_loop]. rewrite IH. apply port_ids_setPositionOfFirst.
Qed.

(** The repair of a rotated node on load keeps its id and the ids of its
    ports. *)
Lemma recalculateNode_ids (node : SprottyNode num) :
  node_id (recalculateNode portElements node) = node_id node
  /\ map (@port_id num) (node_children (recalculateNode portElements node))
     = map (@port_id num) (node_children node).
Proof.
  unfold recalculateNode. destruct (node_rotation node) as [r |]; [| split; reflexivity].
  match goal with |- context [if ?b then node else _] => destruct b end;
    [split; reflexivity |].
  destruct (strTruthy (svgContent node)).
  - unfold updatePortPositionsFromSvg. destruct (portElements _); [| split; reflexivity].
    cbn [setNodeChildren node_id node_children]. split; [reflexivity |].
    apply port_ids_updatePortPositionsFromSvg_loop.
  - unfold rotateExistingPortPositions. cbn [setNodeChildren node_id node_children].
    split; [reflexivity |]. rewrite map_map. reflexivity.
Qed.

(** Validation reads ids only: it is the same after the repair. *)
Lemma validateEdge_recalculate (tree : SprottyGraph num) (counter counter' : Count)
    (s t : string) :
  validateEdge
    (mkGraphModel (recalculatePortPositionsForRotatedNodes portElements tree) counter) s t
  = validateEdge (mkGraphModel tree counter') s t.
Proof.
  unfold validateEdge, extractNodeId, recalculatePortPositionsForRotatedNodes.
  cbn [model graph_children].
  assert (Hloop : forall portId,
            extractNodeId_loop
              (map (fun child => match child with
                                 | Node node => Node (recalculateNode portElements node)
                                 | other => other
                                 end) (graph_children tree)) portId
            = extractNodeId_loop (graph_children tree) portId).
  { intros portId. generalize (graph_children tree) as children.
    induction children as [| c rest IH]; [reflexivity |].
    cbn [map]. destruct c as [n | p cs | e | p]; cbn [extractNodeId_loop]; try exact IH.
    destruct (recalculateNode_ids n) as [Hid Hports].
    rewrite (@existsb_port_id _ portId _ _ Hports), Hid, IH. reflexivity. }
  rewrite !Hloop.
  assert (Hex : forall f : SprottyEdge -> bool,
            existsb (fun child => match child with
                                  | Edge e => f e
                                  | _ => false
                                  end)
              (map (fun child => match child with
                                 | Node node => Node (recalculateNode portElements node)
                                 | other => other
                                 end) (graph_children tree))
            = existsb (fun child => match child with
                                    | Edge e => f e
                                    | _ => false
                                    end) (graph_children tree)).
  { intros f. generalize (graph_children tree) as children.
    induction children as [| c rest IH]; [reflexivity |].
    cbn [map existsb]. rewrite IH. destruct c; reflexivity. }
  rewrite (Hex (fun e => (sourceId e =? s)%string && (targetId e =? t)%string)).
  reflexivity.
Qed.

Lemma maxNumber_le (numbers : list N) (bound : N) :
  Forall (fun n => (n <= bound)%N) numbers -> (maxNumber numbers <= bound)%N.
Proof.
  intros H. induction H as [| n rest Hn _ IH]; cbn [maxNumber fold_right]; [lia |].
  fold (maxNumber rest). lia.
Qed.

Lemma edgeNumbers_from_ids (this : GraphModel num) (n : N) :
  In n (edgeNumbers (model this)) ->
  exists id, In id (edgeIds this) /\ edgeNumber id = Some n.
Proof.
  unfold edgeNumbers, edgeIds. intros H. apply in_flat_map in H.
  destruct H as [child [Hin Hn]]. destruct child as [x | p cs | e | p]; try destruct Hn.
  destruct (edgeNumber (edge_id e)) as [m |] eqn:E; [| destruct Hn].
  destruct Hn as [<- | []]. exists (edge_id e). split; [| exact E].
  apply in_flat_map. exists (Edge e). split; [exact Hin | left; reflexivity].
Qed.

(** X9.  Edge ids after a deletion.  In a state the editor reaches, with
    the counter [c] and [c + 1] still below 2^53, deleting the edge that a
    successful [addEdge] has just added gives back the tree as it was with
    the counter at [c + 1] (unless a node carries that very id and is
    deleted with it): [deleteItem] does not lower the counter, and the same
    [addEdge] straight after it gets the next number, [c + 2].  A reload of
    the tree as it stands ([loadFromJson]) lowers the counter to the
    largest number left in an edge id; when that is [c], the same [addEdge]
    after the reload is given the id of the deleted edge again. *)
Theorem edge_id_after_delete_and_reload (this : GraphModel num) (s t : string) (c : N) :
  reachable portElements this ->
  edgeCounter this = count c -> (c + 1 < two53)%N ->
  success (snd (addEdge this s t)) = true ->
  (forall n, In (Node n) (graph_children (model this)) ->
             node_id n <> ("edge-" ++ decimal (c + 1))%string) ->
  let deleted := deleteItem (fst (addEdge this s t)) ("edge-" ++ decimal (c + 1)) in
  let reloaded := loadFromJson portElements deleted (getModel deleted) in
  deleted = mkGraphModel (model this) (count (c + 1))
  /\ addEdge deleted s t
     = (mkGraphModel
          (mkGraph (graph_id (model this))
             (graph_children (model this)
              ++ [Edge (mkEdge ("edge-" ++ decimal (c + 2)) s t)]))
          (count (c + 2)),
        mkResult true ("Edge created: " ++ s ++ " " ++ arrow ++ " " ++ t)%string)
  /\ edgeCounter reloaded = count (maxNumber (edgeNumbers (model this)))
  /\ (maxNumber (edgeNumbers (model this)) = c ->
      addEdge reloaded s t
      = (mkGraphModel
           (mkGraph (graph_id (model reloaded))
              (graph_children (model reloaded)
               ++ [Edge (mkEdge ("edge-" ++ decimal (c + 1)) s t)]))
           (count (c + 1)),
         mkResult true ("Edge created: " ++ s ++ " " ++ arrow ++ " " ++ t)%string)).
Proof.
  intros R Hc Hlt Hs Hn deleted reloaded.
  destruct (reachable_edge_ids R Hc ltac:(lia)) as [_ Hle].
  apply addEdge_success_valid in Hs.
  assert (Hid : Number_toString (increment (edgeCounter this)) = decimal (c + 1))
    by (rewrite Hc, increment_exact, Number_toString_decimal by lia; reflexivity).
  assert (Hinc : increment (edgeCounter this) = count (c + 1))
    by (rewrite Hc; apply increment_exact; lia).
  assert (E : deleted = mkGraphModel (model this) (count (c + 1))).
  { unfold deleted. rewrite (addEdge_valid _ _ _ Hs), Hid, Hinc. unfold deleteItem.
    cbn [fst model graph_children graph_id edgeCounter].
    rewrite filter_app. cbn [filter elementId edge_id]. rewrite String.eqb_refl.
    cbn [negb]. rewrite List.app_nil_r, filter_all.
    - destruct this as [[gid children] counter]. reflexivity.
    - intros child Hin. destruct child as [n | p cs | e | p]; try reflexivity.
      + cbn [elementId]. apply negb_true_iff, String.eqb_neq. exact (Hn n Hin).
      + cbn [elementId]. apply negb_true_iff, String.eqb_neq. intros Hide.
        specialize (Hle _ _ (In_edgeIds this e Hin)
                      (eq_trans (f_equal edgeNumber Hide)
                         (edgeNumber_edge_id (c + 1)))).
        lia. }
  assert (Hmax : (maxNumber (edgeNumbers (model this)) <= c)%N).
  { apply maxNumber_le. apply Forall_forall. intros n Hin.
    destruct (edgeNumbers_from_ids this n Hin) as [id [Hi He]].
    exact (Hle _ _ Hi He). }
  split; [exact E |]. split; [| split].
  - rewrite E.
    assert (Hv : valid (validateEdge (mkGraphModel (model this) (count (c + 1))) s t)
                 = true) by exact Hs.
    rewrite (addEdge_valid _ _ _ Hv). cbn [edgeCounter model].
    rewrite increment_exact, Number_toString_decimal by lia.
    replace (c + 1 + 1)%N with (c + 2)%N by lia. reflexivity.
  - unfold reloaded. rewrite E. unfold getModel. cbn [model].
    apply loadFromJson_edgeCounter. lia.
  - intros Hm.
    assert (Hcr : edgeCounter reloaded = count c).
    { unfold reloaded. rewrite E. unfold getModel. cbn [model].
      rewrite loadFromJson_edgeCounter by lia. rewrite Hm. reflexivity. }
    assert (Hv : valid (validateEdge reloaded s t) = true).
    { unfold reloaded, loadFromJson. rewrite E. unfold getModel. cbn [model].
      rewrite (validateEdge_recalculate _ _ (edgeCounter this)).
      destruct this as [tree counter]. exact Hs. }
    rewrite (addEdge_valid _ _ _ Hv), Hcr.
    rewrite increment_exact, Number_toString_decimal by lia. reflexivity.
Qed.
End EdgeIdInvariant.

(** ** Ports of vector nodes under rotations and flips *)

Section FirstPortsLaws.
Context {num : Type} {JN : JsNumber num} {JM : JsMath num}.

Lemma applyFirst_seen (id : string) (pos : Point num) (children : list (SprottyPort num))
    (seen : list string) :
  existsb (String.eqb id) seen = true ->
  applyFirst (fun i => if (i =? id)%string then Some pos else None) seen children
  = children.
Proof.
  revert seen. induction children as [| p rest IH]; intros seen Hs; [reflexivity |].
  cbn [applyFirst]. rewrite IH.
  - destruct (existsb (String.eqb (port_id p)) seen) eqn:E; [reflexivity |].
    destruct (port_id p =? id)%string eqn:Ei; [| reflexivity].
    apply String.eqb_eq in Ei. rewrite Ei, Hs in E. discriminate.
  - cbn [existsb]. rewrite Hs. apply orb_true_r.
Qed.

(** One assignment through [find] is one such walk. *)
Lemma setPositionOfFirst_applyFirst (id : string) (pos : Point num)
    (children : list (SprottyPort num)) (seen : list string) :
  existsb (String.eqb id) seen = false ->
  setPositionOfFirst id pos children
  = applyFirst (fun i => if (i =? id)%string then Some pos else None) seen children.
Proof.
  revert seen. induction children as [| p rest IH]; intros seen Hs; [reflexivity |].
  cbn [setPositionOfFirst applyFirst].
  destruct (port_id p =? id)%string eqn:Ei.
  - apply String.eqb_eq in Ei. rewrite Ei, Hs, applyFirst_seen; [reflexivity |].
    cbn [existsb]. rewrite String.eqb_refl. reflexivity.
  - rewrite <- (IH (port_id p :: seen)).
    + destruct (existsb (String.eqb (port_id p)) seen); reflexivity.
    + cbn [existsb]. rewrite Hs, String.eqb_sym, Ei. reflexivity.
Qed.

(** Two walks are one: the later target wins. *)
Lemma applyFirst_applyFirst (f1 f2 : string -> option (Point num))
    (children : list (SprottyPort num)) (seen : list string) :
  applyFirst f2 seen (applyFirst f1 seen children)
  = applyFirst (fun i => match f2 i with Some pos => Some pos | None => f1 i end)
      seen children.
Proof.
  revert seen. induction children as [| p rest IH]; intros seen; [reflexivity |].
  cbn [applyFirst].
  assert (Hid : port_id (if existsb (String.eqb (port_id p)) seen then p
                         else match f1 (port_id p) with
                              | Some pos => setPortPosition p pos
                              | None => p
                              end) = port_id p)
    by (destruct (existsb _ seen); [| destruct (f1 (port_id p))]; reflexivity).
  rewrite Hid, IH. f_equal.
  destruct (existsb _ seen); [reflexivity |].
  destruct (f1 (port_id p)), (f2 (port_id p)); reflexivity.
Qed.

Lemma applyFirst_ext (f g : string -> option (Point num))
    (children : list (SprottyPort num)) (seen : list string) :
  (forall i, f i = g i) -> applyFirst f seen children = applyFirst g seen children.
Proof.
  intros H. revert seen. induction children as [| p rest IH]; intros seen; [reflexivity |].
  cbn [applyFirst]. rewrite H, IH. reflexivity.
Qed.

Lemma applyFirst_none (f : string -> option (Point num))
    (children : list (SprottyPort num)) (seen : list string) :
  (forall i, f i = None) -> applyFirst f seen children = children.
Proof.
  intros H. revert seen. induction children as [| p rest IH]; intros seen; [reflexivity |].
  cbn [applyFirst]. rewrite H, IH. destruct (existsb _ seen); reflexivity.
Qed.

(** The loop over the markers is one walk over the ports. *)
Lemma updateSvgNodePortPositions_loop_applyFirst (node : SprottyNode num)
    (rotation centerX centerY : num) (elements : list (PortMarker num)) (index : nat)
    (children : list (SprottyPort num)) :
  updateSvgNodePortPositions_loop node rotation centerX centerY elements index children
  = applyFirst (svgTargets node rotation centerX centerY elements index) [] children.
Proof.
  revert index children. induction elements as [| e rest IH]; intros index children.
  - cbn [updateSvgNodePortPositions_loop]. symmetry. apply applyFirst_none.
    reflexivity.
  - cbn [updateSvgNodePortPositions_loop]. rewrite IH.
    rewrite (@setPositionOfFirst_applyFirst _ _ children []) by reflexivity.
    rewrite applyFirst_applyFirst. apply applyFirst_ext. intros i. reflexivity.
Qed.

(** Which ports the markers reach depends on the id of the node only. *)
Lemma svgTargets_reach (node1 node2 : SprottyNode num)
    (rotation1 centerX1 centerY1 rotation2 centerX2 centerY2 : num)
    (elements : list (PortMarker num)) (index : nat) (id : string) :
  node_id node1 = node_id node2 ->
  svgTargets node1 rotation1 centerX1 centerY1 elements index id = None ->
  svgTargets node2 rotation2 centerX2 centerY2 elements index id = None.
Proof.
  intros Hid. revert index. induction elements as [| e rest IH]; intros index;
    [reflexivity |].
  cbn [svgTargets].
  destruct (svgTargets node1 rotation1 centerX1 centerY1 rest (S index) id) eqn:E1;
    [discriminate |].
  rewrite (IH _ E1), Hid.
  destruct (id =? _)%string; [discriminate | reflexivity].
Qed.

(** A round of the loop leaves no trace in a later round over the same
    markers, whatever the rotation, the size and the flips are then. *)
Lemma updateSvgNodePortPositions_loop_absorbs (node1 node2 : SprottyNode num)
    (rotation1 centerX1 centerY1 rotation2 centerX2 centerY2 : num)
    (elements : list (PortMarker num)) (index : nat) (children : list (SprottyPort num)) :
  node_id node1 = node_id node2 ->
  updateSvgNodePortPositions_loop node2 rotation2 centerX2 centerY2 elements index
    (updateSvgNodePortPositions_loop node1 rotation1 centerX1 centerY1 elements index
       children)
  = updateSvgNodePortPositions_loop node2 rotation2 centerX2 centerY2 elements index
      children.
Proof.
  intros Hid. rewrite !updateSvgNodePortPositions_loop_applyFirst, applyFirst_applyFirst.
  apply applyFirst_ext. intros i.
  destruct (svgTargets node2 rotation2 centerX2 centerY2 elements index i) eqn:E2;
    [reflexivity |].
  destruct (svgTargets node1 rotation1 centerX1 centerY1 elements index i) eqn:E1;
    [| reflexivity].
  rewrite (@svgTargets_reach node2 node1 rotation2 centerX2 centerY2
             rotation1 centerX1 centerY1 elements index i (eq_sym Hid) E2) in E1.
  discriminate.
Qed.

(** The loop reads the id, the size and the flips of the node, nothing else. *)
Lemma updateSvgNodePortPositions_loop_ext (node1 node2 : SprottyNode num)
    (rotation centerX centerY : num)
    (elements : list (PortMarker num)) (index : nat) (children : list (SprottyPort num)) :
  node_id node1 = node_id node2 ->
  node_size node1 = node_size node2 ->
  enableFlipHorizontal node1 = enableFlipHorizontal node2 ->
  enableFlipVertical node1 = enableFlipVertical node2 ->
  flipHorizontal node1 = flipHorizontal node2 ->
  flipVertical node1 = flipVertical node2 ->
  updateSvgNodePortPositions_loop node1 rotation centerX centerY elements index children
  = updateSvgNodePortPositions_loop node2 rotation centerX centerY elements index children.
Proof.
  intros Hi Hs Heh Hev Hfh Hfv. revert index children.
  induction elements as [| e rest IH]; intros index children; [reflexivity |].
  cbn [updateSvgNodePortPositions_loop]. rewrite IH, Hi, Hs, Heh, Hev, Hfh, Hfv.
  reflexivity.
Qed.
End FirstPortsLaws.

(** ** Rotations and flips of nodes *)

Section NoDrift.
Context {num : Type} {JN : JsNumber num} {JM : JsMath num}.
Variable portElements : string -> option (list (PortMarker num)).

Lemma updateProcessNodePortPositions_children (node : SprottyNode num)
    (children : list (SprottyPort num)) :
  updateProcessNodePortPositions (setNodeChildren node children)
  = setNodeChildren node
      (node_children (updateProcessNodePortPositions (setNodeChildren node children))).
Proof. reflexivity. Qed.

(** The positions [updateProcessNodePortPositions] gives are computed from
    the original positions, which the first call caches: an earlier call,
    under whatever rotation and flips, leaves no trace in a later one. *)
Lemma updateProcessNodePortPositions_absorbs (g : SprottyNode num -> SprottyNode num)
    (node : SprottyNode num) :
  (forall m children, g (setNodeChildren m children) = setNodeChildren (g m) children) ->
  node_children (g node) = node_children node ->
  updateProcessNodePortPositions (g (updateProcessNodePortPositions node))
  = updateProcessNodePortPositions (g node).
Proof.
  intros Hg Hc. unfold updateProcessNodePortPositions at 2. rewrite Hg.
  unfold updateProcessNodePortPositions. rewrite Hc.
  destruct (g node) as [ty id pos size name cs fh fv eh ev rot svg].
  cbn [node_children node_size node_rotation enableFlipHorizontal enableFlipVertical
       flipHorizontal flipVertical setNodeChildren].
  rewrite map_map. unfold setNodeChildren.
  cbn [node_type node_id node_position node_size node_name node_children flipHorizontal
       flipVertical enableFlipHorizontal enableFlipVertical node_rotation svgContent].
  f_equal.
Qed.
Lemma updateNodePortPositions_process (node : SprottyNode num) :
  svgContent node = None ->
  updateNodePortPositions portElements node = updateProcessNodePortPositions node.
Proof. unfold updateNodePortPositions. intros ->. reflexivity. Qed.

(** The positions [updateSvgNodePortPositions] gives are computed from the
    markers of the payload, and the ports no marker reaches are not
    touched: an earlier call, under whatever rotation and flips, leaves no
    trace in a later one. *)
Lemma updateSvgNodePortPositions_absorbs (g : SprottyNode num -> SprottyNode num)
    (node : SprottyNode num) :
  (forall m children, g (setNodeChildren m children) = setNodeChildren (g m) children) ->
  node_children (g node) = node_children node ->
  svgContent (g node) = svgContent node ->
  node_id (g node) = node_id node ->
  updateSvgNodePortPositions portElements
    (g (updateSvgNodePortPositions portElements node))
  = updateSvgNodePortPositions portElements (g node).
Proof.
  intros Hg Hc Hs Hi. unfold updateSvgNodePortPositions at 2.
  destruct (negb (strTruthy (svgContent node))) eqn:E1; [reflexivity |].
  destruct (portElements (strOrElse (svgContent node) "")) as [elements |] eqn:E2;
    [| reflexivity].
  cbv zeta. rewrite Hg. unfold updateSvgNodePortPositions.
  destruct (g node) as [ty id pos size name cs fh fv eh ev rot svg].
  cbn [node_children svgContent node_id] in Hc, Hs, Hi. subst cs svg id.
  unfold setNodeChildren.
  cbn [node_type node_id node_position node_size node_name node_children flipHorizontal
       flipVertical enableFlipHorizontal enableFlipVertical node_rotation svgContent].
  rewrite E1, E2. f_equal.
  match goal with
  | |- updateSvgNodePortPositions_loop ?a _ _ _ _ _ _
       = updateSvgNodePortPositions_loop ?b _ _ _ _ _ _ =>
      rewrite (@updateSvgNodePortPositions_loop_ext _ _ _ a b) by reflexivity
  end.
  apply updateSvgNodePortPositions_loop_absorbs. reflexivity.
Qed.

Lemma updateNodePortPositions_svgContent (node : SprottyNode num) :
  svgContent (updateNodePortPositions portElements node) = svgContent node.
Proof.
  unfold updateNodePortPositions, updateSvgNodePortPositions,
    updateProcessNodePortPositions.
  destruct (svgContent node) eqn:E; [| exact E].
  destruct (negb _); [exact E |]. destruct (portElements _); exact E.
Qed.

Lemma updateNodePortPositions_absorbs (g : SprottyNode num -> SprottyNode num)
    (node : SprottyNode num) :
  (forall m children, g (setNodeChildren m children) = setNodeChildren (g m) children) ->
  (forall m, node_children (g m) = node_children m) ->
  (forall m, svgContent (g m) = svgContent m) ->
  (forall m, node_id (g m) = node_id m) ->
  updateNodePortPositions portElements (g (updateNodePortPositions portElements node))
  = updateNodePortPositions portElements (g node).
Proof.
  intros Hg Hc Hs Hi.
  assert (E : svgContent (g (updateNodePortPositions portElements node))
              = svgContent (g node))
    by (rewrite !Hs; apply updateNodePortPositions_svgContent).
  unfold updateNodePortPositions at 1 3. rewrite E, Hs.
  unfold updateNodePortPositions. destruct (svgContent node).
  - apply updateSvgNodePortPositions_absorbs; [exact Hg | apply Hc | apply Hs | apply Hi].
  - apply updateProcessNodePortPositions_absorbs; [exact Hg | apply Hc].
Qed.

Lemma replaceFirstById_twice (id : string) (a b : SModelElement num)
    (children : list (SModelElement num)) :
  elementId a = id ->
  replaceFirstById id b (replaceFirstById id a children) = replaceFirstById id b children.
Proof.
  intros Ha. induction children as [| c rest IH]; [reflexivity |].
  cbn [replaceFirstById]. destruct (elementId c =? id)%string eqn:E; cbn [replaceFirstById].
  - rewrite Ha, String.eqb_refl. reflexivity.
  - rewrite E, IH. reflexivity.
Qed.

Lemma replaceFirstById_found (id : string) (found : SModelElement num)
    (children : list (SModelElement num)) :
  find (fun child => (elementId child =? id)%string) children = Some found ->
  replaceFirstById id found children = children.
Proof.
  induction children as [| c rest IH]; [discriminate |].
  cbn [find replaceFirstById]. destruct (elementId c =? id)%string.
  - intros H. injection H as ->. reflexivity.
  - intros H. rewrite (IH H). reflexivity.
Qed.

Lemma find_elementId (id : string) (found : SModelElement num)
    (children : list (SModelElement num)) :
  find (fun child => (elementId child =? id)%string) children = Some found ->
  elementId found = id.
Proof.
  intros H. apply find_some in H. destruct H as [_ H]. apply String.eqb_eq. exact H.
Qed.

Lemma rotateTimes_S (rotate : GraphModel num -> string -> RotateOutcome num)
    (times : nat) (this : GraphModel num) (id : string) :
  rotateTimes rotate (S times) this id
  = match rotate this id with
    | Rotated this' => rotateTimes rotate times this' id
    | other => other
    end.
Proof. reflexivity. Qed.

Lemma rotateTimes_settles (newRotation : option num -> num) (times : nat)
    (this : GraphModel num) (id : string) (n : SprottyNode num) :
  find (fun child => (elementId child =? id)%string) (graph_children (model this))
  = Some (Node n) ->
  rotateTimes (rotateNode portElements newRotation) (S times) this id
  = Rotated
      (mkGraphModel
         (mkGraph (graph_id (model this))
            (replaceFirstById id
               (Node (updateNodePortPositions portElements
                        (setNodeRotation n
                           (Nat.iter (S times) (fun r => Some (newRotation r))
                              (node_rotation n)))))
               (graph_children (model this))))
         (edgeCounter this)).
Proof.
  revert this n. induction times as [| times IH]; intros this n F.
  - cbn [rotateTimes]. unfold rotateNode. rewrite F. reflexivity.
  - rewrite rotateTimes_S. unfold rotateNode at 1. rewrite F.
    set (n1 := updateNodePortPositions portElements
                 (setNodeRotation n (Some (newRotation (node_rotation n))))).
    assert (Hid : elementId (Node n1) = id)
      by (cbn [elementId]; unfold n1; rewrite updateNodePortPositions_id;
          exact (find_elementId _ _ F)).
    rewrite (IH _ n1);
      [| cbn [model graph_children]; exact (find_replaceFirstById _ _ Hid F)].
    cbn [model graph_children graph_id edgeCounter].
    rewrite (replaceFirstById_twice _ _ _ Hid). do 4 f_equal.
    assert (Hr : node_rotation n1 = Some (newRotation (node_rotation n)))
      by (unfold n1; rewrite updateNodePortPositions_rotation; reflexivity).
    rewrite Hr, (Nat.iter_succ_r (S times)). unfold n1.
    rewrite (updateNodePortPositions_absorbs (fun m => setNodeRotation m _));
      reflexivity.
Qed.

Lemma updateNodePortPositions_shape (node : SprottyNode num) :
  exists children,
    updateNodePortPositions portElements node = setNodeChildren node children.
Proof.
  assert (E : node = setNodeChildren node (node_children node))
    by (destruct node; reflexivity).
  unfold updateNodePortPositions, updateSvgNodePortPositions,
    updateProcessNodePortPositions.
  destruct (svgContent node); [| eexists; reflexivity].
  destruct (negb _); [exists (node_children node); exact E |].
  destruct (portElements _); [eexists; reflexivity |].
  exists (node_children node). exact E.
Qed.

(** X10.  The node a series of rotations leaves behind is the node one
    rotation straight to the last angle leaves, for a process node and for
    a vector node alike: the port positions of a process node are always
    recomputed from the positions cached before the first rotation, those
    of a vector node from the markers of its payload, and a port no marker
    reaches is never moved.  So rounding does not accumulate from one
    rotation to the next, whatever the arithmetic of the numbers is. *)
Theorem rotations_leave_no_drift (times : nat) (this : GraphModel num) (id : string)
    (n : SprottyNode num) :
  find (fun child => (elementId child =? id)%string) (graph_children (model this))
  = Some (Node n) ->
  let after newRotation :=
    Rotated
      (mkGraphModel
         (mkGraph (graph_id (model this))
            (replaceFirstById id
               (Node (updateNodePortPositions portElements
                        (setNodeRotation n
                           (Nat.iter (S times) (fun r => Some (newRotation r))
                              (node_rotation n)))))
               (graph_children (model this))))
         (edgeCounter this)) in
  rotateRightTimes portElements (S times) this id = after rotateRight_newRotation
  /\ rotateLeftTimes portElements (S times) this id = after rotateLeft_newRotation.
Proof.
  intros F after. split; apply rotateTimes_settles; assumption.
Qed.
Lemma flipNode_twice (toggle : SprottyNode num -> SprottyNode num)
    (offset : SprottyNode num -> option num)
    (missing : GraphModel num -> Outcome num)
    (this : GraphModel num) (id : string) (n : SprottyNode num) :
  (forall m children, toggle (setNodeChildren m children)
                      = setNodeChildren (toggle m) children) ->
  (forall m, node_children (toggle m) = node_children m) ->
  (forall m, svgContent (toggle m) = svgContent m) ->
  (forall m, node_type (toggle m) = node_type m) ->
  (forall m, node_id (toggle m) = node_id m) ->
  (forall m, offset (toggle m) = offset m) ->
  (forall m children, offset (setNodeChildren m children) = offset m) ->
  (forall m, toggle (toggle m) = m) ->
  find (fun child => (elementId child =? id)%string) (graph_children (model this))
  = Some (Node n) ->
  (node_type n = node_svg -> offset n <> None) ->
  exists this1,
    flipNode portElements toggle offset missing this id = Returns this1
    /\ flipNode portElements toggle offset missing this1 id
       = Returns
           (mkGraphModel
              (mkGraph (graph_id (model this))
                 (replaceFirstById id (Node (updateNodePortPositions portElements n))
                    (graph_children (model this))))
              (edgeCounter this)).
Proof.
  intros Hg Hc Hs Ht Hi Ho Hoc Hinv F Hoff.
  assert (Hid : elementId (Node (updateNodePortPositions portElements (toggle n))) = id)
    by (cbn [elementId]; rewrite updateNodePortPositions_id, Hi;
        exact (find_elementId _ _ F)).
  assert (Hflip : forall m (result : Outcome num),
            node_type m = node_type n -> offset m = offset n ->
            match node_type m, offset m with
            | node_svg, None => NotCovered
            | _, _ => result
            end = result).
  { intros m result -> ->. destruct (node_type n); [reflexivity |].
    destruct (offset n); [reflexivity |]. exfalso. exact (Hoff eq_refl eq_refl). }
  eexists. split.
  - unfold flipNode. rewrite F. apply Hflip; reflexivity.
  - unfold flipNode. cbn [model graph_children graph_id edgeCounter].
    rewrite (find_replaceFirstById _ _ Hid F).
    destruct (updateNodePortPositions_shape (toggle n)) as [cs Ecs].
    rewrite Hflip;
      [| rewrite Ecs; cbn [setNodeChildren node_type]; apply Ht
       | rewrite Ecs, Hoc; apply Ho].
    rewrite (replaceFirstById_twice _ _ _ Hid).
    rewrite (updateNodePortPositions_absorbs toggle (toggle n) Hg Hc Hs Hi), Hinv.
    reflexivity.
Qed.

(** X11.  Flipping a node twice the same way, horizontally or vertically,
    gives the node [updateNodePortPositions] makes of the one before the
    flips, under whatever rotation: the flag is back and the ports are
    placed from their cached original positions (process node) or from the
    markers of the payload (vector node with flip offsets).  When the node
    already is as [updateNodePortPositions] leaves it, as after any rotation
    or flip, the whole state is back to what it was. *)
Theorem flip_twice_restores (this : GraphModel num) (id : string) (n : SprottyNode num) :
  find (fun child => (elementId child =? id)%string) (graph_children (model this))
  = Some (Node n) ->
  (node_type n = node_svg -> flipHorizontal n <> None /\ flipVertical n <> None) ->
  let back :=
    mkGraphModel
      (mkGraph (graph_id (model this))
         (replaceFirstById id (Node (updateNodePortPositions portElements n))
            (graph_children (model this))))
      (edgeCounter this) in
  (exists this1, flipHorizontalNode portElements this id = Returns this1
                 /\ flipHorizontalNode portElements this1 id = Returns back)
  /\ (exists this1, flipVerticalNode portElements this id = Returns this1
                    /\ flipVerticalNode portElements this1 id = Returns back)
  /\ (updateNodePortPositions portElements n = n -> back = this).
Proof.
  intros F Hoff back. split; [| split].
  - apply flipNode_twice; try reflexivity; try assumption.
    + intros [ty i pos size name cs fh fv [] ev rot svg]; reflexivity.
    + intros Hty. apply (Hoff Hty).
  - apply flipNode_twice; try reflexivity; try assumption.
    + intros [ty i pos size name cs fh fv eh [] rot svg]; reflexivity.
    + intros Hty. apply (Hoff Hty).
  - intros E. unfold back. rewrite E, (replaceFirstById_found _ _ F).
    destruct this as [[gid children] counter]. reflexivity.
Qed.
End NoDrift.

Section FullTurn.
Context {JM : JsMath Q}.
Variable portElements : string -> option (list (PortMarker Q)).
Local Open Scope Q_scope.

Lemma point_eta (p : Point Q) : mkPoint (x p) (y p) = p.
Proof. destruct p; reflexivity. Qed.

(** The ports of a process node without flips once the rotation stored is
    in the neutral band: each is at its original position. *)
Lemma updateProcessNodePortPositions_neutral (n : SprottyNode Q) (r : Q) :
  (strictEq r (lit 0) = true \/ strictEq r (lit 360) = true
   \/ strictEq r (neg (lit 360)) = true) ->
  truthy r = true \/ r = 0 ->
  enableFlipHorizontal n = false -> enableFlipVertical n = false ->
  Forall (fun p => match originalPosition p with
                   | Some o => o = port_position p
                   | None => True
                   end) (node_children n) ->
  map (@port_position Q)
    (node_children (updateProcessNodePortPositions (setNodeRotation n (Some r))))
  = map (@port_position Q) (node_children n).
Proof.
  intros Hr Ht Hh Hv Hp. unfold updateProcessNodePortPositions.
  cbn [node_children setNodeChildren setNodeRotation node_rotation enableFlipHorizontal
       enableFlipVertical node_size flipHorizontal flipVertical].
  rewrite Hh, Hv, map_map.
  assert (E : optOrElse (Some r) (lit 0) = r).
  { unfold optOrElse, orElse. destruct Ht as [-> | ->]; reflexivity. }
  rewrite E. clear E.
  induction Hp as [| p rest Hp _ IH]; [reflexivity |].
  cbn [map]. rewrite IH. f_equal.
  rewrite (calculatePortPositionWithRotation_neutral _ _ _ _ r _ _ Hr).
  cbn [port_position setPortPosition].
  destruct (originalPosition p) as [o |]; [subst o |]; apply point_eta.
Qed.

(** X12.  Four rotations in the same direction bring every port of a process
    node back to where it was, exactly, whatever [Math.cos] and [Math.sin]
    return: the node starts unrotated and without flips, its ports where
    their cached original positions are (or with nothing cached), and the
    angle stored after the fourth rotation, 360 or -360, is in the band
    [calculatePortPositionWithRotation] leaves alone. *)
Theorem full_turn_restores_ports (this : GraphModel Q) (id : string) (n : SprottyNode Q) :
  find (fun child => (elementId child =? id)%string) (graph_children (model this))
  = Some (Node n) ->
  svgContent n = None ->
  node_rotation n = None \/ (exists v, node_rotation n = Some v /\ v == 0) ->
  enableFlipHorizontal n = false -> enableFlipVertical n = false ->
  Forall (fun p => match originalPosition p with
                   | Some o => o = port_position p
                   | None => True
                   end) (node_children n) ->
  (exists this4 n4,
      rotateRightTimes portElements 4 this id = Rotated this4
      /\ find (fun child => (elementId child =? id)%string) (graph_children (model this4))
         = Some (Node n4)
      /\ map (@port_position Q) (node_children n4)
         = map (@port_position Q) (node_children n))
  /\ (exists this4 n4,
         rotateLeftTimes portElements 4 this id = Rotated this4
         /\ find (fun child => (elementId child =? id)%string)
              (graph_children (model this4))
            = Some (Node n4)
         /\ map (@port_position Q) (node_children n4)
            = map (@port_position Q) (node_children n)).
Proof.
  intros F Hs Hr Hh Hv Hp.
  assert (HR := rotateRight_from_zero Hr). assert (HL := rotateLeft_from_zero Hr).
  unfold rotateRightTimes, rotateLeftTimes, rotateRightNode, rotateLeftNode.
  split.
  - rewrite (rotateTimes_settles portElements rotateRight_newRotation 3 this id F).
    eexists. eexists. split; [reflexivity |]. cbn [model graph_children]. split.
    + apply find_replaceFirstById with (found := Node n); [| exact F].
      cbn [elementId]. rewrite updateNodePortPositions_id. exact (find_elementId _ _ F).
    + rewrite Nat.iter_succ_r, HR.
      rewrite updateNodePortPositions_process by exact Hs.
      apply updateProcessNodePortPositions_neutral; auto.
  - rewrite (rotateTimes_settles portElements rotateLeft_newRotation 3 this id F).
    eexists. eexists. split; [reflexivity |]. cbn [model graph_children]. split.
    + apply find_replaceFirstById with (found := Node n); [| exact F].
      cbn [elementId]. rewrite updateNodePortPositions_id. exact (find_elementId _ _ F).
    + rewrite Nat.iter_succ_r, HL.
      rewrite updateNodePortPositions_process by exact Hs.
      apply updateProcessNodePortPositions_neutral; auto.
Qed.
End FullTurn.

(** ** Drawing an edge with the mouse *)

Section EdgeGestures.
Context {num : Type} {JN : JsNumber num}.
Variable onModelUpdate : GraphModel num -> GraphModel num.

Lemma handleMouseMove_keeps (this : EdgeCreator num) (svg : bool) (mousePos : Point num) :
  graphModel (handleMouseMove this svg mousePos) = graphModel this
  /\ state (handleMouseMove this svg mousePos) = state this.
Proof.
  unfold handleMouseMove.
  destruct (isCreating (state this)), (feedbackLine this), (sourcePosition (state this)),
    svg; split; reflexivity.
Qed.

Lemma handleAll_moves (this : EdgeCreator num) (moves : list (bool * Point num)) :
  graphModel (handleAll onModelUpdate this
                (map (fun m => MouseMove (fst m) (snd m)) moves))
  = graphModel this
  /\ state (handleAll onModelUpdate this (map (fun m => MouseMove (fst m) (snd m)) moves))
     = state this.
Proof.
  unfold handleAll. revert this. induction moves as [| m rest IH]; intros this;
    [split; reflexivity |].
  cbn [map fold_left handle]. destruct (IH (handleMouseMove this (fst m) (snd m))) as [G S].
  destruct (handleMouseMove_keeps this (fst m) (snd m)) as [G' S'].
  rewrite G, S. split; assumption.
Qed.

(** X13.  A drag that starts on an output port, moves about and is released
    over an input port does to the model exactly what [addEdge] does with
    the ids of the two ports, calls the update callback when the edge was
    added and only then, and leaves the creator idle with no feedback line,
    in whatever state the creator was before.  With an empty source id no
    edge is attempted. *)
Theorem drag_from_output_to_input (this : EdgeCreator num) (source target : string)
    (position : Point num) (layer : bool) (moves : list (bool * Point num)) :
  handleAll onModelUpdate this
    (MouseDown (Some (mkDomPortInfo source output)) position layer
     :: map (fun m => MouseMove (fst m) (snd m)) moves
     ++ [MouseUp (Some (Some (mkDomPortInfo target input)))])
  = newEdgeCreator
      (if (source =? "")%string then graphModel this
       else if success (snd (addEdge (graphModel this) source target))
            then onModelUpdate (fst (addEdge (graphModel this) source target))
            else fst (addEdge (graphModel this) source target)).
Proof.
  unfold handleAll. cbn [fold_left handle handleMouseDown info_type info_id].
  rewrite fold_left_app. cbn [fold_left handle].
  set (started := mkEdgeCreator _ _ _).
  destruct (handleAll_moves started moves) as [G S]. unfold handleAll in G, S.
  unfold handleMouseUp. rewrite S, G. unfold started.
  cbn [state isCreating negb sourcePortId graphModel info_type info_id].
  unfold strTruthy, strOrElse.
  destruct (source =? "")%string eqn:E.
  - apply String.eqb_eq in E. subst source. reflexivity.
  - destruct source as [| c s]; [discriminate |]. cbn [negb].
    destruct (addEdge (graphModel this) (String c s) target) as [gm result].
    reflexivity.
Qed.
Lemma handle_keeps_clean (this : EdgeCreator num) (e : MouseEvent num) :
  (if isCreating (state this)
   then exists id pos, sourcePortId (state this) = Some id
                       /\ sourcePosition (state this) = Some pos
   else state this = mkEdgeCreationState false None None /\ feedbackLine this = None) ->
  if isCreating (state (handle onModelUpdate this e))
  then exists id pos, sourcePortId (state (handle onModelUpdate this e)) = Some id
                      /\ sourcePosition (state (handle onModelUpdate this e)) = Some pos
  else state (handle onModelUpdate this e) = mkEdgeCreationState false None None
       /\ feedbackLine (handle onModelUpdate this e) = None.
Proof.
  intros H. destruct e as [portInfo position layer | svg mousePos | target | key];
    cbn [handle].
  - unfold handleMouseDown. destruct portInfo as [[id []] |]; cbn [info_type]; try exact H.
    cbn [state isCreating sourcePortId sourcePosition info_id]. eauto.
  - destruct (handleMouseMove_keeps this svg mousePos) as [_ S]. rewrite S.
    destruct (isCreating (state this)) eqn:C; [exact H |].
    split; [exact (proj1 H) |]. unfold handleMouseMove. rewrite C. exact (proj2 H).
  - unfold handleMouseUp. destruct (isCreating (state this)) eqn:C; cbn [negb].
    + cbn [cleanup state isCreating feedbackLine]. split; reflexivity.
    + rewrite C. exact H.
  - unfold handleKeyDown.
    destruct ((key =? "Escape")%string && isCreating (state this)) eqn:K.
    + cbn [cleanup state isCreating feedbackLine]. split; reflexivity.
    + exact H.
Qed.

(** X14.  Whatever the sequence of mouse and key events after construction:
    while no edge is being drawn the creator holds no source port, no source
    position and no feedback line; while one is being drawn it holds a
    source port and its position; and a mouse-up always ends the drawing, as
    does Escape. *)
Theorem creator_idle_is_clean (graph : GraphModel num) (events : list (MouseEvent num)) :
  let now := handleAll onModelUpdate (newEdgeCreator graph) events in
  (if isCreating (state now)
   then exists id pos, sourcePortId (state now) = Some id
                       /\ sourcePosition (state now) = Some pos
   else state now = mkEdgeCreationState false None None /\ feedbackLine now = None)
  /\ (forall target, isCreating (state (handle onModelUpdate now (MouseUp target))) = false)
  /\ isCreating (state (handle onModelUpdate now (KeyDown "Escape"))) = false.
Proof.
  intros now. split; [| split].
  - unfold now, handleAll. induction events as [| e rest IH] using rev_ind.
    + cbn. split; reflexivity.
    + rewrite fold_left_app. cbn [fold_left]. apply handle_keeps_clean. exact IH.
  - intros target. cbn [handle]. unfold handleMouseUp.
    destruct (isCreating (state now)) eqn:C; cbn [negb]; [reflexivity | exact C].
  - cbn [handle]. unfold handleKeyDown. cbn [String.eqb Ascii.eqb Bool.eqb andb].
    destruct (isCreating (state now)) eqn:C; [reflexivity | exact C].
Qed.
End EdgeGestures.

(** ** The resize command and the model agree *)

Section ResizeCommandLayout.
Context {num : Type} {JN : JsNumber num}.
Implicit Types (children : list (SprottyPort num)) (s : PortSide).

Lemma assignBounds_assignPosition (ref : nat) (pos : Point num) children :
  assignBounds ref pos children = assignPosition Some (fun p => p) ref pos children.
Proof.
  revert ref. induction children as [| c rest IH]; intros [| ref]; cbn; reflexivity.
Qed.

Lemma ResizeCommand_side_repositionSide s (ports : list nat) (index total : nat)
    (w h : num) children :
  ResizeCommand_side s ports index total w h children
  = repositionSide Some (fun p => p) s ports index total (mkSize w h) children.
Proof.
  revert index children. induction ports as [| p rest IH]; intros index children;
    [reflexivity |].
  cbn [ResizeCommand_side repositionSide]. rewrite IH, assignBounds_assignPosition.
  destruct s; reflexivity.
Qed.

Lemma ResizeCommand_portsPerSide_sided s (i : nat) children :
  Forall (fun p => side p <> None) children ->
  ResizeCommand_portsPerSide s i children = portsPerSide Some s i children.
Proof.
  intros H. revert i. induction H as [| c rest Hc _ IH]; intros i; [reflexivity |].
  cbn [ResizeCommand_portsPerSide portsPerSide]. unfold onSide, sideOrLeft.
  destruct (side c); [| contradiction]. rewrite IH. reflexivity.
Qed.

(** The layout of the command is the layout of [updateNodeSize] when every
    port has a side. *)
Lemma ResizeCommand_updatePortPositions_sided (w h : num) children :
  Forall (fun p => side p <> None) children ->
  ResizeCommand_updatePortPositions w h children
  = repositionPorts Some (fun p => p) (mkSize w h) children.
Proof.
  intros H. unfold ResizeCommand_updatePortPositions, repositionPorts. cbn [fold_left].
  rewrite !ResizeCommand_side_repositionSide, !ResizeCommand_portsPerSide_sided by exact H.
  reflexivity.
Qed.

Lemma sided_placeFrom (size : NodeSize num) (total seen : PortSide -> nat) children :
  Forall (fun p => side p <> None) children ->
  Forall (fun p => side p <> None) (placeFrom Some (fun p => p) size total seen children).
Proof.
  intros H. revert seen. induction H as [| c rest Hc _ IH]; intros seen; [constructor |].
  cbn [placeFrom]. destruct (side c) eqn:S; [| contradiction].
  constructor; [cbn [side setPortPosition]; rewrite S; discriminate | apply IH].
Qed.
(** X15.  When every port of the node has a side, executing a resize command
    on the rendered node is a move to the origin of the new bounds together
    with the resize [updateNodeSize] does for the new extent: the command's
    own copy of the layout and the model's give the same port positions, so
    that the picture and the model do not part. *)
Theorem ResizeCommand_execute_as_model (this : ResizeCommand num) (n : SprottyNode num) :
  Forall (fun p => side p <> None) (node_children n) ->
  option_map (@Node num) (snd (ResizeCommand_execute this (Some n)))
  = Some (moveTo (bounds_x (rc_newBounds this)) (bounds_y (rc_newBounds this))
            (resize (bounds_width (rc_newBounds this)) (bounds_height (rc_newBounds this))
               (Node n)))
  /\ rc_oldBounds (fst (ResizeCommand_execute this (Some n))) = Some (nodeBounds n).
Proof.
  intros H. split; [| reflexivity].
  cbn [ResizeCommand_execute snd option_map resize moveTo].
  rewrite (ResizeCommand_updatePortPositions_sided _ _ H). reflexivity.
Qed.

(** X16.  Undo after execute gives the node its old position and size back,
    and lays its ports out for the old size; the ports are not put back
    where they were.  So the node is restored exactly when its ports were
    where the layout puts them, and only the bounds otherwise.  Every port
    is taken to have a side. *)
Theorem ResizeCommand_undo_after_execute (this : ResizeCommand num) (n : SprottyNode num) :
  Forall (fun p => side p <> None) (node_children n) ->
  let laidOut := placeByOrdinal Some (fun p => p) (node_size n) (node_children n) in
  snd (ResizeCommand_undo (fst (ResizeCommand_execute this (Some n)))
         (snd (ResizeCommand_execute this (Some n))))
  = Some (setNodeChildren n laidOut)
  /\ (laidOut = node_children n ->
      snd (ResizeCommand_undo (fst (ResizeCommand_execute this (Some n)))
             (snd (ResizeCommand_execute this (Some n))))
      = Some n).
Proof.
  intros H laidOut.
  assert (E : snd (ResizeCommand_undo (fst (ResizeCommand_execute this (Some n)))
                     (snd (ResizeCommand_execute this (Some n))))
              = Some (setNodeChildren n laidOut)).
  { cbn [ResizeCommand_execute ResizeCommand_undo fst snd rc_oldBounds].
    cbn [node_children setNodeChildren nodeBounds bounds_width bounds_height].
    rewrite (ResizeCommand_updatePortPositions_sided _ _ H).
    rewrite (repositionPorts_placeByOrdinal Some (fun p => p) (fun p => eq_refl)).
    rewrite ResizeCommand_updatePortPositions_sided by (apply sided_placeFrom; exact H).
    rewrite (repositionPorts_placeByOrdinal Some (fun p => p) (fun p => eq_refl)).
    rewrite (placeByOrdinal_twice Some (fun p => p) (fun p => eq_refl)).
    unfold laidOut.
    destruct n as [ty id [px py] [w h] name cs fh fv eh ev rot svg]. reflexivity. }
  split; [exact E |]. intros L. rewrite E, L. destruct n; reflexivity.
Qed.
End ResizeCommandLayout.

(** ** Nodes inside packages and edges *)

Section InsidePackages.
Context {num : Type} {JN : JsNumber num}.

Lemma extractNodeId_loop_unowned (children : list (SModelElement num)) (portId : string) :
  (forall child, In child children -> ownsPort portId child = false) ->
  extractNodeId_loop children portId = None.
Proof.
  induction children as [| c rest IH]; intros H; [reflexivity |].
  assert (Hc := H c (or_introl eq_refl)).
  assert (Hrest := IH (fun child Hin => H child (or_intror Hin))).
  destruct c as [n | p cs | e | p]; cbn [extractNodeId_loop]; try exact Hrest.
  cbn [ownsPort] in Hc. rewrite Hc. exact Hrest.
Qed.

Lemma extractNodeId_loop_push_package (children : list (SModelElement num))
    (p : PackageInfo num) (inside : list (SModelElement num)) (portId : string) :
  extractNodeId_loop (children ++ [Package p inside]) portId
  = extractNodeId_loop children portId.
Proof.
  induction children as [| c rest IH]; [reflexivity |].
  destruct c as [n | q cs | e | q]; cbn [List.app extractNodeId_loop]; try exact IH.
  rewrite IH. reflexivity.
Qed.

(** X17.  The package [addPackageNode] adds holds two process nodes whose
    ports have the ids [child-node1-in], [child-node1-out], [child-node2-in]
    and [child-node2-out].  Owner lookup does not look inside packages, so
    each of these ids resolves to the text before its first hyphen,
    [child]: unless a top-level node owns a port with one of these ids,
    [addEdge] refuses every connection among the four ports as a
    connection of a node to itself, also between the two different
    children. *)
Theorem sample_package_ports_cannot_be_connected (this : GraphModel num) (timestamp : nat)
    (s t : string) :
  let ids := ["child-node1-in"; "child-node1-out"; "child-node2-in"; "child-node2-out"] in
  (forall child portId, In child (graph_children (model this)) -> In portId ids ->
                        ownsPort portId child = false) ->
  In s ids -> In t ids ->
  (exists p n1 n2,
      graph_children (model (addPackageNode this timestamp))
      = graph_children (model this) ++ [Package p [Node n1; Node n2]]
      /\ map (@port_id num) (node_children n1 ++ node_children n2) = ids)
  /\ addEdge (addPackageNode this timestamp) s t
     = (addPackageNode this timestamp, mkResult false "Cannot connect a node to itself").
Proof.
  intros ids H Hs Ht. split.
  - unfold addPackageNode, createPackageNode, pushChild. cbn [model graph_children map].
    eexists. eexists. eexists. split; [reflexivity |]. reflexivity.
  - assert (E : forall portId, In portId ids ->
                  extractNodeId (addPackageNode this timestamp) portId = "child").
    { intros portId Hin. unfold extractNodeId, addPackageNode, createPackageNode, pushChild.
      cbn [model graph_children]. rewrite extractNodeId_loop_push_package.
      rewrite (extractNodeId_loop_unowned _ _ (fun child Hc => H child portId Hc Hin)).
      destruct Hin as [<- | [<- | [<- | [<- | []]]]]; reflexivity. }
    unfold addEdge. rewrite validateEdge_same_node by (rewrite (E s Hs), (E t Ht); reflexivity).
    reflexivity.
Qed.
End InsidePackages.

(** ** Ports of vector nodes, at creation and on load *)

Section VectorPorts.
Context {num : Type} {JN : JsNumber num} {JM : JsMath num}.
Variable portElements : string -> option (list (PortMarker num)).

Lemma setPositionOfFirst_same (id : string) (pos : Point num)
    (children : list (SprottyPort num)) :
  (forall p, In p children -> port_id p = id -> port_position p = pos) ->
  setPositionOfFirst id pos children = children.
Proof.
  induction children as [| c rest IH]; intros H; [reflexivity |].
  cbn [setPositionOfFirst]. destruct (port_id c =? id)%string eqn:E.
  - apply String.eqb_eq in E. rewrite <- (H c (or_introl eq_refl) E).
    destruct c; reflexivity.
  - rewrite IH; [reflexivity |]. intros p Hin. apply H. right. exact Hin.
Qed.

(** The loop of [updatePortPositionsFromSvg] changes nothing in a list whose
    ports already are where the markers with their ids put them. *)
Lemma updatePortPositionsFromSvg_loop_fixed (id : string) (rotation centerX centerY : num)
    (elements : list (PortMarker num)) :
  forall (index : nat) (children : list (SprottyPort num)),
    (forall j e p,
        nth_error elements j = Some e -> In p children ->
        port_id p = portId (extractPortInfo e id (index + j)) ->
        port_position p
        = calculatePortPositionWithRotation
            (info_x (extractPortInfo e id (index + j)))
            (info_y (extractPortInfo e id (index + j)))
            (info_width (extractPortInfo e id (index + j)))
            (info_height (extractPortInfo e id (index + j)))
            rotation centerX centerY) ->
    updatePortPositionsFromSvg_loop id rotation centerX centerY elements index children
    = children.
Proof.
  induction elements as [| e rest IH]; intros index children H; [reflexivity |].
  cbn [updatePortPositionsFromSvg_loop]. rewrite setPositionOfFirst_same.
  - apply IH. intros j e' p Hn Hin.
    replace (S index + j)%nat with (index + S j)%nat by lia. exact (H (S j) e' p Hn Hin).
  - intros p Hin Hid. specialize (H O e p eq_refl Hin). rewrite Nat.add_0_r in H.
    exact (H Hid).
Qed.

(** Each marker has its port in what [parsePortsFromSvg] builds, and there
    is no other port. *)
Lemma parsePortsFromSvg_loop_In (id : string) (rotation centerX centerY : num)
    (elements : list (PortMarker num)) (index : nat) (p : SprottyPort num) :
  In p (parsePortsFromSvg_loop id rotation centerX centerY elements index)
  <-> exists j e,
        nth_error elements j = Some e
        /\ p = hd p (parsePortsFromSvg_loop id rotation centerX centerY [e] (index + j)).
Proof.
  revert index. induction elements as [| e rest IH]; intros index.
  - split; [intros [] | intros [[| j] [e [H _]]]; discriminate H].
  - cbn [parsePortsFromSvg_loop In]. rewrite IH. split.
    + intros [<- | [j [e' [Hn Hp]]]].
      * exists O, e. rewrite Nat.add_0_r. split; reflexivity.
      * exists (S j), e'. rewrite Nat.add_succ_r. split; assumption.
    + intros [[| j] [e' [Hn Hp]]].
      * left. cbn [nth_error] in Hn. injection Hn as <-. rewrite Nat.add_0_r in Hp.
        rewrite Hp. reflexivity.
      * right. exists j, e'. rewrite Nat.add_succ_r in Hp. split; assumption.
Qed.

Lemma NoDup_port_id (ports : list (SprottyPort num)) (p q : SprottyPort num) :
  NoDup (map (@port_id num) ports) -> In p ports -> In q ports ->
  port_id p = port_id q -> p = q.
Proof.
  induction ports as [| c rest IH]; intros Hnd Hp Hq E; [destruct Hp |].
  cbn [map] in Hnd. inversion Hnd as [| a l Hnot Hrest]; subst.
  destruct Hp as [-> | Hp], Hq as [-> | Hq]; auto.
  - exfalso. apply Hnot. rewrite E. apply in_map. exact Hq.
  - exfalso. apply Hnot. rewrite <- E. apply in_map. exact Hp.
Qed.

(** X18.  Port positions of a vector node survive a load: on the ports
    [parsePortsFromSvg] built for a payload, with pairwise distinct ids,
    [updatePortPositionsFromSvg] for the same payload, rotation and centre
    changes nothing, whatever the rotation and the arithmetic. *)
Theorem updatePortPositionsFromSvg_after_parse (node : SprottyNode num) (content : string)
    (rotation centerX centerY : num) :
  node_children node
  = parsePortsFromSvg portElements content (node_id node) (Some rotation) centerX centerY ->
  NoDup (map (@port_id num) (node_children node)) ->
  updatePortPositionsFromSvg portElements node content rotation centerX centerY = node.
Proof.
  intros Hc Hnd. unfold updatePortPositionsFromSvg.
  unfold parsePortsFromSvg in Hc.
  destruct (portElements content) as [elements |] eqn:E; [| reflexivity].
  rewrite updatePortPositionsFromSvg_loop_fixed; [destruct node; reflexivity |].
  intros j e p Hn Hin Hid. cbn [Nat.add] in Hid |- *.
  destruct (negb (strTruthy (Some content))); [rewrite Hc in Hin; destruct Hin |].
  set (q := hd p (parsePortsFromSvg_loop (node_id node) rotation centerX centerY [e] j)).
  assert (Hq : In q (node_children node)).
  { rewrite Hc. apply parsePortsFromSvg_loop_In. exists j, e. split; [exact Hn |].
    reflexivity. }
  rewrite (@NoDup_port_id (node_children node) p q Hnd Hin Hq Hid). reflexivity.
Qed.
End VectorPorts.

(** ** Adding, copying and deleting elements *)

Section AddingElements.
Context {num : Type} {JN : JsNumber num} {JM : JsMath num} {JJ : JsJson num}.
Variable portElements : string -> option (list (PortMarker num)).

Lemma updateFirst_app_found {A : Type} (f : A -> option A) (l1 l1' l2 : list A) :
  updateFirst f l1 = Some l1' -> updateFirst f (l1 ++ l2) = Some (l1' ++ l2).
Proof.
  revert l1'. induction l1 as [| a rest IH]; intros l1'; [discriminate |].
  cbn [updateFirst List.app]. destruct (f a) as [a' |].
  - intros H. injection H as <-. reflexivity.
  - destruct (updateFirst f rest) as [rest' |]; [| discriminate].
    intros H. injection H as <-. rewrite (IH rest' eq_refl). reflexivity.
Qed.

(** X19.  A resize or move of a node or package that is in the tree is not
    disturbed by an element added after it, be it by [addNodeWithPorts],
    [addPackageNode] or a duplication: the update reaches the element that
    was there, also when the new element, or a node inside it, carries the
    same id, and the new element stays as it was added. *)
Theorem update_reaches_the_older_element (this : GraphModel num) (nodeId : string)
    (added : SModelElement num) (w h x y : num) (found : SModelElement num) :
  findNode nodeId (graph_children (model this)) = Some found ->
  updateNodeSize (pushChild this added) nodeId w h
  = pushChild (updateNodeSize this nodeId w h) added
  /\ updateNodePosition (pushChild this added) nodeId x y
     = pushChild (updateNodePosition this nodeId x y) added.
Proof.
  intros F.
  destruct (updateFound_found nodeId (resize w h) (resize_tag_any w h) (resize_id_any w h)
              _ F) as [sized [U _]].
  destruct (updateFound_found nodeId (moveTo x y) (moveTo_tag x y) (moveTo_id x y)
              _ F) as [moved [V _]].
  unfold updateNodeSize, updateNodePosition, pushChild.
  cbn [model graph_children graph_id edgeCounter]. rewrite U, V.
  unfold updateFound in *.
  rewrite (updateFirst_app_found _ _ [added] U), (updateFirst_app_found _ _ [added] V).
  split; reflexivity.
Qed.
Lemma append_cancel_l (p a b : string) : (p ++ a = p ++ b)%string -> a = b.
Proof.
  induction p as [| c p IH]; cbn [String.append]; [auto |].
  intros H. injection H as H. exact (IH H).
Qed.

Lemma toString_inj (a b : nat) : toString a = toString b -> a = b.
Proof.
  unfold toString. intros H.
  apply (f_equal NilEmpty.uint_of_string) in H. rewrite !NilEmpty.usu in H.
  injection H as H. exact (DecimalNat.Unsigned.to_uint_inj _ _ H).
Qed.

Lemma renamePorts_ids (newId : string) (index : nat) (children : list (SprottyPort num))
    (id : string) :
  In id (map (@port_id num) (renamePorts newId index children)) ->
  exists i, (index <= i)%nat
            /\ (id = newId ++ "-" ++ "in" ++ toString (i + 1)
                \/ id = newId ++ "-" ++ "out" ++ toString (i + 1))%string.
Proof.
  revert index. induction children as [| c rest IH]; intros index; [intros [] |].
  cbn [renamePorts map In port_id setPortId]. intros [<- | H].
  - exists index. split; [lia |]. destruct (portType c); auto.
  - destruct (IH _ H) as [i [Hle Hi]]. exists i. split; [lia | exact Hi].
Qed.

Lemma renamePorts_NoDup (newId : string) (index : nat) (children : list (SprottyPort num)) :
  NoDup (map (@port_id num) (renamePorts newId index children)).
Proof.
  revert index. induction children as [| c rest IH]; intros index; [constructor |].
  cbn [renamePorts map port_id setPortId]. constructor; [| apply IH].
  intros H. apply renamePorts_ids in H. destruct H as [i [Hle Hi]].
  assert (Hne : i <> index) by lia. apply Hne.
  destruct (portType c), Hi as [Hi | Hi]; apply append_cancel_l in Hi;
    apply (append_cancel_l "-") in Hi; try discriminate Hi.
  - apply (append_cancel_l "in") in Hi. apply toString_inj in Hi. lia.
  - apply (append_cancel_l "out") in Hi. apply toString_inj in Hi. lia.
Qed.

Lemma renamePorts_shape (newId : string) (index : nat) (children : list (SprottyPort num)) :
  map (fun p => setPortId p "") (renamePorts newId index children)
  = map (fun p => setPortId p "") children.
Proof.
  revert index. induction children as [| c rest IH]; intros index; [reflexivity |].
  cbn [renamePorts map]. rewrite IH. reflexivity.
Qed.

Lemma renamePortElements_nodes (newId : string) (index : nat)
    (children : list (SModelElement num)) :
  filter isNodeElement (renamePortElements newId index children)
  = filter isNodeElement children.
Proof.
  revert index. induction children as [| c rest IH]; intros index; [reflexivity |].
  destruct c; cbn [renamePortElements filter isNodeElement]; rewrite IH; reflexivity.
Qed.

(** X20.  Duplicating a top-level process or vector node whose numbers
    are all written to JSON as they are (finite, and not -0) appends a copy
    under the id [node-<timestamp>] and leaves every element that was there
    as it was.  The ports of the copy are those of the original in every
    field but the id, and their ids are pairwise distinct, also when the
    original's were not.  The copy of such a package holds the nodes of the
    original unchanged, under the ids they have there.  No edge is copied;
    and an edge cannot be duplicated at all: the handler throws on it
    before it changes anything. *)
Theorem duplicateItem_copies_a_node (this : GraphModel num) (id : string)
    (timestamp : nat) (found : SModelElement num) :
  find (fun child => (elementId child =? id)%string) (graph_children (model this))
  = Some found ->
  Forall writtenAsItIs (elementNumbers found) ->
  match found with
  | Node n =>
      exists copy,
        duplicateItem this id timestamp = Returns (pushChild this (Node copy))
        /\ node_id copy = ("node-" ++ toString timestamp)%string
        /\ NoDup (map (@port_id num) (node_children copy))
        /\ map (fun p => setPortId p "") (node_children copy)
           = map (fun p => setPortId p "") (node_children n)
        /\ edgeIds (pushChild this (Node copy)) = edgeIds this
  | Package p children =>
      exists copy children',
        duplicateItem this id timestamp = Returns (pushChild this (Package copy children'))
        /\ pkg_id copy = ("node-" ++ toString timestamp)%string
        /\ filter isNodeElement children' = filter isNodeElement children
        /\ edgeIds (pushChild this (Package copy children')) = edgeIds this
  | Edge _ | Port _ => duplicateItem this id timestamp = Throws
  end.
Proof.
  intros F Hn. unfold duplicateItem. rewrite F.
  destruct found as [n | p cs | e | p].
  - rewrite (JSON_copy_element_exact _ Hn).
    eexists. split; [reflexivity |].
    cbn [node_id node_children setNodeChildren setNodePosition setNodeId].
    split; [reflexivity |]. split; [apply renamePorts_NoDup |].
    split; [apply renamePorts_shape |]. apply edgeIds_push_node. reflexivity.
  - rewrite (JSON_copy_element_exact _ Hn).
    eexists. eexists. split; [reflexivity |]. split; [reflexivity |].
    split; [apply renamePortElements_nodes |]. apply edgeIds_push_node. reflexivity.
  - reflexivity.
  - reflexivity.
Qed.
End AddingElements.

(** ** Ports stay on their sides *)

Section PortsWithinSides.
Local Open Scope Q_scope.

Lemma distributeAlongAxis_within (k t : nat) (L : Q) :
  (k < t)%nat -> 16 <= L ->
  0 <= distributeAlongAxis (lit (Z.of_nat k)) (lit (Z.of_nat t)) L
  /\ distributeAlongAxis (lit (Z.of_nat k)) (lit (Z.of_nat t)) L <= L - 16.
Proof.
  intros Hk HL. cbn [lit Q_JsNumber].
  destruct (Nat.eq_dec t 1) as [-> | Hne].
  - change (inject_Z (Z.of_nat 1)) with 1. rewrite distributeAlongAxis_single.
    split.
    + apply Qle_shift_div_l; lra.
    + apply Qle_shift_div_r; lra.
  - rewrite distributeAlongAxis_spaced by (rewrite inject_Z_eq_1; lia).
    assert (Ht : (1 < Z.of_nat t)%Z) by lia.
    assert (Ha := spacing_nonneg HL Ht).
    assert (Hk0 : 0 <= inject_Z (Z.of_nat k))
      by (change 0 with (inject_Z 0); rewrite <- Zle_Qle; lia).
    assert (Hk1 : inject_Z (Z.of_nat k) <= inject_Z (Z.of_nat t) - 1).
    { assert (E : inject_Z (Z.of_nat t) - 1 == inject_Z (Z.of_nat t - 1))
        by (unfold Z.sub; rewrite inject_Z_plus; reflexivity).
      rewrite E, <- Zle_Qle. lia. }
    split.
    + apply Qmult_le_0_compat; assumption.
    + assert (E : L - 16 == (L - 16) / (inject_Z (Z.of_nat t) - 1)
                            * (inject_Z (Z.of_nat t) - 1)).
      { field. intros H0.
        assert (H1 : inject_Z 1 < inject_Z (Z.of_nat t)) by (rewrite <- Zlt_Qlt; exact Ht).
        change (inject_Z 1) with 1 in H1. lra. }
      rewrite E at 2. rewrite !(Qmult_comm ((L - 16) / (inject_Z (Z.of_nat t) - 1))).
      apply Qmult_le_compat_r; assumption.
Qed.
Lemma placeFrom_within (w h : Q) (total : PortSide -> nat)
    (children : list (SprottyPort Q)) :
  16 <= w -> 16 <= h ->
  forall seen : PortSide -> nat,
    (forall s, (seen s + countOnSide Some children s <= total s)%nat) ->
    Forall (fun p =>
              match side p with
              | Some left =>
                  x (port_position p) == -8
                  /\ 0 <= y (port_position p) /\ y (port_position p) <= h - 16
              | Some right =>
                  x (port_position p) == w - 8
                  /\ 0 <= y (port_position p) /\ y (port_position p) <= h - 16
              | Some top =>
                  y (port_position p) == -8
                  /\ 0 <= x (port_position p) /\ x (port_position p) <= w - 16
              | Some bottom =>
                  y (port_position p) == h - 8
                  /\ 0 <= x (port_position p) /\ x (port_position p) <= w - 16
              | None => True
              end)
           (placeFrom Some (fun p => p) (mkSize w h) total seen children).
Proof.
  intros Hw Hh. induction children as [| c rest IH]; intros seen Hseen; [constructor |].
  cbn [placeFrom]. destruct (side c) as [s |] eqn:S.
  - assert (Hk : (seen s < total s)%nat).
    { specialize (Hseen s). unfold countOnSide in Hseen. cbn [filter] in Hseen.
      unfold onSide in Hseen at 1. rewrite S in Hseen.
      replace (PortSide_eqb s s) with true in Hseen by (destruct s; reflexivity).
      cbn [List.length] in Hseen. lia. }
    constructor.
    + cbn [side setPortPosition port_position]. rewrite S.
      destruct s; cbn [calculatePortPosition x y width height];
        (split; [reflexivity |]);
        first [exact (distributeAlongAxis_within Hk Hh)
              | exact (distributeAlongAxis_within Hk Hw)].
    + apply IH. intros s'. specialize (Hseen s'). unfold countOnSide in Hseen |- *.
      cbn [filter] in Hseen. unfold onSide in Hseen at 1. rewrite S in Hseen.
      unfold bump. destruct s, s'; cbn [PortSide_eqb List.length] in Hseen |- *; lia.
  - constructor; [rewrite S; exact I |].
    apply IH. intros s'. specialize (Hseen s'). unfold countOnSide in Hseen |- *.
    cbn [filter] in Hseen. unfold onSide in Hseen at 1. rewrite S in Hseen. exact Hseen.
Qed.

(** X21.  After [updateNodeSize] to a width and a height of at least the
    port size 16, every port with a side of the node resized sits on that
    side and within its span: a left or right port has x = -8 or x = width - 8
    and 0 <= y <= height - 16, a top or bottom port has y = -8 or
    y = height - 8 and 0 <= x <= width - 16, however many ports the sides
    have and wherever the ports were before. *)
Theorem updateNodeSize_keeps_ports_on_sides (this : GraphModel Q) (nodeId : string)
    (w h : Q) (n : SprottyNode Q) :
  findNode nodeId (graph_children (model this)) = Some (Node n) ->
  16 <= w -> 16 <= h ->
  exists n',
    findNode nodeId (graph_children (model (updateNodeSize this nodeId w h)))
    = Some (Node n')
    /\ node_size n' = mkSize w h
    /\ Forall (fun p =>
                 match side p with
                 | Some left =>
                     x (port_position p) == -8
                     /\ 0 <= y (port_position p) /\ y (port_position p) <= h - 16
                 | Some right =>
                     x (port_position p) == w - 8
                     /\ 0 <= y (port_position p) /\ y (port_position p) <= h - 16
                 | Some top =>
                     y (port_position p) == -8
                     /\ 0 <= x (port_position p) /\ x (port_position p) <= w - 16
                 | Some bottom =>
                     y (port_position p) == h - 8
                     /\ 0 <= x (port_position p) /\ x (port_position p) <= w - 16
                 | None => True
                 end)
              (node_children n').
Proof.
  intros F Hw Hh.
  destruct (updateFound_found nodeId (resize w h) (resize_tag_any w h) (resize_id_any w h)
              _ F) as [children' [U F']].
  unfold updateNodeSize. rewrite U. cbn [model graph_children].
  rewrite resize_placeByOrdinal in F'. eexists. split; [exact F' |].
  split; [reflexivity |]. cbn [node_children setNodeChildren].
  apply placeFrom_within; [exact Hw | exact Hh |]. intros s. cbn [Nat.add]. lia.
Qed.
Lemma Math_max_ge (a b : Q) : a <= Math_max a b.
Proof.
  unfold Math_max. destruct (Qle_bool a b) eqn:E; [| apply Qle_refl].
  apply Qle_bool_iff. exact E.
Qed.

(** X22.  However the pointer moves during a resize drag, the command the
    handle dispatches asks for a width of at least 50 and a height of at
    least 30, at the origin the node had when the drag began; and on a node
    whose ports all have a side, executing it leaves every port on its side
    and within the span of that side. *)
Theorem resize_drag_keeps_ports_on_sides (resizing : Resizing) (clientX clientY : Q)
    (n : SprottyNode Q) :
  Forall (fun p => side p <> None) (node_children n) ->
  exists this n',
    startResize_handleMouseMove (Some resizing) clientX clientY = Some this
    /\ bounds_x (rc_newBounds this) = startBoundsX resizing
    /\ bounds_y (rc_newBounds this) = startBoundsY resizing
    /\ 50 <= bounds_width (rc_newBounds this)
    /\ 30 <= bounds_height (rc_newBounds this)
    /\ snd (ResizeCommand_execute this (Some n)) = Some n'
    /\ Forall (fun p =>
                 match side p with
                 | Some left =>
                     x (port_position p) == -8
                     /\ 0 <= y (port_position p)
                     /\ y (port_position p) <= bounds_height (rc_newBounds this) - 16
                 | Some right =>
                     x (port_position p) == bounds_width (rc_newBounds this) - 8
                     /\ 0 <= y (port_position p)
                     /\ y (port_position p) <= bounds_height (rc_newBounds this) - 16
                 | Some top =>
                     y (port_position p) == -8
                     /\ 0 <= x (port_position p)
                     /\ x (port_position p) <= bounds_width (rc_newBounds this) - 16
                 | Some bottom =>
                     y (port_position p) == bounds_height (rc_newBounds this) - 8
                     /\ 0 <= x (port_position p)
                     /\ x (port_position p) <= bounds_width (rc_newBounds this) - 16
                 | None => True
                 end)
              (node_children n').
Proof.
  intros H. eexists. eexists. split; [reflexivity |].
  cbn [rc_newBounds bounds_x bounds_y bounds_width bounds_height].
  split; [reflexivity |]. split; [reflexivity |].
  split; [apply Math_max_ge |]. split; [apply Math_max_ge |].
  split; [reflexivity |].
  cbn [ResizeCommand_execute snd node_children setNodeChildren rc_newBounds
       bounds_width bounds_height].
  rewrite (ResizeCommand_updatePortPositions_sided _ _ H).
  rewrite (repositionPorts_placeByOrdinal Some (fun p => p) (fun p => eq_refl)).
  apply placeFrom_within.
  - apply Qle_trans with (y := 50); [discriminate | apply Math_max_ge].
  - apply Qle_trans with (y := 30); [discriminate | apply Math_max_ge].
  - intros s. cbn [Nat.add]. lia.
Qed.
End PortsWithinSides.

(** ** Legacy creation *)

Section LegacyCreation.
Local Open Scope Q_scope.

(** X23.  [createNode] looks at its list of ports only to see whether [in]
    and whether [out] occur: however often and in whatever order they are
    listed, the node gets at most one input port, first, with id [<id>-in],
    centred on the left side at (-8, (height - 16) / 2), and at most one
    output port with id [<id>-out], centred on the right side at
    (width - 8, (height - 16) / 2); the size defaults to 120 x 60 and the
    rotation to 0. *)
Theorem createNode_ports (id : string) (x0 y0 : Q) (name : string) (ports : list LegacyPort)
    (size : option (NodeSize Q)) (fh fv rotation : option Q) :
  let s := match size with
           | Some s => s
           | None => mkSize 120 60
           end in
  createNode id x0 y0 name ports size fh fv rotation
  = mkNode node_process id (mkPoint x0 y0) (mkSize (width s) (height s)) name
      ((if existsb (LegacyPort_eqb legacy_in) ports
        then [mkPort (id ++ "-in") (mkPoint (-8) ((height s - 16) / 2)) (mkSize 16 16)
                input circle (Some left) None None]
        else [])
       ++ (if existsb (LegacyPort_eqb legacy_out) ports
           then [mkPort (id ++ "-out") (mkPoint (width s - 8) ((height s - 16) / 2))
                   (mkSize 16 16) output circle (Some right) None None]
           else []))
      fh fv false false
      (Some match rotation with
            | Some r => r
            | None => 0
            end)
      None.
Proof.
  intros s. unfold createNode, createNodeWithPorts. fold s.
  destruct (existsb (LegacyPort_eqb legacy_in) ports),
    (existsb (LegacyPort_eqb legacy_out) ports); reflexivity.
Qed.
End LegacyCreation.

(** ** Loading a rotated process node *)

Section LoadTurnsAgain.
Variable portElements : string -> option (list (PortMarker R)).
Local Open Scope R_scope.

Lemma orElse_zero_R (v : R) : orElse v (lit 0) = v.
Proof.
  unfold orElse, truthy. cbn [strictEq lit R_JsNumber].
  destruct (Req_dec_T v 0) as [E | _]; cbn [negb andb]; [symmetry; exact E |].
  destruct (Req_dec_T v v) as [_ | N]; [reflexivity | destruct (N eq_refl)].
Qed.

Lemma rotatePoint_quarter_turn (px py cx cy : R) :
  rotatePoint px py cx cy 90 = mkPoint (cx + cy - py) (px - cx + cy).
Proof.
  unfold rotatePoint.
  cbn [lit add sub mul div R_JsNumber Math_PI Math_cos Math_sin R_JsMath].
  replace (90 * PI / 180) with (PI / 2) by field.
  rewrite cos_PI2, sin_PI2. f_equal; Lra.lra.
Qed.

Lemma recalculateNode_quarter_turn (n : SprottyNode R) :
  svgContent n = None -> node_rotation n = Some 90 ->
  recalculateNode portElements n
  = setNodeChildren n
      (map (fun p =>
              setPortPosition p
                (mkPoint
                   (width (node_size n) / 2 + height (node_size n) / 2
                    - (y (port_position p) + height (port_size p) / 2)
                    - width (port_size p) / 2)
                   (x (port_position p) + width (port_size p) / 2
                    - width (node_size n) / 2 + height (node_size n) / 2
                    - height (port_size p) / 2)))
           (node_children n)).
Proof.
  intros Hs Hr. unfold recalculateNode. rewrite Hr, Hs.
  assert (T : truthy (90 : R) = true).
  { unfold truthy. cbn [strictEq lit R_JsNumber].
    destruct (Req_dec_T 90 0) as [E | _]; [Lra.lra |].
    destruct (Req_dec_T 90 90) as [_ | N]; [reflexivity | destruct (N eq_refl)]. }
  rewrite T. cbn [strictEq lit neg R_JsNumber negb orb].
  repeat match goal with
         | |- context [Req_dec_T ?a ?b] => destruct (Req_dec_T a b) as [E | _]; [Lra.lra |]
         end.
  cbn [orb strTruthy]. unfold rotateExistingPortPositions. f_equal.
  apply map_ext. intros p. rewrite !orElse_zero_R, rotatePoint_quarter_turn.
  cbn [x y lit add sub div R_JsNumber]. f_equal.
Qed.

(** X24.  On exact reals, with the real [cos], [sin] and [PI]: loading a tree
    turns the ports of every top-level process node stored with rotation 90
    a quarter turn about the centre of the node, starting from the positions
    stored.  The positions a rotated node has in [getModel] are already
    turned, so a tree saved after a rotation does not come back as it was:
    the loaded node equals the stored one only when every port is centred
    on the centre of the node. *)
Theorem loadFromJson_turns_stored_ports (this : GraphModel R) (tree : SprottyGraph R)
    (n : SprottyNode R) :
  In (Node n) (graph_children tree) ->
  svgContent n = None -> node_rotation n = Some 90 ->
  let loaded :=
    setNodeChildren n
      (map (fun p =>
              setPortPosition p
                (mkPoint
                   (width (node_size n) / 2 + height (node_size n) / 2
                    - (y (port_position p) + height (port_size p) / 2)
                    - width (port_size p) / 2)
                   (x (port_position p) + width (port_size p) / 2
                    - width (node_size n) / 2 + height (node_size n) / 2
                    - height (port_size p) / 2)))
           (node_children n)) in
  In (Node loaded) (graph_children (model (loadFromJson portElements this tree)))
  /\ (loaded = n ->
      forall p, In p (node_children n) ->
                x (port_position p) + width (port_size p) / 2 = width (node_size n) / 2
                /\ y (port_position p) + height (port_size p) / 2
                   = height (node_size n) / 2).
Proof.
  intros Hin Hs Hr loaded. split.
  - unfold loadFromJson, recalculatePortPositionsForRotatedNodes.
    cbn [model graph_children]. unfold loaded.
    rewrite <- (recalculateNode_quarter_turn n Hs Hr).
    apply (in_map (fun child => match child with
                                | Node node => Node (recalculateNode portElements node)
                                | other => other
                                end) _ (Node n) Hin).
  - intros E p Hp. apply (f_equal (@node_children R)) in E. unfold loaded in E.
    cbn [node_children setNodeChildren] in E.
    assert (Hfix : forall l : list (SprottyPort R),
              forall f, map f l = l -> forall q, In q l -> f q = q).
    { induction l as [| a l IH]; intros f Hf q []; cbn [map] in Hf;
        injection Hf as Ha Hl; [subst; exact Ha | apply IH; assumption]. }
    specialize (Hfix _ _ E p Hp). apply (f_equal (@port_position R)) in Hfix.
    cbn [port_position setPortPosition] in Hfix.
    destruct (port_position p) as [px py]. injection Hfix as Hx Hy.
    cbn [x y] in *. split; Lra.lra.
Qed.
End LoadTurnsAgain.

(** ** Aligning the selected nodes *)

Section AlignmentProperties.
Local Open Scope Q_scope.
Implicit Types (children : list (SModelElement Q)) (upd : SModelElement Q -> SModelElement Q).

Lemma NoDup_app_disjoint {A : Type} (l1 l2 : list A) (a : A) :
  NoDup (l1 ++ l2) -> In a l1 -> In a l2 -> False.
Proof.
  induction l1 as [| b l1 IH]; intros H H1 H2; [destruct H1 |].
  cbn [List.app] in H. inversion H as [| c l Hnot Hrest]; subst.
  destruct H1 as [-> | H1]; [| exact (IH Hrest H1 H2)].
  apply Hnot. apply in_or_app. right. exact H2.
Qed.

Lemma own_id (c : SModelElement Q) : isNodeElement c = true -> In (elementId c) (nodeIdsOf c).
Proof. destruct c; try discriminate; intros _; left; reflexivity. Qed.

(** An update by id succeeds in a subtree only if the id is among its ids. *)
Lemma updateFoundAt_ids (id : string) upd (c c' : SModelElement Q) :
  updateFoundAt id upd c = Some c' -> In id (nodeIdsOf c).
Proof.
  revert c'. induction c as [n | p cs IH | e | p] using SModelElement_tree_ind;
    intros c'; cbn [updateFoundAt isNodeElement andb elementId nodeIdsOf];
    try discriminate.
  - destruct (node_id n =? id)%string eqn:E; [| discriminate].
    intros _. left. apply String.eqb_eq. exact E.
  - destruct (pkg_id p =? id)%string eqn:E.
    + intros _. left. apply String.eqb_eq. exact E.
    + intros H. right.
      destruct (updateFirst (updateFoundAt id upd) cs) as [cs' |] eqn:U; [| discriminate].
      clear H. revert cs' U. induction IH as [| c rest Hc _ IHrest]; intros cs' U;
        [discriminate |].
      cbn [updateFirst] in U. cbn [flat_map]. apply in_or_app.
      destruct (updateFoundAt id upd c) as [c1 |] eqn:F.
      * left. exact (Hc c1 eq_refl).
      * right. destruct (updateFirst (updateFoundAt id upd) rest) as [rest' |] eqn:R;
          [| discriminate].
        exact (IHrest rest' eq_refl).
Qed.

Lemma In_nodeIds children (c : SModelElement Q) (id : string) :
  In c children -> In id (nodeIdsOf c) -> In id (flat_map nodeIdsOf children).
Proof. intros Hc Hid. apply in_flat_map. exists c. split; assumption. Qed.

(** With distinct ids, two children of the graph with the same id are one. *)
Lemma same_id_same_child children (c d : SModelElement Q) :
  NoDup (flat_map nodeIdsOf children) -> In c children -> In d children ->
  isNodeElement c = true -> isNodeElement d = true ->
  elementId d = elementId c -> d = c.
Proof.
  induction children as [| a rest IH]; intros Hnd Hc Hd Nc Nd E; [destruct Hc |].
  cbn [flat_map] in Hnd.
  destruct Hc as [-> | Hc], Hd as [-> | Hd]; [reflexivity | | |].
  - exfalso. apply (NoDup_app_disjoint _ _ (elementId c) Hnd (own_id c Nc)).
    rewrite <- E. exact (In_nodeIds rest d _ Hd (own_id d Nd)).
  - exfalso. apply (NoDup_app_disjoint _ _ (elementId d) Hnd (own_id d Nd)).
    rewrite E. exact (In_nodeIds rest c _ Hc (own_id c Nc)).
  - apply IH; try assumption. exact (NoDup_app_remove_l _ _ Hnd).
Qed.

(** With distinct ids, an update by the id of a child of the graph changes
    that child and nothing else. *)
Lemma updateFound_child children (c : SModelElement Q) upd :
  NoDup (flat_map nodeIdsOf children) -> In c children -> isNodeElement c = true ->
  updateFound (elementId c) upd children
  = Some (map (fun d => if isNodeElement d && (elementId d =? elementId c)%string
                        then upd d else d) children).
Proof.
  unfold updateFound. induction children as [| a rest IH]; intros Hnd Hc Nc; [destruct Hc |].
  cbn [flat_map] in Hnd. cbn [updateFirst map].
  destruct (isNodeElement a && (elementId a =? elementId c)%string) eqn:T.
  - rewrite (updateFoundAt_hit (elementId c) upd a T). f_equal. f_equal.
    symmetry. rewrite <- (map_id rest) at 2. apply map_ext_in. intros d Hd.
    destruct (isNodeElement d && (elementId d =? elementId c)%string) eqn:Td;
      [| reflexivity].
    exfalso. apply andb_true_iff in T, Td. destruct T as [Na Ea], Td as [Nd Ed].
    apply String.eqb_eq in Ea, Ed.
    apply (NoDup_app_disjoint _ _ (elementId a) Hnd (own_id a Na)).
    rewrite Ea, <- Ed. exact (In_nodeIds rest d _ Hd (own_id d Nd)).
  - assert (Hrest : In c rest).
    { destruct Hc as [-> | Hc]; [| exact Hc].
      rewrite Nc, String.eqb_refl in T. discriminate. }
    destruct (updateFoundAt (elementId c) upd a) as [a' |] eqn:F.
    + exfalso. apply (NoDup_app_disjoint _ _ (elementId c) Hnd (updateFoundAt_ids _ _ _ F)).
      exact (In_nodeIds rest c _ Hrest (own_id c Nc)).
    + rewrite (IH (NoDup_app_remove_l _ _ Hnd) Hrest Nc). reflexivity.
Qed.
Lemma getSelectedNodes_In (ids : list string) (first : nat) children (i : nat) :
  In i (getSelectedNodes ids first children)
  <-> (first <= i)%nat
      /\ exists c, nth_error children (i - first) = Some c /\ isSelected ids c = true.
Proof.
  revert first. induction children as [| a rest IH]; intros first.
  - cbn [getSelectedNodes]. split; [intros [] |].
    intros [_ [c [H _]]]. destruct (i - first)%nat; discriminate H.
  - cbn [getSelectedNodes].
    assert (Hrest : In i (getSelectedNodes ids (S first) rest)
                    <-> (first < i)%nat
                        /\ exists c, nth_error (a :: rest) (i - first) = Some c
                                     /\ isSelected ids c = true).
    { rewrite IH. split; intros [Hle [c [Hn Hs]]]; (split; [lia |]); exists c;
        (split; [| exact Hs]).
      - replace (i - first)%nat with (S (i - S first)) by lia. exact Hn.
      - replace (i - first)%nat with (S (i - S first)) in Hn by lia. exact Hn. }
    destruct (isSelected ids a) eqn:Sa.
    + cbn [In]. rewrite Hrest. split.
      * intros [<- | [Hlt H]]; [| split; [lia | exact H]].
        split; [lia |]. exists a. rewrite Nat.sub_diag. split; [reflexivity | exact Sa].
      * intros [Hle H]. destruct (Nat.eq_dec first i) as [E | E]; [left; exact E |].
        right. split; [lia | exact H].
    + rewrite Hrest. split.
      * intros [Hlt H]. split; [lia | exact H].
      * intros [Hle [c [Hn Hs]]]. destruct (Nat.eq_dec first i) as [<- | E].
        -- rewrite Nat.sub_diag in Hn. cbn in Hn. injection Hn as <-. congruence.
        -- split; [lia |]. exists c. split; assumption.
Qed.

Section OneHandler.
Variable place : Point Q -> Point Q.
Hypothesis place_again : forall pos, place (place pos) = place pos.
Variable children0 : list (SModelElement Q).
Hypothesis distinct_ids : NoDup (flat_map nodeIdsOf children0).
Hypothesis no_port : Forall (fun c => elementAsPort c = None) children0.

(** A selected node put in its place. *)
Lemma placed_tag (P : list string) (d : SModelElement Q) :
  isNodeElement
    (if isNodeElement d && existsb (fun id => (id =? elementId d)%string) P
     then moveTo (x (place (elementPosition d))) (y (place (elementPosition d))) d
     else d)
  = isNodeElement d
  /\ elementId
       (if isNodeElement d && existsb (fun id => (id =? elementId d)%string) P
        then moveTo (x (place (elementPosition d))) (y (place (elementPosition d))) d
        else d)
     = elementId d
  /\ nodeIdsOf
       (if isNodeElement d && existsb (fun id => (id =? elementId d)%string) P
        then moveTo (x (place (elementPosition d))) (y (place (elementPosition d))) d
        else d)
     = nodeIdsOf d.
Proof.
  destruct (isNodeElement d && existsb _ P); [| repeat split].
  destruct d; repeat split.
Qed.

Lemma alignNode_placed (gid : string) (counter : Count) (P : list string) (i : nat) :
  alignNode place
    (mkGraphModel
       (mkGraph gid
          (map (fun d =>
                  if isNodeElement d && existsb (fun id => (id =? elementId d)%string) P
                  then moveTo (x (place (elementPosition d)))
                              (y (place (elementPosition d))) d
                  else d)
               children0))
       counter) i
  = mkGraphModel
      (mkGraph gid
         (map (fun d =>
                 if isNodeElement d
                    && existsb (fun id => (id =? elementId d)%string)
                         (P ++ match nth_error children0 i with
                               | Some c => if isNodeElement c then [elementId c] else []
                               | None => []
                               end)
                 then moveTo (x (place (elementPosition d)))
                             (y (place (elementPosition d))) d
                 else d)
              children0))
      counter.
Proof.
  set (G := fun d : SModelElement Q =>
              if isNodeElement d && existsb (fun id => (id =? elementId d)%string) P
              then moveTo (x (place (elementPosition d)))
                          (y (place (elementPosition d))) d
              else d).
  assert (HG : forall d, isNodeElement (G d) = isNodeElement d
                         /\ elementId (G d) = elementId d
                         /\ nodeIdsOf (G d) = nodeIdsOf d)
    by (intros d; exact (placed_tag P d)).
  unfold alignNode. cbn [model graph_children]. rewrite nth_error_map.
  destruct (nth_error children0 i) as [c |] eqn:Hn; cbn [option_map];
    [| rewrite List.app_nil_r; reflexivity].
  assert (Hin : In c children0) by exact (nth_error_In _ _ Hn).
  destruct (HG c) as [Ptag [Pid Pids]].
  destruct (isNodeElement c) eqn:Nc.
  - assert (Hpos : exists pos, positionOf (G c) = Some pos
                               /\ place pos = place (elementPosition c)).
    { unfold G. rewrite Nc. destruct (true && existsb _ P).
      - exists (place (elementPosition c)). split; [| apply place_again].
        destruct c; try discriminate Nc;
          cbn [moveTo positionOf setNodePosition node_position setPackagePosition
               pkg_position];
          rewrite point_eta; reflexivity.
      - exists (elementPosition c). split; [| reflexivity].
        destruct c; try discriminate Nc; reflexivity. }
    destruct Hpos as [pos [-> Hplace]]. rewrite Hplace.
    unfold updateNodePosition. cbn [model graph_children graph_id edgeCounter].
    assert (Hnd : NoDup (flat_map nodeIdsOf (map G children0))).
    { replace (flat_map nodeIdsOf (map G children0)) with (flat_map nodeIdsOf children0);
        [exact distinct_ids |].
      clear - HG. induction children0 as [| a rest IH]; [reflexivity |].
      cbn [map flat_map]. rewrite IH. f_equal. symmetry.
      exact (proj2 (proj2 (HG a))). }
    rewrite (updateFound_child (map G children0) (G c) _ Hnd (in_map G _ _ Hin))
      by exact Ptag.
    rewrite map_map. do 2 f_equal. apply map_ext_in. intros d Hd.
    destruct (HG d) as [Dtag [Did _]]. rewrite Dtag, Did, Pid.
    rewrite existsb_app. cbn [existsb]. rewrite orb_false_r.
    rewrite (String.eqb_sym (elementId c) (elementId d)).
    destruct (isNodeElement d) eqn:Nd; cbn [andb]; [| unfold G; rewrite Nd; reflexivity].
    destruct (elementId d =? elementId c)%string eqn:E.
    + apply String.eqb_eq in E.
      assert (d = c) by exact (same_id_same_child children0 c d distinct_ids Hin Hd Nc Nd E).
      subst d. rewrite orb_true_r. unfold G. rewrite Nc.
      destruct (true && existsb _ P); destruct c; try discriminate Nc; reflexivity.
    + rewrite orb_false_r. unfold G. rewrite Nd. reflexivity.
  - rewrite List.app_nil_r.
    assert (Hedge : exists e, c = Edge e).
    { destruct c as [n | p cs | e | p]; try discriminate Nc; [eauto |].
      exfalso. pose proof (proj1 (Forall_forall _ _) no_port _ Hin) as Hp.
      discriminate Hp. }
    destruct Hedge as [e ->]. reflexivity.
Qed.
Lemma fold_alignNode (gid : string) (counter : Count) (l : list nat) :
  forall P : list string,
    fold_left (alignNode place) l
      (mkGraphModel
         (mkGraph gid
            (map (fun d =>
                    if isNodeElement d && existsb (fun id => (id =? elementId d)%string) P
                    then moveTo (x (place (elementPosition d)))
                                (y (place (elementPosition d))) d
                    else d)
                 children0))
         counter)
    = mkGraphModel
        (mkGraph gid
           (map (fun d =>
                   if isNodeElement d
                      && existsb (fun id => (id =? elementId d)%string)
                           (P ++ flat_map (fun i =>
                                             match nth_error children0 i with
                                             | Some c =>
                                                 if isNodeElement c then [elementId c]
                                                 else []
                                             | None => []
                                             end) l)
                   then moveTo (x (place (elementPosition d)))
                               (y (place (elementPosition d))) d
                   else d)
                children0))
        counter.
Proof.
  induction l as [| i rest IH]; intros P.
  - cbn [fold_left flat_map]. rewrite List.app_nil_r. reflexivity.
  - cbn [fold_left flat_map]. rewrite alignNode_placed, IH, List.app_assoc. reflexivity.
Qed.

Lemma isSelected_by_id (ids : list string) (c d : SModelElement Q) :
  elementId c = elementId d -> isSelected ids c = isSelected ids d.
Proof. unfold isSelected. intros ->. reflexivity. Qed.

Lemma selected_ids (ids : list string) (d : SModelElement Q) :
  In d children0 -> isNodeElement d = true ->
  existsb (fun id => (id =? elementId d)%string)
    (flat_map (fun i =>
                 match nth_error children0 i with
                 | Some c => if isNodeElement c then [elementId c] else []
                 | None => []
                 end)
       (getSelectedNodes ids 0 children0))
  = isSelected ids d.
Proof.
  intros Hd Nd. apply eq_true_iff_eq. rewrite existsb_exists. split.
  - intros [id [Hin E]]. apply String.eqb_eq in E. subst id.
    apply in_flat_map in Hin. destruct Hin as [i [Hi Hc]].
    apply getSelectedNodes_In in Hi. destruct Hi as [_ [c [Hn Hs]]].
    rewrite Nat.sub_0_r in Hn. rewrite Hn in Hc.
    destruct (isNodeElement c); [| destruct Hc].
    destruct Hc as [E | []]. rewrite <- (isSelected_by_id ids c d E). exact Hs.
  - intros Hs. exists (elementId d). split; [| apply String.eqb_refl].
    destruct (In_nth_error _ _ Hd) as [j Hj]. apply in_flat_map. exists j. split.
    + apply getSelectedNodes_In. split; [lia |]. exists d. rewrite Nat.sub_0_r. auto.
    + rewrite Hj, Nd. left. reflexivity.
Qed.
End OneHandler.

(** What a handler does, given the coordinate it computed: every selected
    node or package among the children of the graph is put in its place,
    and nothing else changes. *)
Lemma alignSelected_places (target : list (SModelElement Q) -> option Q)
    (place : Q -> Point Q -> Point Q) (this : GraphModel Q) (ids : list string)
    (coordinate : Q) :
  (forall v pos, place v (place v pos) = place v pos) ->
  NoDup (flat_map nodeIdsOf (graph_children (model this))) ->
  Forall (fun c => elementAsPort c = None) (graph_children (model this)) ->
  target (filter (isSelected ids) (graph_children (model this))) = Some coordinate ->
  alignSelected target place this ids
  = mkGraphModel
      (mkGraph (graph_id (model this))
         (map (fun d =>
                 if isNodeElement d && isSelected ids d
                 then moveTo (x (place coordinate (elementPosition d)))
                             (y (place coordinate (elementPosition d))) d
                 else d)
              (graph_children (model this))))
      (edgeCounter this).
Proof.
  intros Hplace Hnd Hports Ht. unfold alignSelected. rewrite Ht.
  destruct this as [[gid children] counter]. cbn [model graph_children graph_id edgeCounter] in *.
  assert (Hfold := @fold_alignNode (place coordinate) (Hplace coordinate) children Hnd Hports
                     gid counter (getSelectedNodes ids 0 children) []).
  cbn [List.app existsb] in Hfold.
  assert (E0 : map (fun d => if isNodeElement d && false
                             then moveTo (x (place coordinate (elementPosition d)))
                                         (y (place coordinate (elementPosition d))) d
                             else d) children = children).
  { rewrite <- (map_id children) at 2. apply map_ext. intros d.
    rewrite andb_false_r. reflexivity. }
  rewrite E0 in Hfold.
  assert (E1 : map (fun d =>
                      if isNodeElement d
                         && existsb (fun id => (id =? elementId d)%string)
                              (flat_map (fun i =>
                                           match nth_error children i with
                                           | Some c =>
                                               if isNodeElement c then [elementId c]
                                               else []
                                           | None => []
                                           end)
                                 (getSelectedNodes ids 0 children))
                      then moveTo (x (place coordinate (elementPosition d)))
                                  (y (place coordinate (elementPosition d))) d
                      else d) children
               = map (fun d =>
                        if isNodeElement d && isSelected ids d
                        then moveTo (x (place coordinate (elementPosition d)))
                                    (y (place coordinate (elementPosition d))) d
                        else d) children).
  { apply map_ext_in. intros d Hd. destruct (isNodeElement d) eqn:Nd; [| reflexivity].
    rewrite (@selected_ids children ids d Hd Nd). reflexivity. }
  rewrite E1 in Hfold.
  destruct (getSelectedNodes ids 0 children) as [| i rest] eqn:Sel;
    [| cbn [List.length Nat.eqb]; exact Hfold].
  cbn [List.length Nat.eqb]. cbn [fold_left] in Hfold. exact Hfold.
Qed.
Section Extremes.
Variable pick : Q -> Q -> Q.
Variable before : Q -> Q -> Prop.
Hypothesis before_refl : forall a, before a a.
Hypothesis before_trans : forall a b c, before a b -> before b c -> before a c.
Hypothesis pick_before :
  forall a b, before (pick a b) a /\ before (pick a b) b /\ (pick a b = a \/ pick a b = b).
Variable coordinate : Point Q -> Q.

(** The first [forEach] of a handler finds the extreme coordinate among the
    nodes that have a position, if there is one. *)
Lemma extremeOf_extreme (nodes : list (SModelElement Q)) :
  match extremeOf pick coordinate nodes with
  | Some m =>
      (forall c pos, In c nodes -> positionOf c = Some pos -> before m (coordinate pos))
      /\ exists c pos, In c nodes /\ positionOf c = Some pos /\ m = coordinate pos
  | None => forall c, In c nodes -> positionOf c = None
  end.
Proof.
  unfold extremeOf. induction nodes as [| c rest IH] using rev_ind.
  - cbn. intros c [].
  - rewrite fold_left_app. cbn [fold_left].
    destruct (positionOf c) as [pos |] eqn:Pc.
    + destruct (fold_left _ rest None) as [m |].
      * destruct IH as [Hall [c0 [pos0 [Hin0 [Hp0 Hm0]]]]].
        destruct (pick_before m (coordinate pos)) as [B1 [B2 Hor]]. split.
        -- intros d posd Hd Hpd. apply in_app_or in Hd. destruct Hd as [Hd | [<- | []]].
           ++ exact (before_trans B1 (Hall d posd Hd Hpd)).
           ++ rewrite Pc in Hpd. injection Hpd as <-. exact B2.
        -- destruct Hor as [E | E]; rewrite E.
           ++ exists c0, pos0. split; [apply in_or_app; left; exact Hin0 | auto].
           ++ exists c, pos. split; [apply in_or_app; right; left; reflexivity | auto].
      * split.
        -- intros d posd Hd Hpd. apply in_app_or in Hd. destruct Hd as [Hd | [<- | []]].
           ++ rewrite (IH d Hd) in Hpd. discriminate.
           ++ rewrite Pc in Hpd. injection Hpd as <-. apply before_refl.
        -- exists c, pos. split; [apply in_or_app; right; left; reflexivity | auto].
    + destruct (fold_left _ rest None) as [m |].
      * destruct IH as [Hall [c0 [pos0 [Hin0 [Hp0 Hm0]]]]]. split.
        -- intros d posd Hd Hpd. apply in_app_or in Hd. destruct Hd as [Hd | [<- | []]].
           ++ exact (Hall d posd Hd Hpd).
           ++ rewrite Pc in Hpd. discriminate.
        -- exists c0, pos0. split; [apply in_or_app; left; exact Hin0 | auto].
      * intros d Hd. apply in_app_or in Hd. destruct Hd as [Hd | [<- | []]];
          [exact (IH d Hd) | exact Pc].
Qed.
End Extremes.

Lemma Math_min_least (a b : Q) :
  Math_min a b <= a /\ Math_min a b <= b /\ (Math_min a b = a \/ Math_min a b = b).
Proof.
  unfold Math_min. destruct (Qle_bool a b) eqn:E.
  - apply Qle_bool_iff in E. split; [apply Qle_refl |]. split; [exact E | left; reflexivity].
  - assert (H : ~ a <= b) by (intros H; apply Qle_bool_iff in H; congruence).
    apply Qnot_le_lt, Qlt_le_weak in H.
    split; [exact H |]. split; [apply Qle_refl | right; reflexivity].
Qed.

Lemma Math_max_greatest (a b : Q) :
  a <= Math_max a b /\ b <= Math_max a b /\ (Math_max a b = a \/ Math_max a b = b).
Proof.
  unfold Math_max. destruct (Qle_bool a b) eqn:E.
  - apply Qle_bool_iff in E. split; [exact E |]. split; [apply Qle_refl | right; reflexivity].
  - assert (H : ~ a <= b) by (intros H; apply Qle_bool_iff in H; congruence).
    apply Qnot_le_lt, Qlt_le_weak in H.
    split; [apply Qle_refl |]. split; [exact H | left; reflexivity].
Qed.
Lemma positionOf_node children (c : SModelElement Q) (pos : Point Q) :
  Forall (fun c => elementAsPort c = None) children -> In c children ->
  positionOf c = Some pos -> isNodeElement c = true /\ pos = elementPosition c.
Proof.
  intros Hports Hin Hp. pose proof (proj1 (Forall_forall _ _) Hports c Hin) as Hc.
  destruct c; try discriminate; injection Hp as <-; split; reflexivity.
Qed.

Lemma alignSelected_extreme (pick : Q -> Q -> Q) (before : Q -> Q -> Prop)
    (coordinate : Point Q -> Q) (place : Q -> Point Q -> Point Q)
    (this : GraphModel Q) (ids : list string) :
  (forall a, before a a) ->
  (forall a b c, before a b -> before b c -> before a c) ->
  (forall a b, before (pick a b) a /\ before (pick a b) b
               /\ (pick a b = a \/ pick a b = b)) ->
  (forall v pos, place v (place v pos) = place v pos) ->
  NoDup (flat_map nodeIdsOf (graph_children (model this))) ->
  Forall (fun c => elementAsPort c = None) (graph_children (model this)) ->
  (exists c, In c (graph_children (model this))
             /\ isNodeElement c && isSelected ids c = true) ->
  exists m,
    (forall d, In d (graph_children (model this)) ->
               isNodeElement d && isSelected ids d = true ->
               before m (coordinate (elementPosition d)))
    /\ (exists d, In d (graph_children (model this))
                  /\ isNodeElement d && isSelected ids d = true
                  /\ m = coordinate (elementPosition d))
    /\ alignSelected (extremeOf pick coordinate) place this ids
       = mkGraphModel
           (mkGraph (graph_id (model this))
              (map (fun d =>
                      if isNodeElement d && isSelected ids d
                      then moveTo (x (place m (elementPosition d)))
                                  (y (place m (elementPosition d))) d
                      else d)
                 (graph_children (model this))))
           (edgeCounter this).
Proof.
  intros Hrefl Htrans Hpick Hplace Hnd Hports [c0 [Hin0 Hsel0]].
  apply andb_true_iff in Hsel0. destruct Hsel0 as [N0 S0].
  pose proof (@extremeOf_extreme pick before Hrefl Htrans Hpick coordinate
                (filter (isSelected ids) (graph_children (model this)))) as Hex.
  destruct (extremeOf pick coordinate
              (filter (isSelected ids) (graph_children (model this)))) as [m |] eqn:E.
  - destruct Hex as [Hall [c [pos [Hc [Hp Hm]]]]]. exists m. split; [| split].
    + intros d Hd Hsel. apply andb_true_iff in Hsel. destruct Hsel as [Nd Sd].
      apply (Hall d (elementPosition d)).
      * apply filter_In. split; assumption.
      * destruct d; try discriminate Nd; reflexivity.
    + apply filter_In in Hc. destruct Hc as [Hc Sc].
      destruct (@positionOf_node _ c pos Hports Hc Hp) as [Nc ->].
      exists c. rewrite Nc, Sc. auto.
    + exact (@alignSelected_places _ place this ids m Hplace Hnd Hports E).
  - exfalso. assert (H : positionOf c0 = None)
      by (apply Hex; apply filter_In; split; assumption).
    destruct c0; discriminate.
Qed.

(** X25.  The four alignment buttons, when the nodes and packages of the tree
    have pairwise distinct ids, no port is a child of the graph itself and
    at least one node or package is selected: align-left moves every
    selected node and package to the least x among them, align-right to the
    greatest x, align-top to the least y, and the vertical-centre button to
    the sum of their x divided by the number of selected children; each
    keeps the other coordinate of every node, and changes nothing else in
    the state: no node that is not selected, no edge, no port, no size. *)
Theorem alignment_moves_the_selected_nodes (this : GraphModel Q) (ids : list string) :
  NoDup (flat_map nodeIdsOf (graph_children (model this))) ->
  Forall (fun c => elementAsPort c = None) (graph_children (model this)) ->
  (exists c, In c (graph_children (model this))
             /\ isNodeElement c && isSelected ids c = true) ->
  let selected := fun d => isNodeElement d && isSelected ids d in
  let placed := fun place : Point Q -> Point Q =>
    mkGraphModel
      (mkGraph (graph_id (model this))
         (map (fun d =>
                 if selected d
                 then moveTo (x (place (elementPosition d))) (y (place (elementPosition d))) d
                 else d)
              (graph_children (model this))))
      (edgeCounter this) in
  (exists minX,
      (forall d, In d (graph_children (model this)) -> selected d = true ->
                 minX <= x (elementPosition d))
      /\ (exists d, In d (graph_children (model this)) /\ selected d = true
                    /\ minX = x (elementPosition d))
      /\ alignLeft this ids = placed (fun pos => mkPoint minX (y pos)))
  /\ (exists maxX,
         (forall d, In d (graph_children (model this)) -> selected d = true ->
                    x (elementPosition d) <= maxX)
         /\ (exists d, In d (graph_children (model this)) /\ selected d = true
                       /\ maxX = x (elementPosition d))
         /\ alignRight this ids = placed (fun pos => mkPoint maxX (y pos)))
  /\ (exists minY,
         (forall d, In d (graph_children (model this)) -> selected d = true ->
                    minY <= y (elementPosition d))
         /\ (exists d, In d (graph_children (model this)) /\ selected d = true
                       /\ minY = y (elementPosition d))
         /\ alignTop this ids = placed (fun pos => mkPoint (x pos) minY))
  /\ alignCenterVertical this ids
     = placed (fun pos =>
                 mkPoint (centerOf (filter (isSelected ids) (graph_children (model this))))
                         (y pos)).
Proof.
  intros Hnd Hports Hsel selected placed. split; [| split; [| split]].
  - exact (@alignSelected_extreme Math_min Qle (@x Q) (fun minX pos => mkPoint minX (y pos))
             this ids Qle_refl Qle_trans Math_min_least (fun v pos => eq_refl)
             Hnd Hports Hsel).
  - exact (@alignSelected_extreme Math_max (fun a b => b <= a) (@x Q)
             (fun maxX pos => mkPoint maxX (y pos)) this ids Qle_refl
             (fun a b c H1 H2 => Qle_trans _ _ _ H2 H1) Math_max_greatest
             (fun v pos => eq_refl) Hnd Hports Hsel).
  - exact (@alignSelected_extreme Math_min Qle (@y Q) (fun minY pos => mkPoint (x pos) minY)
             this ids Qle_refl Qle_trans Math_min_least (fun v pos => eq_refl)
             Hnd Hports Hsel).
  - exact (@alignSelected_places (fun nodes => Some (centerOf nodes))
             (fun centerX pos => mkPoint centerX (y pos)) this ids _
             (fun v pos => eq_refl) Hnd Hports eq_refl).
Qed.
End AlignmentProperties.

(** * Scenarios for the further properties *)

Ltac occurs_cases :=
  repeat match goal with
         | H : occursIn _ (_ :: _) |- _ => inversion H; subst; clear H
         | H : occursIn _ [] |- _ => inversion H
         end.

(** An edge carries the id asked for, and no node does. *)
Lemma update_of_absent_id_changes_nothing_witness :
  let this :=
    sampleModel [Edge (mkEdge "n9" "a-out" "b-in"); Node (sampleNode "a" [] None)] 1 in
  updateNodeSize this "n9" 10%Q 10%Q = this /\ updateNodePosition this "n9" 5%Q 5%Q = this.
Proof.
  intros this.
  apply (@update_of_absent_id_changes_nothing Q _ this "n9" 10%Q 10%Q 5%Q 5%Q).
  intros e H N. cbn in H. occurs_cases; try discriminate N; discriminate.
Defined.

Lemma updateNodeSize_places_by_ordinal_witness :
  let n := sampleNode "n1" [samplePort "n1-in" (Some left) input;
                            samplePort "n1-free" None input;
                            samplePort "n1-in2" (Some left) input] None in
  let this := sampleModel [Node n] 0 in
  findNode "n1" (graph_children (model (updateNodeSize this "n1" 200%Q 100%Q)))
  = Some (Node (setNodeChildren (setNodeSize n (mkSize 200%Q 100%Q))
                  (placeByOrdinal Some (fun p => p) (mkSize 200%Q 100%Q)
                     (node_children n)))).
Proof.
  intros n this.
  apply (@updateNodeSize_places_by_ordinal Q _ this "n1" 200%Q 100%Q (Node n)).
  reflexivity.
Defined.

Lemma updateNodeSize_of_added_node_witness :
  let this := sampleModel [Node (sampleNode "a" [] None)] 0 in
  let ports := [mkPortConfig None input left None None None;
                mkPortConfig (Some "out") output right None (Some square) None] in
  updateNodeSize
    (fst (addNodeWithPorts this "b" 0%Q 0%Q "B" ports (mkSize 120%Q 60%Q) None None None))
    "b" 200%Q 100%Q
  = fst (addNodeWithPorts this "b" 0%Q 0%Q "B" ports (mkSize 200%Q 100%Q) None None None).
Proof.
  intros this ports.
  apply (@updateNodeSize_of_added_node Q _ this "b" 0%Q 0%Q "B" ports (mkSize 120%Q 60%Q)
           None None None 200%Q 100%Q).
  - intros e H N. cbn in H. occurs_cases; discriminate.
  - repeat constructor.
Defined.

Lemma reachable_edge_ids_distinct_witness :
  let this :=
    fst (addEdge (deleteItem (fst (addEdge (newGraphModel : GraphModel Q) "a-out" "b-in"))
                    "edge-1") "a-out" "b-in") in
  NoDup (edgeIds this)
  /\ (forall id n, In id (edgeIds this) -> edgeNumber id = Some n -> (n <= 2)%N)
  /\ Number_toString (increment (edgeCounter this)) = decimal (2 + 1)
  /\ ~ In ("edge-" ++ Number_toString (increment (edgeCounter this)))%string
          (edgeIds this).
Proof.
  intros this.
  apply (@reachable_edge_ids_distinct Q _ sampleMath _ noPortElements this 2).
  - apply reach_addEdge, reach_deleteItem, reach_addEdge, reach_new.
  - reflexivity.
  - reflexivity.
Defined.

(** Edge 1 is created and deleted: straight on, the next edge is edge 2;
    after a reload it is edge 1 again. *)
Lemma edge_id_after_delete_and_reload_witness :
  let this : GraphModel Q := newGraphModel in
  let deleted := deleteItem (fst (addEdge this "a-out" "b-in")) ("edge-" ++ decimal (0 + 1)) in
  let reloaded := loadFromJson (JM := sampleMath) noPortElements deleted (getModel deleted) in
  deleted = mkGraphModel (model this) (count (0 + 1))
  /\ addEdge deleted "a-out" "b-in"
     = (mkGraphModel
          (mkGraph (graph_id (model this))
             (graph_children (model this)
              ++ [Edge (mkEdge ("edge-" ++ decimal (0 + 2)) "a-out" "b-in")]))
          (count (0 + 2)),
        mkResult true ("Edge created: " ++ "a-out" ++ " " ++ arrow ++ " " ++ "b-in")%string)
  /\ edgeCounter reloaded = count (maxNumber (edgeNumbers (model this)))
  /\ (maxNumber (edgeNumbers (model this)) = 0%N ->
      addEdge reloaded "a-out" "b-in"
      = (mkGraphModel
           (mkGraph (graph_id (model reloaded))
              (graph_children (model reloaded)
               ++ [Edge (mkEdge ("edge-" ++ decimal (0 + 1)) "a-out" "b-in")]))
           (count (0 + 1)),
         mkResult true
           ("Edge created: " ++ "a-out" ++ " " ++ arrow ++ " " ++ "b-in")%string)).
Proof.
  intros this.
  apply (@edge_id_after_delete_and_reload Q _ sampleMath _ noPortElements this
           "a-out" "b-in" 0).
  - apply reach_new.
  - reflexivity.
  - reflexivity.
  - reflexivity.
  - intros n [].
Defined.

Lemma rotations_leave_no_drift_witness :
  let markers := fun _ : string =>
    Some [mkMarker (Some "in1") (Some "1") (Some "in") 0%Q 10%Q 8%Q 8%Q;
          mkMarker (Some "out1") None (Some "out") 40%Q 10%Q 8%Q 8%Q] in
  let n := mkNode node_svg "s" (mkPoint 0%Q 0%Q) (mkSize 48%Q 48%Q) "s"
             [samplePort "s-in1" None input; samplePort "s-port-1" None output;
              samplePort "s-extra" None output]
             None None false false (Some 0%Q) (Some "<svg/>") in
  let this := sampleModel [Node n] 0 in
  rotateRightTimes (JM := sampleMath) markers 2 this "s"
  = Rotated
      (mkGraphModel
         (mkGraph (graph_id (model this))
            (replaceFirstById "s"
               (Node (updateNodePortPositions (JM := sampleMath) markers
                        (setNodeRotation n
                           (Nat.iter 2 (fun r => Some (rotateRight_newRotation r))
                              (node_rotation n)))))
               (graph_children (model this))))
         (edgeCounter this)).
Proof.
  intros markers n this.
  exact (proj1 (@rotations_leave_no_drift Q _ sampleMath markers 1 this "s" n eq_refl)).
Defined.

Lemma flip_twice_restores_witness :
  let markers := fun _ : string =>
    Some [mkMarker (Some "in1") (Some "1") (Some "in") 0%Q 10%Q 8%Q 8%Q] in
  let n := mkNode node_svg "s" (mkPoint 0%Q 0%Q) (mkSize 48%Q 48%Q) "s"
             [samplePort "s-in1" None input]
             (Some 4%Q) (Some 0%Q) false false (Some 90%Q) (Some "<svg/>") in
  let this := sampleModel [Node n] 0 in
  exists this1,
    flipHorizontalNode (JM := sampleMath) markers this "s" = Returns this1
    /\ flipHorizontalNode (JM := sampleMath) markers this1 "s"
       = Returns
           (mkGraphModel
              (mkGraph (graph_id (model this))
                 (replaceFirstById "s"
                    (Node (updateNodePortPositions (JM := sampleMath) markers n))
                    (graph_children (model this))))
              (edgeCounter this)).
Proof.
  intros markers n this.
  refine (proj1 (@flip_twice_restores Q _ sampleMath markers this "s" n eq_refl _)).
  intros _. split; discriminate.
Defined.

Lemma full_turn_restores_ports_witness :
  let n := sampleNode "a" [samplePort "a-out" (Some right) output;
                           samplePort "a-in" (Some left) input] (Some 0%Q) in
  let this := sampleModel [Node n] 0 in
  exists this4 n4,
    rotateRightTimes (JM := sampleMath) noPortElements 4 this "a" = Rotated this4
    /\ find (fun child => (elementId child =? "a")%string) (graph_children (model this4))
       = Some (Node n4)
    /\ map (@port_position Q) (node_children n4) = map (@port_position Q) (node_children n).
Proof.
  intros n this.
  apply (@full_turn_restores_ports sampleMath noPortElements this "a" n); try reflexivity.
  - right. exists 0%Q. split; reflexivity.
  - repeat constructor.
Defined.

Lemma ResizeCommand_execute_as_model_witness :
  let n := sampleNode "a" [samplePort "a-in" (Some left) input;
                           samplePort "a-out" (Some right) output] None in
  let this := mkResizeCommand "a" (mkBounds 10%Q 20%Q 200%Q 100%Q) None in
  option_map (@Node Q) (snd (ResizeCommand_execute this (Some n)))
  = Some (moveTo (bounds_x (rc_newBounds this)) (bounds_y (rc_newBounds this))
            (resize (bounds_width (rc_newBounds this)) (bounds_height (rc_newBounds this))
               (Node n)))
  /\ rc_oldBounds (fst (ResizeCommand_execute this (Some n))) = Some (nodeBounds n).
Proof.
  intros n this. apply (@ResizeCommand_execute_as_model Q _ this n).
  repeat constructor; discriminate.
Defined.

Lemma ResizeCommand_undo_after_execute_witness :
  let n := sampleNode "a" [samplePort "a-in" (Some left) input] None in
  let this := mkResizeCommand "a" (mkBounds 10%Q 20%Q 200%Q 100%Q) None in
  snd (ResizeCommand_undo (fst (ResizeCommand_execute this (Some n)))
         (snd (ResizeCommand_execute this (Some n))))
  = Some (setNodeChildren n
            (placeByOrdinal Some (fun p => p) (node_size n) (node_children n))).
Proof.
  intros n this.
  refine (proj1 (@ResizeCommand_undo_after_execute Q _ this n _)).
  repeat constructor; discriminate.
Defined.

Lemma sample_package_ports_cannot_be_connected_witness :
  let this : GraphModel Q := newGraphModel in
  addEdge (addPackageNode this 5) "child-node1-out" "child-node2-in"
  = (addPackageNode this 5, mkResult false "Cannot connect a node to itself").
Proof.
  intros this.
  refine (proj2 (@sample_package_ports_cannot_be_connected Q _ this 5
                   "child-node1-out" "child-node2-in" _ _ _)).
  - intros child portId [].
  - right. left. reflexivity.
  - right. right. left. reflexivity.
Defined.

Lemma updatePortPositionsFromSvg_after_parse_witness :
  let markers := fun _ : string =>
    Some [mkMarker (Some "in1") (Some "1") (Some "in") 0%Q 10%Q 8%Q 8%Q;
          mkMarker (Some "out1") None (Some "out") 40%Q 10%Q 8%Q 8%Q] in
  let ports := parsePortsFromSvg (JM := sampleMath) markers "<svg/>" "s" (Some 90%Q)
                 24%Q 24%Q in
  let node := mkNode node_svg "s" (mkPoint 0%Q 0%Q) (mkSize 48%Q 48%Q) "s" ports None None
                false false (Some 90%Q) (Some "<svg/>") in
  updatePortPositionsFromSvg (JM := sampleMath) markers node "<svg/>" 90%Q 24%Q 24%Q = node.
Proof.
  intros markers ports node.
  apply (@updatePortPositionsFromSvg_after_parse Q _ sampleMath markers node "<svg/>"
           90%Q 24%Q 24%Q).
  - reflexivity.
  - vm_compute. repeat constructor; cbn; intuition discriminate.
Defined.

Lemma update_reaches_the_older_element_witness :
  let this := sampleModel [Node (sampleNode "a" [] None)] 0 in
  let added := Node (sampleNode "a" [] (Some 90%Q)) in
  updateNodeSize (pushChild this added) "a" 200%Q 100%Q
  = pushChild (updateNodeSize this "a" 200%Q 100%Q) added
  /\ updateNodePosition (pushChild this added) "a" 1%Q 2%Q
     = pushChild (updateNodePosition this "a" 1%Q 2%Q) added.
Proof.
  intros this added.
  apply (@update_reaches_the_older_element Q _ this "a" added 200%Q 100%Q 1%Q 2%Q
           (Node (sampleNode "a" [] None))).
  reflexivity.
Defined.

Lemma duplicateItem_copies_a_node_witness :
  let n := sampleNode "a" [samplePort "p" (Some left) input;
                           samplePort "p" (Some right) output] None in
  let this := sampleModel [Node n] 0 in
  exists copy,
    duplicateItem this "a" 7 = Returns (pushChild this (Node copy))
    /\ node_id copy = ("node-" ++ toString 7)%string
    /\ NoDup (map (@port_id Q) (node_children copy))
    /\ map (fun p => setPortId p "") (node_children copy)
       = map (fun p => setPortId p "") (node_children n)
    /\ edgeIds (pushChild this (Node copy)) = edgeIds this.
Proof.
  intros n this.
  refine (@duplicateItem_copies_a_node Q _ _ this "a" 7 (Node n) eq_refl _).
  unfold writtenAsItIs. repeat constructor.
Defined.

Lemma updateNodeSize_keeps_ports_on_sides_witness :
  let n := sampleNode "a" [samplePort "a-in1" (Some left) input;
                           samplePort "a-top" (Some top) input;
                           samplePort "a-in2" (Some left) input] None in
  let this := sampleModel [Node n] 0 in
  exists n',
    findNode "a" (graph_children (model (updateNodeSize this "a" 200%Q 100%Q)))
    = Some (Node n')
    /\ node_size n' = mkSize 200%Q 100%Q
    /\ Forall (fun p =>
                 match side p with
                 | Some left =>
                     (x (port_position p) == -8
                      /\ 0 <= y (port_position p) /\ y (port_position p) <= 100 - 16)%Q
                 | Some right =>
                     (x (port_position p) == 200 - 8
                      /\ 0 <= y (port_position p) /\ y (port_position p) <= 100 - 16)%Q
                 | Some top =>
                     (y (port_position p) == -8
                      /\ 0 <= x (port_position p) /\ x (port_position p) <= 200 - 16)%Q
                 | Some bottom =>
                     (y (port_position p) == 100 - 8
                      /\ 0 <= x (port_position p) /\ x (port_position p) <= 200 - 16)%Q
                 | None => True
                 end)
              (node_children n').
Proof.
  intros n this.
  apply (@updateNodeSize_keeps_ports_on_sides this "a" 200%Q 100%Q n);
    [reflexivity | discriminate | discriminate].
Defined.

Lemma resize_drag_keeps_ports_on_sides_witness :
  let n := sampleNode "a" [samplePort "a-in" (Some left) input] None in
  let resizing := mkResizing "a" 300%Q 300%Q 120%Q 60%Q 100%Q 100%Q in
  exists this n',
    startResize_handleMouseMove (Some resizing) 0%Q 0%Q = Some this
    /\ bounds_x (rc_newBounds this) = startBoundsX resizing
    /\ bounds_y (rc_newBounds this) = startBoundsY resizing
    /\ (50 <= bounds_width (rc_newBounds this))%Q
    /\ (30 <= bounds_height (rc_newBounds this))%Q
    /\ snd (ResizeCommand_execute this (Some n)) = Some n'
    /\ Forall (fun p =>
                 match side p with
                 | Some left =>
                     (x (port_position p) == -8
                      /\ 0 <= y (port_position p)
                      /\ y (port_position p) <= bounds_height (rc_newBounds this) - 16)%Q
                 | Some right =>
                     (x (port_position p) == bounds_width (rc_newBounds this) - 8
                      /\ 0 <= y (port_position p)
                      /\ y (port_position p) <= bounds_height (rc_newBounds this) - 16)%Q
                 | Some top =>
                     (y (port_position p) == -8
                      /\ 0 <= x (port_position p)
                      /\ x (port_position p) <= bounds_width (rc_newBounds this) - 16)%Q
                 | Some bottom =>
                     (y (port_position p) == bounds_height (rc_newBounds this) - 8
                      /\ 0 <= x (port_position p)
                      /\ x (port_position p) <= bounds_width (rc_newBounds this) - 16)%Q
                 | None => True
                 end)
              (node_children n').
Proof.
  intros n resizing.
  apply (@resize_drag_keeps_ports_on_sides resizing 0%Q 0%Q n).
  repeat constructor; discriminate.
Defined.

Lemma loadFromJson_turns_stored_ports_witness :
  let n :=
    mkNode node_process "a" (mkPoint 0%R 0%R) (mkSize 120%R 60%R) "a"
      [mkPort "a-out" (mkPoint 112%R 22%R) (mkSize 16%R 16%R) output circle (Some right)
         None None]
      None None false false (Some 90%R) None in
  let tree := mkGraph "root" [Node n] in
  In (Node
        (setNodeChildren n
           (map (fun p =>
                   setPortPosition p
                     (mkPoint
                        (width (node_size n) / 2 + height (node_size n) / 2
                         - (y (port_position p) + height (port_size p) / 2)
                         - width (port_size p) / 2)%R
                        (x (port_position p) + width (port_size p) / 2
                         - width (node_size n) / 2 + height (node_size n) / 2
                         - height (port_size p) / 2)%R))
                (node_children n))))
     (graph_children (model (loadFromJson (fun _ => None) newGraphModel tree))).
Proof.
  intros n tree.
  refine (proj1 (@loadFromJson_turns_stored_ports (fun _ => None) newGraphModel tree n
                   _ eq_refl eq_refl)).
  left. reflexivity.
Defined.

Lemma alignment_moves_the_selected_nodes_witness :
  let this :=
    sampleModel [Node (setNodePosition (sampleNode "a" [] None) (mkPoint 40%Q 20%Q));
                 Edge (mkEdge "edge-1" "a-out" "b-in");
                 Node (setNodePosition (sampleNode "b" [] None) (mkPoint 10%Q 50%Q));
                 Node (sampleNode "c" [] None)] 1 in
  let ids := ["a"; "b"] in
  let selected := fun d => isNodeElement d && isSelected ids d in
  exists minX,
    (forall d, In d (graph_children (model this)) -> selected d = true ->
               (minX <= x (elementPosition d))%Q)
    /\ (exists d, In d (graph_children (model this)) /\ selected d = true
                  /\ minX = x (elementPosition d))
    /\ alignLeft this ids
       = mkGraphModel
           (mkGraph (graph_id (model this))
              (map (fun d =>
                      if selected d
                      then moveTo (x (mkPoint minX (y (elementPosition d))))
                                  (y (mkPoint minX (y (elementPosition d)))) d
                      else d)
                 (graph_children (model this))))
           (edgeCounter this).
Proof.
  intros this ids selected.
  refine (proj1 (@alignment_moves_the_selected_nodes this ids _ _ _)).
  - vm_compute. repeat constructor; cbn; intuition discriminate.
  - repeat constructor.
  - eexists. split; [left; reflexivity | reflexivity].
Defined.
